(** * The OpenVDB reference ray tracer ([openvdb/tools/RayTracer.h])

    A shallow embedding of the [Film], camera, shader and
    [LevelSetRayTracer] classes, and the properties of them that the
    specification states.

    Conventions of the embedding:
    - [size_t] is [N]; where the source computes in [size_t] the
      reduction modulo [2^64] is written out ([size_wrap]);
    - [float] and [double] are IEEE-754 binary32 and binary64 numbers,
      given by [spec_float] and the operations of [SpecFloat] at
      precision 24 / 53 (round to nearest, ties to even);
    - an array is a [list]; reading or writing outside it, dereferencing
      a null pointer and a float-to-integer conversion whose result does
      not fit are undefined behaviour in C++ and are [None] here;
    - loops are [for_loop], counted on the number of iterations left;
    - what the source takes from the C and C++ run-time library (the
      functions [atan] and [tan], the heap behind [new], the files that
      can be opened) is a parameter of the function that uses it. *)

From Stdlib Require Import ZArith NArith Lia Bool.
From Stdlib Require Import Floats.SpecFloat.
From Stdlib Require Strings.Ascii Strings.Byte Numbers.DecimalString.
From Stdlib Require Import Reals Lra.
From stdpp Require Import base option list strings.

Local Open Scope N_scope.

(** ** Machine integers *)

Abbreviation size_t := N (only parsing).

Definition size_wrap (n : N) : size_t := n mod 2 ^ 64.

(** ** IEEE-754 numbers *)

Abbreviation float := spec_float (only parsing).
Abbreviation double := spec_float (only parsing).

Definition is_finite (x : spec_float) : bool :=
  match x with
  | S754_zero _ | S754_finite _ _ _ => true
  | S754_infinity _ | S754_nan => false
  end.

(** Two numbers that are identical, or are both a zero (of either sign):
    on numbers that are not NaN this is what [==] tests in C++, since
    apart from [+0 == -0] distinct binary numbers compare different. *)
Definition same_number (x y : spec_float) : Prop :=
  match x, y with
  | S754_zero _, S754_zero _ => True
  | _, _ => x = y
  end.

Module F32.
Definition prec : Z := 24.
Definition emax : Z := 128.
Definition valid (x : float) : bool := valid_binary prec emax x.
Definition add : float -> float -> float := SFadd prec emax.
Definition sub : float -> float -> float := SFsub prec emax.
Definition mul : float -> float -> float := SFmul prec emax.
Definition div : float -> float -> float := SFdiv prec emax.
(** Conversion of an unsigned integer to [float]. *)
Definition of_N (n : N) : float := binary_normalize prec emax (Z.of_N n) 0 false.
(** Conversion of a [double] to [float]. *)
Definition of_double (x : double) : float :=
  match x with
  | S754_finite s m e => binary_round prec emax s m e
  | _ => x
  end.
Definition zero : float := S754_zero false.
(** [1.0f] *)
Definition one : float := S754_finite false 8388608 (-23).
(** [255.0f] *)
Definition c255 : float := S754_finite false 16711680 (-16).
End F32.

Module F64.
Definition prec : Z := 53.
Definition emax : Z := 1024.
Definition valid (x : double) : bool := valid_binary prec emax x.
Definition add : double -> double -> double := SFadd prec emax.
Definition mul : double -> double -> double := SFmul prec emax.
Definition div : double -> double -> double := SFdiv prec emax.
Definition opp : double -> double := SFopp.
Definition abs : double -> double := SFabs.
Definition ltb : double -> double -> bool := SFltb.
(** Conversion of an unsigned integer to [double]. *)
Definition of_N (n : N) : double := binary_normalize prec emax (Z.of_N n) 0 false.
(** Widening of a [float]: every binary32 number is a binary64 number. *)
Definition of_float (x : float) : double :=
  match x with
  | S754_finite s m e => binary_round prec emax s m e
  | _ => x
  end.
Definition zero : double := S754_zero false.
(** [0.5] *)
Definition half : double := S754_finite false 4503599627370496 (-53).
(** [1.0] *)
Definition one : double := S754_finite false 4503599627370496 (-52).
End F64.

(** ** Arrays and counted loops *)

(** [arr[i]] read and written through a pointer; outside the array the
    access is undefined. *)
Definition load {A} (arr : list A) (i : size_t) : option A :=
  arr !! N.to_nat i.

Definition store {A} (arr : list A) (i : size_t) (v : A) : option (list A) :=
  if decide (i < N.of_nat (length arr)) then Some (<[N.to_nat i := v]> arr)
  else None.

(** [for (i = lo; fuel iterations; ++i) s = body(i, s)] *)
Fixpoint for_loop {St} (fuel : nat) (i : size_t)
    (body : size_t -> St -> option St) (s : St) : option St :=
  match fuel with
  | O => Some s
  | S fuel' => s' ← body i s; for_loop fuel' (N.succ i) body s'
  end.

(** [for (i = lo; i < hi; ++i) s = body(i, s)] *)
Definition for_range {St} (lo hi : size_t)
    (body : size_t -> St -> option St) (s : St) : option St :=
  for_loop (N.to_nat (hi - lo)) lo body s.

(** ** Film *)

Module RGBA.
(** Floating-point RGBA components in the range [0, 1]. *)
Record t := mk { r : float; g : float; b : float; a : float }.

(** [RGBA()] *)
Definition black : t := mk F32.zero F32.zero F32.zero F32.one.
(** [RGBA(intensity)] *)
Definition gray (intensity : float) : t := mk intensity intensity intensity F32.one.
(** [RGBA(_r, _g, _b)], the alpha defaulted to [1.0f] *)
Definition rgb (_r _g _b : float) : t := mk _r _g _b F32.one.

(** [operator*(ValueT scale)] *)
Definition scale (c : t) (s : float) : t :=
  rgb (F32.mul (r c) s) (F32.mul (g c) s) (F32.mul (b c) s).
(** [operator+(const RGBA& rhs)] *)
Definition add (c rhs : t) : t :=
  rgb (F32.add (r c) (r rhs)) (F32.add (g c) (g rhs)) (F32.add (b c) (b rhs)).
(** [operator*(const RGBA& rhs)] *)
Definition mul (c rhs : t) : t :=
  rgb (F32.mul (r c) (r rhs)) (F32.mul (g c) (g rhs)) (F32.mul (b c) (b rhs)).
(** [operator+=(const RGBA& rhs)], the value of [*this] afterwards *)
Definition add_assign (c rhs : t) : t :=
  mk (F32.add (r c) (r rhs)) (F32.add (g c) (g rhs)) (F32.add (b c) (b rhs))
     (F32.add (a c) (a rhs)).
(** [over(const RGBA& rhs)], the value of [*this] afterwards *)
Definition over (c rhs : t) : t :=
  let s := F32.mul (a rhs) (F32.sub F32.one (a c)) in
  let r' := F32.add (F32.mul (a c) (r c)) (F32.mul s (r rhs)) in
  let g' := F32.add (F32.mul (a c) (g c)) (F32.mul s (g rhs)) in
  let b' := F32.add (F32.mul (a c) (b c)) (F32.mul s (b rhs)) in
  let a' := F32.add (a c) s in
  mk r' g' b' a'.

Definition valid (c : t) : bool :=
  F32.valid (r c) && F32.valid (g c) && F32.valid (b c) && F32.valid (a c).
Definition finite (c : t) : bool :=
  is_finite (r c) && is_finite (g c) && is_finite (b c) && is_finite (a c).
End RGBA.

(** *** Conversion of a channel to a byte *)

(** The integer part of a finite number, the fraction discarded. *)
Definition float_trunc (x : float) : option Z :=
  match x with
  | S754_zero _ => Some 0%Z
  | S754_finite s m e => Some (cond_Zopp s (Z.shiftl (Z.pos m) e))
  | S754_infinity _ | S754_nan => None
  end.

(** [static_cast<unsigned char>(x)]: the value is truncated; when the
    truncated value is not an [unsigned char] the conversion is
    undefined. *)
Definition to_uchar (x : float) : option Byte.byte :=
  t ← float_trunc x;
  if (0 <=? t)%Z && (t <=? 255)%Z then Byte.of_N (Z.to_N t) else None.

(** The three bytes [savePPM] stores for one pixel. *)
Definition ppm_bytes (c : RGBA.t) : option (list Byte.byte) :=
  r ← to_uchar (F32.mul F32.c255 (RGBA.r c));
  g ← to_uchar (F32.mul F32.c255 (RGBA.g c));
  b ← to_uchar (F32.mul F32.c255 (RGBA.b c));
  Some [r; g; b].

(** [os << n] for a [size_t]. *)
Definition decimal (n : size_t) : string :=
  DecimalString.NilEmpty.string_of_uint (N.to_uint n).

Definition newline : string := String (Ascii.ascii_of_N 10) EmptyString.

(** A file that has been written. *)
Record file := { file_name : string; file_data : list Byte.byte }.

Module Film.
Record t := mk
  { mWidth : size_t; mHeight : size_t; mSize : size_t; mPixels : list RGBA.t }.

Definition width (f : t) : size_t := mWidth f.
Definition height (f : t) : size_t := mHeight f.
Definition numPixels (f : t) : size_t := mSize f.
Definition pixels (f : t) : list RGBA.t := mPixels f.

Definition with_pixels (f : t) (px : list RGBA.t) : t :=
  mk (mWidth f) (mHeight f) (mSize f) px.

(** [fill(rgb)] *)
Definition fill (f : t) (rgb : RGBA.t) : option t :=
  px ← for_range 0 (mSize f) (fun i px => store px i rgb) (mPixels f);
  Some (with_pixels f px).

(** [Film(width, height)]: [new RGBA[mSize]] default-constructs every
    pixel.  The constructor validates nothing and throws nothing. *)
Definition create (width height : size_t) : t :=
  let size := size_wrap (width * height) in
  mk width height size (replicate (N.to_nat size) RGBA.black).

(** [Film(width, height, bg)] *)
Definition create_bg (width height : size_t) (bg : RGBA.t) : option t :=
  fill (create width height) bg.

(** The index [w + h*mWidth] of pixel [(w, h)]. *)
Definition offset (f : t) (w h : size_t) : size_t :=
  size_wrap (w + size_wrap (h * mWidth f)).

(** [pixel(w, h)] read: the two assertions, then the array access. *)
Definition pixel (f : t) (w h : size_t) : option RGBA.t :=
  if (w <? mWidth f) && (h <? mHeight f) then load (mPixels f) (offset f w h)
  else None.

(** Assignment through the reference that [pixel(w, h)] returns. *)
Definition set_pixel (f : t) (w h : size_t) (c : RGBA.t) : option t :=
  if (w <? mWidth f) && (h <? mHeight f) then
    px ← store (mPixels f) (offset f w h) c; Some (with_pixels f px)
  else None.

(** [checkerboard(c1, c2, size)]: [p] walks the pixel array. *)
Definition checkerboard (f : t) (c1 c2 : RGBA.t) (size : size_t) : option t :=
  st ← for_range 0 (mHeight f) (fun j st =>
          for_range 0 (mWidth f) (fun i st =>
            let '(px, p) := st in
            px' ← store px p
                    (if N.eqb (N.lxor (N.land i size) (N.land j size)) 0
                     then c2 else c1);
            Some (px', N.succ p)) st)
        (mPixels f, 0);
  Some (with_pixels f st.1).

(** The header [savePPM] writes:
    [os << "P6\n" << mWidth << " " << mHeight << "\n255\n"]. *)
Definition ppm_header (f : t) : string :=
  "P6" +:+ newline +:+ decimal (mWidth f) +:+ " " +:+ decimal (mHeight f)
  +:+ newline +:+ "255" +:+ newline.

(** [savePPM(fileName)].  [tmp] is an array of [3*mSize] bytes, filled
    from the [mSize] pixels by [while (n--)]; then the file is opened.
    [can_open] tells which files can be opened for writing.  The result
    is the file written, or [None] when the file could not be opened
    (the source prints a message and returns). *)
Definition savePPM (f : t) (fileName : string) (can_open : string -> bool)
    : option (option file) :=
  if decide (3 * mSize f < 2 ^ 64) then
    tmp ← for_range 0 (mSize f) (fun k tmp =>
             c ← load (mPixels f) k;
             bs ← ppm_bytes c;
             Some (tmp ++ bs)) [];
    let name := fileName +:+ ".ppm" in
    if can_open name
    then Some (Some (Build_file name (String.list_byte_of_string (ppm_header f) ++ tmp)))
    else Some None
  else None.

(** A film whose array has [mWidth * mHeight] pixels, as the
    constructors build it when the product fits a [size_t]. *)
Definition wf (f : t) : Prop :=
  mWidth f * mHeight f < 2 ^ 64 /\
  mSize f = mWidth f * mHeight f /\
  N.of_nat (length (mPixels f)) = mSize f.
End Film.

(** The colour the source gives pixel [(i, j)]:
    [((i & size) ^ (j & size)) ? c1 : c2]. *)
Definition checker (c1 c2 : RGBA.t) (size i j : size_t) : RGBA.t :=
  if N.eqb (N.lxor (N.land i size) (N.land j size)) 0 then c2 else c1.

(** ** Outcomes of a call *)

(** The error taxonomy of the specification, and [std::bad_alloc], which
    a [new] expression throws when it cannot obtain the storage. *)
Inductive exception :=
  InvalidArgument | OutOfRange | IOError | UnsupportedValueType | bad_alloc.

(** How a call ends.  [RayTracer.h] has no [throw] expression: the only
    exception that leaves one of its functions is the one of a [new]
    expression.  [Undefined] stands for the undefined behaviour that the
    functions above report as [None]. *)
Inductive outcome (A : Type) :=
  | Returns (x : A)
  | Throws (e : exception)
  | Undefined.
Arguments Returns {A} x.
Arguments Throws {A} e.
Arguments Undefined {A}.

Definition call {A} (res : option A) : outcome A :=
  match res with Some x => Returns x | None => Undefined end.

(** [sizeof(RGBA)]: four [float]s. *)
Definition sizeof_RGBA : size_t := 16.

(** Whether [new RGBA[n]] obtains its storage.  The request is for
    [n * sizeof(RGBA)] bytes: when that number does not fit a [size_t]
    the expression throws [std::bad_array_new_length] (a
    [std::bad_alloc]) without calling the allocation function, and
    otherwise it throws [std::bad_alloc] when the allocation function
    fails.  [heap] tells which requests, in bytes, the allocation
    function grants. *)
Definition new_RGBA_array (heap : size_t -> bool) (n : size_t) : bool :=
  (n * sizeof_RGBA <? 2 ^ 64) && heap (n * sizeof_RGBA).

(** [Film film(width, height);] and [Film film(width, height, bg);]:
    [mSize(width*height)], then [mPixels(new RGBA[mSize])]. *)
Definition Film_ctor (heap : size_t -> bool) (width height : size_t)
    : outcome Film.t :=
  if new_RGBA_array heap (size_wrap (width * height))
  then Returns (Film.create width height)
  else Throws bad_alloc.
Definition Film_ctor_bg (heap : size_t -> bool) (width height : size_t)
    (bg : RGBA.t) : outcome Film.t :=
  if new_RGBA_array heap (size_wrap (width * height))
  then call (Film.create_bg width height bg)
  else Throws bad_alloc.

(** A heap that grants the requests below 4 GiB. *)
Definition heap_4GiB : size_t -> bool := fun bytes => bytes <? 2 ^ 32.

(** Some binary32 constants: [0.25f], [0.5f], [2.0f], and the default
    checkerboard intensities [0.3f] and [0.6f]. *)
Definition f32_quarter : float := S754_finite false 8388608 (-25).
Definition f32_half : float := S754_finite false 8388608 (-24).
Definition f32_two : float := S754_finite false 8388608 (-22).
Definition f32_0_3 : float := S754_finite false 10066330 (-25).
Definition f32_0_6 : float := S754_finite false 10066330 (-24).

(** ** Vocabulary of the properties *)

(** What [over] may do to a channel of an opaque accumulator: keep it,
    or turn a negative zero into the positive zero (which [==] does not
    tell apart). *)
Definition kept (old new : float) : Prop :=
  new = old \/ (old = S754_zero true /\ new = S754_zero false).

(** The byte the specification assigns to a channel value [v]:
    [floor(255 * v)] clamped to the range [0, 255], the product being
    the [float] product of the source. *)
Definition spec_channel_byte (v : float) : option Byte.byte :=
  match F32.mul F32.c255 v with
  | S754_zero _ => Some Byte.x00
  | S754_finite s m e =>
      Byte.of_N (Z.to_N (Z.max 0 (Z.min 255 (Z.shiftl (cond_Zopp s (Z.pos m)) e))))
  | S754_infinity false => Some Byte.xff
  | S754_infinity true => Some Byte.x00
  | S754_nan => None
  end.

Definition ppm_convertible (c : RGBA.t) : bool :=
  match ppm_bytes c with Some _ => true | None => false end.

(** The channel value of an 8-bit colour component [k]: the [float]
    quotient [k / 255.0f]. *)
Definition channel_of_byte (k : Byte.byte) : float :=
  F32.div (F32.of_N (Byte.to_N k)) F32.c255.

(** The example of the specification: a 2 x 1 image holding
    RGBA(1,0,0) and RGBA(0,1,0). *)
Definition film_2x1 : Film.t :=
  Film.mk 2 1 2 [RGBA.rgb F32.one F32.zero F32.zero;
                 RGBA.rgb F32.zero F32.one F32.zero].

(** ** Cameras *)

(** [2.0] and [360.0], and [M_PI], the macro of [<cmath>]: the binary64
    number nearest to pi, 3.141592653589793116. *)
Definition f64_two : double := S754_finite false 4503599627370496 (-51).
Definition f64_360 : double := S754_finite false 6333186975989760 (-44).
Definition M_PI : double := S754_finite false 7074237752028440 (-51).

(** The defaults of the constructor: a focal length of [50.0] and an
    aperture of [41.2136]. *)
Definition default_focalLength : double := S754_finite false 7036874417766400 (-47).
Definition default_aperture : double := S754_finite false 5800298550081146 (-47).

(** The two static conversions of [PerspectiveCamera], in the binary64
    arithmetic of the source: [360.0 / M_PI * atan(aperture/(2.0*length))]
    and [aperture/(2.0*(tan(fov * M_PI / 360.0)))], evaluated from left
    to right.  [atan] and [tan] are functions of the C library, which is
    outside these sources and whose accuracy the C standard leaves open:
    they are parameters. *)
Module PerspectiveCamera.
Definition focalLengthToFieldOfView (atan : double -> double)
    (length aperture : double) : double :=
  F64.mul (F64.div f64_360 M_PI)
          (atan (F64.div aperture (F64.mul f64_two length))).
Definition fieldOfViewToFocalLength (tan : double -> double)
    (fov aperture : double) : double :=
  F64.div aperture
          (F64.mul f64_two (tan (F64.div (F64.mul fov M_PI) f64_360))).
End PerspectiveCamera.

(** *** Real values and relative errors *)

(** [2^e] *)
Definition pow2 (e : Z) : R := powerRZ 2 e.

(** The real number that a finite binary number stands for: its
    mantissa times [2^e], with its sign. *)
Definition value (x : spec_float) : R :=
  match x with
  | S754_finite s m e => (IZR (cond_Zopp s (Z.pos m)) * pow2 e)%R
  | _ => 0%R
  end.

(** [a] is [A] up to the relative error [delta]. *)
Definition approx (delta A a : R) : Prop :=
  (A * (1 - delta) <= a <= A * (1 + delta))%R.

(** A positive normal binary64 number of binary exponent [E]: its value
    lies in [[2^(E-1), 2^E)]. *)
Definition pnormal (x : double) (E : Z) : Prop :=
  exists m e, x = S754_finite false m e /\ Z.pos (digits2_pos m) = 53%Z /\
              E = (e + 53)%Z /\ (-1021 <= E <= 1024)%Z.

(** The C library's function [f] returns at [x] a binary64 number within
    the relative distance [2^-44] (256 units in the last place, or
    more) of the value [F] of the mathematical function. *)
Definition accurate (f : double -> double) (F : R -> R) (x : double) : Prop :=
  F64.valid (f x) = true /\ approx (pow2 (-44)) (F (value x)) (value (f x)).

(** ** Vectors, rays and shaders *)

(** Modelled from the spec: [math::Vec3<double>] (declared in
    [openvdb/math/Vec3.h], outside these sources): three [double] components,
    the dot product [x*x' + y*y' + z*z'] and componentwise negation. *)
Record Vec3 := { vx : double; vy : double; vz : double }.

Definition Vec3_dot (u v : Vec3) : double :=
  F64.add (F64.add (F64.mul (vx u) (vx v)) (F64.mul (vy u) (vy v)))
          (F64.mul (vz u) (vz v)).

Definition Vec3_neg (v : Vec3) : Vec3 :=
  {| vx := F64.opp (vx v); vy := F64.opp (vy v); vz := F64.opp (vz v) |}.

(** Modelled from the spec: [math::Ray<double>] (declared in
    [openvdb/math/Ray.h], outside these sources): an origin, a direction and the
    parametric interval [[t0, t1]]. *)
Record Ray := { eye : Vec3; dir : Vec3; t0 : double; t1 : double }.

Definition setDir (ray : Ray) (d : Vec3) : Ray :=
  {| eye := eye ray; dir := d; t0 := t0 ray; t1 := t1 ray |}.

(** [BaseShader]: the virtual [operator()(xyz, nml, ray)].  A shader
    holds no mutable state, so [copy()] yields the same function. *)
Definition BaseShader := Vec3 -> Vec3 -> Ray -> RGBA.t.

(** [MatteShader(c)] *)
Definition MatteShader (c : RGBA.t) : BaseShader :=
  fun _ _ _ => c.

(** [NormalShader(c)]: [mRGBA] is [c*0.5f]. *)
Definition NormalShader (c : RGBA.t) : BaseShader :=
  fun _ normal _ =>
    RGBA.mul (RGBA.scale c f32_half)
      (RGBA.rgb (F32.of_double (F64.add (vx normal) (F64.of_float F32.one)))
                (F32.of_double (F64.add (vy normal) (F64.of_float F32.one)))
                (F32.of_double (F64.add (vz normal) (F64.of_float F32.one)))).

(** [DiffuseShader(d)]: [mRGBA * math::Abs(normal.dot(ray.dir()))], the
    [double] converted to the [ValueT] of [operator*]. *)
Definition DiffuseShader (d : RGBA.t) : BaseShader :=
  fun _ normal ray =>
    RGBA.scale d (F32.of_double (F64.abs (Vec3_dot normal (dir ray)))).

(** ** The ray tracer *)

(** [BaseCamera]: the virtual [getRay(i, j, iOffset, jOffset)].  The
    film the camera points to is the state that [trace] updates; it is
    passed along explicitly. *)
Definition BaseCamera := size_t -> size_t -> double -> double -> Ray.

(** [IntersectorT]: [intersectsWS(ray, xyz, nml)], whether the ray hits
    the level set and, if so, the hit point and the normal there. *)
Definition Intersector := Ray -> option (Vec3 * Vec3).

Record LevelSetRayTracer := {
  mIsMaster : bool;
  mRand : option (list double);
  mInter : Intersector;
  mShader : BaseShader;
  mCamera : BaseCamera;
  mSubPixels : size_t }.

(** The copy constructor, run by [tbb::parallel_for] for the bodies of
    the sub-ranges: the jitter table is shared, not copied. *)
Definition LevelSetRayTracer_copy (other : LevelSetRayTracer) : LevelSetRayTracer :=
  {| mIsMaster := false;
     mRand := mRand other;
     mInter := mInter other;
     mShader := mShader other;
     mCamera := mCamera other;
     mSubPixels := mSubPixels other |}.

(** [setPixelSamples(pixelSamples, seed)].  [math::Rand01<double>] is
    declared outside these sources: [rand01 seed k] stands for the
    [k]-th number that a generator seeded with [seed] returns. *)
Definition setPixelSamples (rand01 : N -> nat -> double)
    (t : LevelSetRayTracer) (pixelSamples : size_t) (seed : N)
    : option LevelSetRayTracer :=
  if mIsMaster t && (0 <? pixelSamples) then
    let sub := pixelSamples - 1 in
    Some {| mIsMaster := mIsMaster t;
            mRand := if 0 <? sub then Some (map (rand01 seed) (seq 0 16)) else None;
            mInter := mInter t;
            mShader := mShader t;
            mCamera := mCamera t;
            mSubPixels := sub |}
  else None.

(** [LevelSetRayTracer(inter, shader, camera, pixelSamples, seed)] *)
Definition LevelSetRayTracer_ctor (rand01 : N -> nat -> double)
    (inter : Intersector) (shader : BaseShader) (camera : BaseCamera)
    (pixelSamples : size_t) (seed : N) : option LevelSetRayTracer :=
  setPixelSamples rand01
    {| mIsMaster := true; mRand := None; mInter := inter; mShader := shader;
       mCamera := camera; mSubPixels := 0 |}
    pixelSamples seed.

(** The colour of one ray: the shader's [operator()(xyz, nml, ray)] when
    [mInter.intersectsWS(ray, xyz, nml)] holds, and [bg] otherwise. *)
Definition sample (t : LevelSetRayTracer) (bg : RGBA.t) (ray : Ray) : RGBA.t :=
  match mInter t ray with
  | Some (xyz, nml) => mShader t xyz nml ray
  | None => bg
  end.

(** [frac = 1.0f / (1.0f + mSubPixels)] *)
Definition frac (t : LevelSetRayTracer) : float :=
  F32.div F32.one (F32.add F32.one (F32.of_N (mSubPixels t))).

(** One turn of the loop over sub-pixels, on the colour [c] and the
    counter [n]:
    [ray = getRay(i, j, mRand[n & 15], mRand[n+1 & 15]); c += ...; n += 2]. *)
Definition subpixel_step (t : LevelSetRayTracer) (i j : size_t) (bg : RGBA.t)
    (k : size_t) (st : RGBA.t * size_t) : option (RGBA.t * size_t) :=
  let '(c, n) := st in
  rand ← mRand t;
  u ← load rand (N.land n 15);
  v ← load rand (N.land (size_wrap (n + 1)) 15);
  let ray := mCamera t i j u v in
  Some (RGBA.add_assign c (sample t bg ray), size_wrap (n + 2)).

(** The body of the loop over [i], on the film and the counter [n]. *)
Definition trace_pixel (t : LevelSetRayTracer) (j i : size_t)
    (st : Film.t * size_t) : option (Film.t * size_t) :=
  let '(film, n) := st in
  bg ← Film.pixel film i j;
  let ray := mCamera t i j F64.half F64.half in
  st' ← for_range 0 (mSubPixels t) (subpixel_step t i j bg) (sample t bg ray, n);
  film' ← Film.set_pixel film i j (RGBA.scale st'.1 (frac t));
  Some (film', st'.2).

(** [operator()(range)]: the rows [range.begin() <= j < range.end()]. *)
Definition run (t : LevelSetRayTracer) (range : size_t * size_t) (film : Film.t)
    : option Film.t :=
  st ← for_range range.1 range.2 (fun j st =>
          for_range 0 (Film.width film) (trace_pixel t j) st) (film, 0);
  Some st.1.

(** [tbb::parallel_for(range, *this)]: the range [0, height) is split
    into sub-ranges and a copy of the tracer is run on each.  Threads
    are not part of the embedding: [schedule] lists the sub-ranges in an
    order in which their executions take effect. *)
Fixpoint parallel_for (t : LevelSetRayTracer) (schedule : list (size_t * size_t))
    (film : Film.t) : option Film.t :=
  match schedule with
  | [] => Some film
  | range :: rest =>
      film' ← run (LevelSetRayTracer_copy t) range film;
      parallel_for t rest film'
  end.

(** [trace(threaded)] *)
Definition trace (t : LevelSetRayTracer) (threaded : bool)
    (schedule : list (size_t * size_t)) (film : Film.t) : option Film.t :=
  if threaded then parallel_for t schedule film
  else run t (0, Film.height film) film.

(** *** What one pixel receives *)

(** The jitter offset [mRand[n & 15]]. *)
Definition jitter (t : LevelSetRayTracer) (n : N) : double :=
  nth (N.to_nat (n mod 16)) (default [] (mRand t)) F64.zero.

(** The rays of the [k] sub-pixels of pixel [(i, j)] when the counter
    stands at [n]. *)
Fixpoint jitter_rays (t : LevelSetRayTracer) (i j : size_t) (k : nat) (n : N)
    : list Ray :=
  match k with
  | O => []
  | S k' => mCamera t i j (jitter t n) (jitter t (n + 1))
            :: jitter_rays t i j k' (n + 2)
  end.

(** All rays of pixel [(i, j)]: the primary ray through the pixel
    centre, then the jittered ones. *)
Definition pixel_rays (t : LevelSetRayTracer) (i j : size_t) (n : N) : list Ray :=
  mCamera t i j F64.half F64.half
  :: jitter_rays t i j (N.to_nat (mSubPixels t)) n.

(** The colour written to pixel [(i, j)] that held [bg], the counter
    standing at [n]. *)
Definition shaded (t : LevelSetRayTracer) (i j : size_t) (bg : RGBA.t) (n : N)
    : RGBA.t :=
  RGBA.scale
    (fold_left RGBA.add_assign
       (map (sample t bg) (jitter_rays t i j (N.to_nat (mSubPixels t)) n))
       (sample t bg (mCamera t i j F64.half F64.half)))
    (frac t).

(** The jitter table is there when it is needed, as [setPixelSamples]
    leaves it. *)
Definition jitter_ok (t : LevelSetRayTracer) : Prop :=
  mSubPixels t < 2 ^ 64 /\
  (mSubPixels t = 0 \/ exists rand, mRand t = Some rand /\ length rand = 16%nat).

(** *** What a run over a range of rows does *)

(** The value of the counter [n] when a run that started at row [j0]
    reaches pixel [(i, j)] of a film of width [W]. *)
Definition counter_at (t : LevelSetRayTracer) (W j0 i j : N) : N :=
  2 * mSubPixels t * ((j - j0) * W + i).

(** *** What a parallel run does *)

(** The sub-range of the schedule that row [j] belongs to. *)
Definition owner (schedule : list (size_t * size_t)) (j : size_t)
    : option (size_t * size_t) :=
  List.find (fun r => (r.1 <=? j) && (j <? r.2)) schedule.

Definition disjoint_ranges (r r' : size_t * size_t) : Prop :=
  r.2 <= r'.1 \/ r'.2 <= r.1.

(** The sub-ranges lie inside [0, height) and no two of them share a row. *)
Fixpoint schedule_ok (height : size_t) (schedule : list (size_t * size_t)) : Prop :=
  match schedule with
  | [] => True
  | r :: rest =>
      r.1 <= r.2 /\ r.2 <= height /\ Forall (disjoint_ranges r) rest /\
      schedule_ok height rest
  end.

(** ** A small scene *)

(** [0.25] and [0.75] *)
Definition f64_quarter : double := S754_finite false 4503599627370496 (-54).
Definition f64_three_quarters : double := S754_finite false 6755399441055744 (-53).

(** An orthographic camera that looks down the negative z axis, one
    world unit per pixel. *)
Definition grid_camera : BaseCamera :=
  fun i j iOffset jOffset =>
    {| eye := {| vx := F64.add (F64.of_N i) iOffset;
                 vy := F64.add (F64.of_N j) jOffset;
                 vz := F64.zero |};
       dir := {| vx := F64.zero; vy := F64.zero; vz := F64.opp F64.one |};
       t0 := F64.zero;
       t1 := F64.add F64.one F64.one |}.

(** A surface at depth [z = -1] that covers the half-plane [x < 0.5]. *)
Definition half_plane : Intersector :=
  fun ray =>
    if F64.ltb (vx (eye ray)) F64.half
    then Some ({| vx := vx (eye ray); vy := vy (eye ray); vz := F64.opp F64.one |},
               {| vx := F64.zero; vy := F64.zero; vz := F64.one |})
    else None.

(** A generator that returns 0.25, 0.25, 0.75, 0.75, 0.25, ... *)
Definition two_level_rand01 : N -> nat -> double :=
  fun _ k => if Nat.even (k / 2) then f64_quarter else f64_three_quarters.

(** The tracer of that scene with a white matte shader, for one and
    for two samples per pixel. *)
Definition scene_tracer_1 : LevelSetRayTracer :=
  {| mIsMaster := true; mRand := None; mInter := half_plane;
     mShader := MatteShader (RGBA.gray F32.one); mCamera := grid_camera;
     mSubPixels := 0 |}.

Definition scene_tracer_2 : LevelSetRayTracer :=
  {| mIsMaster := true; mRand := Some (map (two_level_rand01 0) (seq 0 16));
     mInter := half_plane;
     mShader := MatteShader (RGBA.gray F32.one); mCamera := grid_camera;
     mSubPixels := 1 |}.

(** *** Schedules of a threaded trace *)

(** Every row belongs to a sub-range of the schedule. *)
Definition schedule_covers (height : size_t) (schedule : list (size_t * size_t)) : Prop :=
  forall j, j < height -> owner schedule j <> None.

(** Every sub-range starts at a row where the counter [n] of an
    unthreaded run is a multiple of 16. *)
Definition schedule_aligned (t : LevelSetRayTracer) (width : size_t)
    (schedule : list (size_t * size_t)) : Prop :=
  Forall (fun r => (2 * mSubPixels t * width * r.1) mod 16 = 0) schedule.

(** *** Averages *)

(** The sum of one channel over the samples, in the order in which they
    are taken. *)
Definition channel_sum (ch : RGBA.t -> float) (samples : list RGBA.t) : float :=
  match samples with
  | [] => F32.zero
  | s :: rest => fold_left (fun acc x => F32.add acc (ch x)) rest (ch s)
  end.

(** The equal-weight average of the samples, every one of the four
    channels weighted by [w]. *)
Definition average (w : float) (samples : list RGBA.t) : RGBA.t :=
  RGBA.mk (F32.mul (channel_sum RGBA.r samples) w)
          (F32.mul (channel_sum RGBA.g samples) w)
          (F32.mul (channel_sum RGBA.b samples) w)
          (F32.mul (channel_sum RGBA.a samples) w).

(** *** The free function [rayTrace] *)

(** [rayTrace(grid, inter, shader, camera, pixelSamples, seed, threaded)]:
    a tracer is constructed and [trace(threaded)] is called on it. *)
Definition rayTrace (rand01 : N -> nat -> double) (inter : Intersector)
    (shader : BaseShader) (camera : BaseCamera) (pixelSamples : size_t)
    (seed : N) (threaded : bool) (schedule : list (size_t * size_t))
    (film : Film.t) : option Film.t :=
  tracer ← LevelSetRayTracer_ctor rand01 inter shader camera pixelSamples seed;
  trace tracer threaded schedule film.

(** * Properties *)

(** ** Machine integers and IEEE-754 arithmetic *)

Lemma size_wrap_small n : n < 2 ^ 64 -> size_wrap n = n.
Proof. apply N.mod_small. Qed.

(** The test [lo <= j && j < hi] of a row against a range. *)
Lemma in_range_true (lo hi j : N) :
  lo <= j -> j < hi -> (lo <=? j) && (j <? hi) = true.
Proof.
  intros H1 H2. apply andb_true_intro. split; [now apply N.leb_le | now apply N.ltb_lt].
Qed.

(** [n & 15] on a [size_t]. *)
Lemma land_15_mod n : N.land n 15 = n mod 16.
Proof. change 15 with (N.ones 4). now rewrite N.land_ones. Qed.

Lemma size_wrap_mod_16 n : size_wrap n mod 16 = n mod 16.
Proof.
  unfold size_wrap. change (2 ^ 64) with (16 * 2 ^ 60).
  rewrite N.Div0.mod_mul_r. rewrite N.mul_comm, N.Div0.mod_add.
  now rewrite N.Div0.mod_mod.
Qed.

Example F32_one_is_1 : F32.of_N 1 = F32.one.
Proof. reflexivity. Qed.

Example F32_c255_is_255 : F32.of_N 255 = F32.c255.
Proof. reflexivity. Qed.

Example F64_half_is_half : F64.add F64.half F64.half = F64.one.
Proof. reflexivity. Qed.

(** *** Rounding facts *)

Lemma iter_pos_iter {A} (f : A -> A) n x :
  SpecFloat.iter_pos f n x = Pos.iter f x n.
Proof.
  revert x. induction n as [n IH|n IH|]; intros x;
    cbn [SpecFloat.iter_pos Pos.iter].
  - rewrite !IH. now rewrite <- !Pos.iter_swap.
  - now rewrite !IH.
  - reflexivity.
Qed.

Lemma digits2_pos_shift m k :
  Z.pos (digits2_pos (Pos.iter xO m k)) = (Z.pos (digits2_pos m) + Z.pos k)%Z.
Proof.
  induction k using Pos.peano_ind.
  - simpl. lia.
  - rewrite Pos.iter_succ. cbn [digits2_pos]. lia.
Qed.

Lemma iter_shr_1_shift m k :
  SpecFloat.iter_pos shr_1 k
    (Build_shr_record (Z.pos (Pos.iter xO m k)) false false)
  = Build_shr_record (Z.pos m) false false.
Proof.
  rewrite iter_pos_iter.
  induction k using Pos.peano_ind.
  - reflexivity.
  - rewrite Pos.iter_succ_r, Pos.iter_succ. exact IHk.
Qed.

Lemma shr_fexp_canonical prec emax m e :
  canonical_mantissa prec emax m e = true ->
  shr_fexp prec emax (Z.pos m) e loc_Exact
  = (Build_shr_record (Z.pos m) false false, e).
Proof.
  unfold canonical_mantissa, shr_fexp. intros H%Z.eqb_eq.
  cbn [Zdigits2]. rewrite H, Z.sub_diag. reflexivity.
Qed.

(** A mantissa that carries [k] extra low zero bits is rounded exactly. *)
Lemma binary_round_aux_shift prec emax s m e k :
  SpecFloat.bounded prec emax m e = true ->
  binary_round_aux prec emax s (Z.pos (Pos.iter xO m k)) (e - Z.pos k) loc_Exact
  = S754_finite s m e.
Proof.
  intros Hb. pose proof Hb as [Hc He]%andb_prop.
  assert (Hs : shr_fexp prec emax (Z.pos (Pos.iter xO m k)) (e - Z.pos k) loc_Exact
               = (Build_shr_record (Z.pos m) false false, e)).
  { unfold shr_fexp. cbn [Zdigits2]. rewrite digits2_pos_shift.
    unfold canonical_mantissa in Hc. apply Z.eqb_eq in Hc.
    replace (Z.pos (digits2_pos m) + Z.pos k + (e - Z.pos k))%Z
      with (Z.pos (digits2_pos m) + e)%Z by lia.
    rewrite Hc. replace (e - (e - Z.pos k))%Z with (Z.pos k) by lia.
    cbn [shr shr_record_of_loc]. rewrite iter_shr_1_shift. f_equal. lia. }
  unfold binary_round_aux. rewrite Hs.
  cbn [shr_m loc_of_shr_record round_nearest_even].
  rewrite (shr_fexp_canonical _ _ _ _ Hc). cbn [shr_m]. now rewrite He.
Qed.

(** Multiplying by [1.0f] is exact. *)
Lemma F32_mul_one_r x : F32.valid x = true -> F32.mul x F32.one = x.
Proof.
  destruct x as [s|s| |s m e]; cbn; intros H.
  - now rewrite xorb_false_r.
  - now rewrite xorb_false_r.
  - reflexivity.
  - rewrite xorb_false_r, Pos.mul_comm.
    change (8388608 * m)%positive with (Pos.iter xO m 23).
    change (e + -23)%Z with (e - Z.pos 23)%Z.
    now apply binary_round_aux_shift.
Qed.

Lemma F32_mul_one_l x : F32.valid x = true -> F32.mul F32.one x = x.
Proof.
  destruct x as [s|s| |s m e]; cbn; intros H; try reflexivity.
  change (8388608 * m)%positive with (Pos.iter xO m 23).
  replace (-23 + e)%Z with (e - Z.pos 23)%Z by lia.
  now apply binary_round_aux_shift.
Qed.

Lemma store_Some {A} (arr : list A) i v :
  i < N.of_nat (length arr) -> store arr i v = Some (<[N.to_nat i := v]> arr).
Proof. intros H. unfold store. now rewrite decide_True. Qed.

Lemma load_insert_eq {A} (arr : list A) i v :
  i < N.of_nat (length arr) -> load (<[N.to_nat i := v]> arr) i = Some v.
Proof. intros H. unfold load. apply list_lookup_insert_eq. lia. Qed.

Lemma load_insert_ne {A} (arr : list A) i j v :
  i <> j -> load (<[N.to_nat i := v]> arr) j = load arr j.
Proof. intros H. unfold load. apply list_lookup_insert_ne. lia. Qed.

Lemma load_is_Some {A} (arr : list A) i :
  i < N.of_nat (length arr) -> exists v, load arr i = Some v.
Proof.
  intros H. unfold load. apply lookup_lt_is_Some_2. lia.
Qed.

Lemma for_loop_inv {St} (Inv : size_t -> St -> Prop) body fuel lo (s : St) :
  Inv lo s ->
  (forall i s, lo <= i < lo + N.of_nat fuel -> Inv i s ->
     exists s', body i s = Some s' /\ Inv (N.succ i) s') ->
  exists s', for_loop fuel lo body s = Some s' /\ Inv (lo + N.of_nat fuel) s'.
Proof.
  revert lo s. induction fuel as [|fuel IH]; intros lo s Hinit Hstep.
  - exists s. split; [reflexivity|]. now replace (lo + N.of_nat 0) with lo by lia.
  - destruct (Hstep lo s) as (s1 & Hb & H1); [lia|assumption|].
    destruct (IH (N.succ lo) s1 H1) as (s2 & Hl & H2).
    { intros i s0 Hi. apply Hstep. lia. }
    exists s2. split.
    + cbn [for_loop]. rewrite Hb. exact Hl.
    + now replace (lo + N.of_nat (S fuel)) with (N.succ lo + N.of_nat fuel) by lia.
Qed.

Lemma for_range_inv {St} (Inv : size_t -> St -> Prop) body lo hi (s : St) :
  lo <= hi ->
  Inv lo s ->
  (forall i s, lo <= i < hi -> Inv i s ->
     exists s', body i s = Some s' /\ Inv (N.succ i) s') ->
  exists s', for_range lo hi body s = Some s' /\ Inv hi s'.
Proof.
  intros Hle Hinit Hstep. unfold for_range.
  destruct (for_loop_inv Inv body (N.to_nat (hi - lo)) lo s Hinit) as (s' & H1 & H2).
  { intros i s0 Hi. apply Hstep. lia. }
  exists s'. split; [exact H1|].
  now replace (lo + N.of_nat (N.to_nat (hi - lo))) with hi in H2 by lia.
Qed.

(** *** Filling and construction *)

Lemma replicate_of_loads {A} (l : list A) (c : A) :
  (forall k, k < N.of_nat (length l) -> load l k = Some c) ->
  l = replicate (length l) c.
Proof.
  intros H. symmetry. apply replicate_as_Forall. split; [reflexivity|].
  apply Forall_lookup. intros i x Hi.
  assert (Hlt : (i < length l)%nat) by (apply lookup_lt_is_Some; eauto).
  specialize (H (N.of_nat i)). unfold load in H.
  rewrite Nat2N.id, Hi in H. injection H; [congruence | lia].
Qed.

Lemma fill_spec (f : Film.t) (c : RGBA.t) :
  N.of_nat (length (Film.mPixels f)) = Film.mSize f ->
  Film.fill f c
  = Some (Film.with_pixels f (replicate (length (Film.mPixels f)) c)).
Proof.
  intros Hlen. unfold Film.fill.
  destruct (for_range_inv
              (fun i px => length px = length (Film.mPixels f) /\
                           forall k, k < i -> load px k = Some c)
              (fun i px => store px i c) 0 (Film.mSize f) (Film.mPixels f))
    as (px & Hrun & Hl & Hall).
  - lia.
  - split; [reflexivity | intros k Hk; lia].
  - intros i px Hi [Hl Hall]. rewrite store_Some by lia.
    eexists. split; [reflexivity|]. split.
    + now rewrite length_insert.
    + intros k Hk. destruct (decide (k = i)) as [->|Hne].
      * apply load_insert_eq. lia.
      * rewrite load_insert_ne by congruence. apply Hall. lia.
  - rewrite Hrun. cbn. do 2 f_equal. rewrite <- Hl.
    apply replicate_of_loads. intros k Hk. apply Hall. lia.
Qed.

Lemma create_pixels_length w h :
  N.of_nat (length (Film.mPixels (Film.create w h))) = Film.mSize (Film.create w h).
Proof. cbn. rewrite length_replicate. lia. Qed.

Lemma create_bg_spec w h bg :
  Film.create_bg w h bg
  = Some (Film.mk w h (size_wrap (w * h))
            (replicate (N.to_nat (size_wrap (w * h))) bg)).
Proof.
  unfold Film.create_bg. rewrite fill_spec by apply create_pixels_length.
  cbn. now rewrite length_replicate.
Qed.

Lemma create_wf w h : w * h < 2 ^ 64 -> Film.wf (Film.create w h).
Proof.
  intros H. unfold Film.wf. cbn. rewrite length_replicate.
  rewrite size_wrap_small by assumption. lia.
Qed.

(** *** Pixel addressing *)

Lemma offset_small (f : Film.t) w h :
  Film.wf f -> w < Film.mWidth f -> h < Film.mHeight f ->
  Film.offset f w h = w + h * Film.mWidth f /\
  w + h * Film.mWidth f < Film.mSize f.
Proof.
  intros (Hfit & Hsz & _) Hw Hh. unfold Film.offset.
  assert (w + h * Film.mWidth f < Film.mWidth f * Film.mHeight f) by nia.
  rewrite (size_wrap_small (h * _)) by nia.
  rewrite size_wrap_small by lia. lia.
Qed.

Lemma pixel_load (f : Film.t) w h :
  Film.wf f -> w < Film.mWidth f -> h < Film.mHeight f ->
  Film.pixel f w h = load (Film.mPixels f) (w + h * Film.mWidth f).
Proof.
  intros Hwf Hw Hh. unfold Film.pixel.
  destruct (offset_small f w h Hwf Hw Hh) as [-> _].
  apply N.ltb_lt in Hw, Hh. now rewrite Hw, Hh.
Qed.

(** Distinct pixels have distinct indices. *)
Lemma index_row_lt (W i i' j j' : N) :
  i < W -> i' < W -> j' < j -> i' + j' * W < i + j * W.
Proof. nia. Qed.

Lemma index_inj (W i i' j j' : N) :
  i < W -> i' < W -> i + j * W = i' + j' * W -> i = i' /\ j = j'.
Proof.
  intros Hi Hi' Heq.
  destruct (N.lt_trichotomy j j') as [Hlt|[->|Hlt]].
  - pose proof (index_row_lt W i' i j' j Hi' Hi Hlt). lia.
  - lia.
  - pose proof (index_row_lt W i i' j j' Hi Hi' Hlt). lia.
Qed.

Lemma checkerboard_spec (f : Film.t) (c1 c2 : RGBA.t) (size : size_t) :
  Film.wf f ->
  exists f', Film.checkerboard f c1 c2 size = Some f' /\
    Film.wf f' /\
    Film.mWidth f' = Film.mWidth f /\ Film.mHeight f' = Film.mHeight f /\
    forall i j, i < Film.mWidth f -> j < Film.mHeight f ->
      Film.pixel f' i j = Some (checker c1 c2 size i j).
Proof.
  intros Hwf. pose proof Hwf as (Hfit & Hsz & Hlen).
  set (W := Film.mWidth f) in *. set (H := Film.mHeight f) in *.
  set (px0 := Film.mPixels f) in *.
  pose (Done := fun (j i : N) (px : list RGBA.t) =>
    length px = length px0 /\
    forall i' j', i' < W -> (j' < j \/ (j' = j /\ i' < i)) ->
      load px (i' + j' * W) = Some (checker c1 c2 size i' j')).
  unfold Film.checkerboard. fold W H px0.
  destruct (for_range_inv
              (fun j (st : list RGBA.t * N) => st.2 = j * W /\ Done j 0 st.1)
              (fun j st =>
                 for_range 0 W (fun i st =>
                   let '(px, p) := st in
                   px' ← store px p
                           (if N.eqb (N.lxor (N.land i size) (N.land j size)) 0
                            then c2 else c1);
                   Some (px', N.succ p)) st)
              0 H (px0, 0)) as (st & Hrun & Hp & Hl & Hall).
  - lia.
  - cbn. split; [lia|]. split; [reflexivity|]. intros i' j' _ [?|[_ ?]]; lia.
  - intros j st Hj [Hp HD].
    destruct (for_range_inv
                (fun i (st : list RGBA.t * N) => st.2 = j * W + i /\ Done j i st.1)
                (fun i st =>
                   let '(px, p) := st in
                   px' ← store px p
                           (if N.eqb (N.lxor (N.land i size) (N.land j size)) 0
                            then c2 else c1);
                   Some (px', N.succ p))
                0 W st) as (st' & Hrun' & Hp' & HD').
    + lia.
    + split; [lia | exact HD].
    + intros i [px p] Hi [Hq [Hl Hall]]. cbn in Hq, Hl, Hall. subst p.
      assert (Hin : j * W + i < N.of_nat (length px)) by (rewrite Hl; nia).
      rewrite store_Some by exact Hin. cbn.
      eexists. split; [reflexivity|]. cbn. split; [lia|]. split.
      * now rewrite length_insert.
      * intros i' j' Hi' Hcase.
        destruct (decide (i' = i /\ j' = j)) as [[-> ->]|Hne].
        -- replace (i + j * W) with (j * W + i) by lia.
           now rewrite load_insert_eq.
        -- rewrite load_insert_ne.
           ++ apply Hall; [assumption | lia].
           ++ intros Heq. apply Hne.
              apply (index_inj W i' i j' j); [assumption | lia | lia].
    + exists st'. split; [exact Hrun'|]. split; [lia|].
      destruct HD' as [Hl' Hall']. split; [exact Hl'|].
      intros i' j' Hi' Hcase. apply Hall'; [assumption | lia].
  - rewrite Hrun. cbn. eexists. split; [reflexivity|].
    assert (Hwf' : Film.wf (Film.with_pixels f st.1)).
    { unfold Film.wf. cbn. rewrite Hl. auto. }
    split; [exact Hwf'|]. split; [reflexivity|]. split; [reflexivity|].
    intros i j Hi Hj. rewrite pixel_load by assumption. cbn.
    apply Hall; [assumption | lia].
Qed.

Example f32_quarter_ok : F32.div F32.one (F32.of_N 4) = f32_quarter.
Proof. reflexivity. Qed.
Example f32_half_ok : F32.div F32.one (F32.of_N 2) = f32_half.
Proof. reflexivity. Qed.
Example f32_0_3_ok : F32.div (F32.of_N 3) (F32.of_N 10) = f32_0_3.
Proof. reflexivity. Qed.
Example f32_0_6_ok : F32.div (F32.of_N 6) (F32.of_N 10) = f32_0_6.
Proof. reflexivity. Qed.

(** ** C4: construction of a film *)

(** C4 (as the code has it): the [Film] constructors validate nothing
    and never fail with [InvalidArgument].  Whenever [width * height] is
    below [2^60], so that the request of 16 bytes per pixel fits a
    [size_t], and the heap grants that request, the call returns a film
    of exactly [width * height] pixels, every one of them [RGBA()] (or
    the given background); with a zero dimension that is a film of no
    pixels.  When [new RGBA[mSize]] does not obtain its storage,
    [std::bad_alloc] leaves the constructor and there is no film. *)
Theorem Film_ctor_returns (heap : size_t -> bool) (width height : size_t)
    (bg : RGBA.t) :
  (Film_ctor heap width height <> Throws InvalidArgument /\
   Film_ctor_bg heap width height bg <> Throws InvalidArgument) /\
  (width * height < 2 ^ 60 ->
   heap (width * height * 16) = true ->
   Film_ctor heap width height
   = Returns (Film.mk width height (width * height)
                (replicate (N.to_nat (width * height)) RGBA.black)) /\
   Film_ctor_bg heap width height bg
   = Returns (Film.mk width height (width * height)
                (replicate (N.to_nat (width * height)) bg)) /\
   Film.wf (Film.create width height)) /\
  (new_RGBA_array heap (size_wrap (width * height)) = false ->
   Film_ctor heap width height = Throws bad_alloc /\
   Film_ctor_bg heap width height bg = Throws bad_alloc).
Proof.
  unfold Film_ctor, Film_ctor_bg. split; [|split].
  - destruct (new_RGBA_array heap _); [|split; discriminate].
    split; [discriminate|].
    destruct (Film.create_bg width height bg); discriminate.
  - intros Hfit Hheap.
    assert (Hw : size_wrap (width * height) = width * height)
      by (apply size_wrap_small; lia).
    assert (Hnew : new_RGBA_array heap (width * height) = true).
    { unfold new_RGBA_array, sizeof_RGBA. rewrite Hheap, andb_true_r.
      apply N.ltb_lt. lia. }
    rewrite Hw, Hnew. split; [|split].
    + unfold Film.create. now rewrite Hw.
    + rewrite create_bg_spec. cbn. now rewrite Hw.
    + apply create_wf. lia.
  - intros ->. split; reflexivity.
Qed.

Lemma Film_ctor_returns_witness :
  (Film_ctor heap_4GiB 2 1 <> Throws InvalidArgument /\
   Film_ctor_bg heap_4GiB 2 1 (RGBA.gray f32_half) <> Throws InvalidArgument) /\
  (Film_ctor heap_4GiB 2 1
   = Returns (Film.mk 2 1 2 [RGBA.black; RGBA.black]) /\
   Film_ctor_bg heap_4GiB 2 1 (RGBA.gray f32_half)
   = Returns (Film.mk 2 1 2 [RGBA.gray f32_half; RGBA.gray f32_half]) /\
   Film.wf (Film.create 2 1)) /\
  (Film_ctor heap_4GiB (2 ^ 20) (2 ^ 20) = Throws bad_alloc /\
   Film_ctor_bg heap_4GiB (2 ^ 20) (2 ^ 20) (RGBA.gray f32_half)
   = Throws bad_alloc).
Proof.
  split; [|split].
  - apply (Film_ctor_returns heap_4GiB 2 1 (RGBA.gray f32_half)).
  - apply (Film_ctor_returns heap_4GiB 2 1 (RGBA.gray f32_half)); reflexivity.
  - apply (Film_ctor_returns heap_4GiB (2 ^ 20) (2 ^ 20) (RGBA.gray f32_half)).
    reflexivity.
Defined.

(** C4 fails as stated: on a machine whose heap grants the small
    requests, a zero dimension and an overflowing product both construct
    a film (the second one with [2^32 * 2^32] nominal pixels and an
    empty array) instead of failing with [InvalidArgument]. *)
Lemma Film_ctor_no_InvalidArgument :
  Film_ctor heap_4GiB 0 7 = Returns (Film.mk 0 7 0 []) /\
  Film_ctor heap_4GiB 0 7 <> Throws InvalidArgument /\
  Film_ctor heap_4GiB (2 ^ 32) (2 ^ 32)
  = Returns (Film.mk (2 ^ 32) (2 ^ 32) 0 []) /\
  Film_ctor heap_4GiB (2 ^ 32) (2 ^ 32) <> Throws InvalidArgument.
Proof. repeat split; (reflexivity || discriminate). Qed.

(** ** C9: the checkerboard *)



(** ** C6: compositing over an opaque colour *)

Lemma over_channel_opaque (x ta y : float) :
  F32.valid x = true -> is_finite ta = true -> is_finite y = true ->
  kept x (F32.add (F32.mul F32.one x)
            (F32.mul (F32.mul ta (F32.sub F32.one F32.one)) y)).
Proof.
  intros Hx Hta Hy. rewrite F32_mul_one_l by assumption.
  change (F32.sub F32.one F32.one) with (S754_zero false).
  assert (Hs : exists s, F32.mul (F32.mul ta (S754_zero false)) y = S754_zero s).
  { destruct ta; try discriminate; destruct y; try discriminate; cbn; eauto. }
  destruct Hs as [s ->].
  destruct x as [[|]| | |]; destruct s; cbn; unfold kept; auto.
Qed.

(** C6 (as the code has it): when the accumulator [*this] is opaque
    ([a = 1.0f]) and the channels of the colour composited onto it are
    finite numbers, [over] leaves the accumulator unchanged: alpha stays
    [1.0f] and every colour channel keeps its value (a channel holding
    [-0] may come out as [+0]). *)
Theorem over_opaque_bottom (bottom top : RGBA.t) :
  RGBA.a bottom = F32.one ->
  RGBA.valid bottom = true ->
  RGBA.finite top = true ->
  kept (RGBA.r bottom) (RGBA.r (RGBA.over bottom top)) /\
  kept (RGBA.g bottom) (RGBA.g (RGBA.over bottom top)) /\
  kept (RGBA.b bottom) (RGBA.b (RGBA.over bottom top)) /\
  RGBA.a (RGBA.over bottom top) = RGBA.a bottom.
Proof.
  destruct bottom as [br bg bb ba], top as [tr tg tb ta]. cbn.
  intros -> Hv Hf. unfold RGBA.valid, RGBA.finite in Hv, Hf. cbn in Hv, Hf.
  repeat (apply andb_prop in Hv as [Hv ?]).
  repeat (apply andb_prop in Hf as [Hf ?]).
  repeat split; try (apply over_channel_opaque; assumption).
  change (F32.sub F32.one F32.one) with (S754_zero false).
  destruct ta; try discriminate; reflexivity.
Qed.

Lemma over_opaque_bottom_witness :
  let bottom := RGBA.mk f32_quarter f32_half F32.zero F32.one in
  let top := RGBA.mk F32.one f32_0_3 f32_0_6 f32_half in
  kept (RGBA.r bottom) (RGBA.r (RGBA.over bottom top)) /\
  kept (RGBA.g bottom) (RGBA.g (RGBA.over bottom top)) /\
  kept (RGBA.b bottom) (RGBA.b (RGBA.over bottom top)) /\
  RGBA.a (RGBA.over bottom top) = RGBA.a bottom.
Proof.
  apply (over_opaque_bottom
           (RGBA.mk f32_quarter f32_half F32.zero F32.one)
           (RGBA.mk F32.one f32_0_3 f32_0_6 f32_half)); reflexivity.
Defined.

(** C6 fails as stated, for every top colour: onto an opaque grey a
    colour whose red channel is infinite is composited; [s] is 0, the
    product [s * rhs.r] is [0 * inf], a NaN, and the red channel of the
    accumulator is lost. *)
Lemma over_opaque_bottom_infinite_top :
  let bottom := RGBA.gray f32_half in
  let top := RGBA.mk (S754_infinity false) F32.zero F32.zero F32.one in
  RGBA.a bottom = F32.one /\
  RGBA.r (RGBA.over bottom top) = S754_nan /\
  ~ kept (RGBA.r bottom) (RGBA.r (RGBA.over bottom top)) /\
  RGBA.over bottom top <> bottom.
Proof.
  cbv zeta. split; [reflexivity|]. split; [reflexivity|]. split.
  - intros [H | [H _]]; discriminate.
  - discriminate.
Qed.

(** When no colour channel of the accumulator is a negative zero, the
    accumulator comes out bit for bit as it was. *)
Lemma over_opaque_bottom_exact (bottom top : RGBA.t) :
  RGBA.a bottom = F32.one ->
  RGBA.valid bottom = true ->
  RGBA.finite top = true ->
  RGBA.r bottom <> S754_zero true ->
  RGBA.g bottom <> S754_zero true ->
  RGBA.b bottom <> S754_zero true ->
  RGBA.over bottom top = bottom.
Proof.
  destruct bottom as [br bg bb ba], top as [tr tg tb ta]. cbn.
  intros -> Hv Hf Hr Hg Hb. unfold RGBA.valid, RGBA.finite in Hv, Hf. cbn in Hv, Hf.
  repeat (apply andb_prop in Hv as [Hv ?]).
  repeat (apply andb_prop in Hf as [Hf ?]).
  unfold RGBA.over. cbn [RGBA.r RGBA.g RGBA.b RGBA.a].
  destruct (over_channel_opaque br ta tr) as [-> | [? _]];
    [assumption | assumption | assumption | | contradiction].
  destruct (over_channel_opaque bg ta tg) as [-> | [? _]];
    [assumption | assumption | assumption | | contradiction].
  destruct (over_channel_opaque bb ta tb) as [-> | [? _]];
    [assumption | assumption | assumption | | contradiction].
  f_equal. change (F32.sub F32.one F32.one) with (S754_zero false).
  destruct ta; try discriminate; reflexivity.
Qed.

(** ** C3: PPM export *)

(** Where the conversion of the source is defined, it yields the
    clamped floor. *)
Lemma to_uchar_spec (v : float) (b : Byte.byte) :
  to_uchar (F32.mul F32.c255 v) = Some b -> spec_channel_byte v = Some b.
Proof.
  unfold spec_channel_byte, to_uchar.
  destruct (F32.mul F32.c255 v) as [s|s| |s m e]; cbn; try discriminate.
  - intros H. exact H.
  - pose proof (proj2 (Z.shiftl_nonneg (Z.pos m) e) ltac:(lia)) as Hmag.
    destruct s; cbn [cond_Zopp].
    + destruct (_ && _)%bool eqn:Hr; [|discriminate].
      apply andb_prop in Hr as [H0%Z.leb_le H255%Z.leb_le].
      assert (Hz : Z.shiftl (Z.pos m) e = 0%Z) by lia.
      rewrite Hz. cbn. intros <-.
      assert (Hneg : (Z.shiftl (Z.neg m) e < 0)%Z).
      { destruct (Z.shiftl_nonneg (Z.neg m) e) as [Hn _].
        destruct (Z_lt_le_dec (Z.shiftl (Z.neg m) e) 0) as [?|Hge]; [assumption|].
        specialize (Hn Hge). lia. }
      change (- Z.pos m)%Z with (Z.neg m).
      now replace (Z.max 0 (Z.min 255 (Z.shiftl (Z.neg m) e))) with 0%Z by lia.
    + destruct (_ && _)%bool eqn:Hr; [|discriminate].
      apply andb_prop in Hr as [H0%Z.leb_le H255%Z.leb_le].
      now replace (Z.max 0 (Z.min 255 (Z.shiftl (Z.pos m) e)))
        with (Z.shiftl (Z.pos m) e) by lia.
Qed.

Lemma ppm_bytes_inv (c : RGBA.t) (bs : list Byte.byte) :
  ppm_bytes c = Some bs ->
  exists r g b, bs = [r; g; b] /\
    spec_channel_byte (RGBA.r c) = Some r /\
    spec_channel_byte (RGBA.g c) = Some g /\
    spec_channel_byte (RGBA.b c) = Some b.
Proof.
  unfold ppm_bytes. intros H.
  destruct (to_uchar (F32.mul F32.c255 (RGBA.r c))) as [r|] eqn:Hr; [|discriminate].
  destruct (to_uchar (F32.mul F32.c255 (RGBA.g c))) as [g|] eqn:Hg; [|discriminate].
  destruct (to_uchar (F32.mul F32.c255 (RGBA.b c))) as [b|] eqn:Hb; [|discriminate].
  cbn in H. injection H as <-. exists r, g, b.
  auto using to_uchar_spec.
Qed.

Lemma load_app_l {A} (l1 l2 : list A) i :
  i < N.of_nat (length l1) -> load (l1 ++ l2) i = load l1 i.
Proof. intros H. unfold load. apply lookup_app_l. lia. Qed.

Lemma load_app_r {A} (l1 l2 : list A) i d :
  N.of_nat (length l1) = i -> load (l1 ++ l2) (i + d) = load l2 d.
Proof.
  intros H. unfold load. rewrite lookup_app_r by lia. f_equal. lia.
Qed.

Lemma savePPM_body (px : list RGBA.t) (size : N) :
  N.of_nat (length px) = size ->
  forallb ppm_convertible px = true ->
  exists body,
    for_range 0 size (fun k tmp =>
      c ← load px k; bs ← ppm_bytes c; Some (tmp ++ bs)) [] = Some body /\
    N.of_nat (length body) = 3 * size /\
    forall k, k < size -> exists c, load px k = Some c /\
      load body (3 * k) = spec_channel_byte (RGBA.r c) /\
      load body (3 * k + 1) = spec_channel_byte (RGBA.g c) /\
      load body (3 * k + 2) = spec_channel_byte (RGBA.b c).
Proof.
  intros Hlen Hconv.
  apply (for_range_inv
           (fun n (tmp : list Byte.byte) =>
              N.of_nat (length tmp) = 3 * n /\
              forall k, k < n -> exists c, load px k = Some c /\
                load tmp (3 * k) = spec_channel_byte (RGBA.r c) /\
                load tmp (3 * k + 1) = spec_channel_byte (RGBA.g c) /\
                load tmp (3 * k + 2) = spec_channel_byte (RGBA.b c))).
  - lia.
  - split; [reflexivity | intros k Hk; lia].
  - intros n tmp Hn [Hl Hall].
    destruct (load_is_Some px n) as [c Hc]; [lia|].
    assert (Hcv : ppm_convertible c = true).
    { rewrite forallb_forall in Hconv. apply Hconv.
      apply list_elem_of_In. unfold load in Hc. eapply list_elem_of_lookup_2, Hc. }
    unfold ppm_convertible in Hcv.
    destruct (ppm_bytes c) as [bs|] eqn:Hbs; [|discriminate].
    destruct (ppm_bytes_inv c bs Hbs) as (r & g & b & -> & Hr & Hg & Hb).
    rewrite Hc. cbn. rewrite Hbs. cbn.
    eexists. split; [reflexivity|]. split.
    + rewrite length_app. cbn [length]. lia.
    + intros k Hk. destruct (decide (k = n)) as [->|Hne].
      * exists c. split; [exact Hc|].
        rewrite <- (N.add_0_r (3 * n)) at 1.
        rewrite !(load_app_r tmp _ (3 * n)) by exact Hl.
        rewrite Hr, Hg, Hb. repeat split; reflexivity.
      * destruct (Hall k) as (c' & Hc' & H0 & H1 & H2); [lia|].
        exists c'. split; [exact Hc'|].
        rewrite !load_app_l by lia. auto.
Qed.

(** C3 (as the code has it): for a film all of whose channels are
    convertible, [savePPM] writes to [fileName + ".ppm"] the header
    [P6\n<width> <height>\n255\n] followed by [3 * width * height]
    bytes, the R, G, B bytes of the pixels in row-major order, the
    alpha dropped.  The byte of a channel [v] is the integer part of
    [255.0f * v], which on those channels is [floor(255 * v)] clamped
    to [0, 255]; the source does not clamp. *)
Theorem savePPM_writes (f : Film.t) (fileName : string) (can_open : string -> bool) :
  Film.wf f ->
  3 * Film.mSize f < 2 ^ 64 ->
  forallb ppm_convertible (Film.mPixels f) = true ->
  can_open (fileName +:+ ".ppm") = true ->
  exists body,
    Film.savePPM f fileName can_open
    = Some (Some {| file_name := fileName +:+ ".ppm";
                    file_data :=
                      String.list_byte_of_string
                        ("P6" +:+ newline +:+ decimal (Film.mWidth f) +:+ " "
                         +:+ decimal (Film.mHeight f) +:+ newline +:+ "255"
                         +:+ newline) ++ body |}) /\
    N.of_nat (length body) = 3 * Film.mWidth f * Film.mHeight f /\
    forall col row, col < Film.mWidth f -> row < Film.mHeight f ->
      exists c, Film.pixel f col row = Some c /\
        load body (3 * (col + row * Film.mWidth f)) = spec_channel_byte (RGBA.r c) /\
        load body (3 * (col + row * Film.mWidth f) + 1) = spec_channel_byte (RGBA.g c) /\
        load body (3 * (col + row * Film.mWidth f) + 2) = spec_channel_byte (RGBA.b c).
Proof.
  intros Hwf Hfit Hconv Hopen. pose proof Hwf as (_ & Hsz & Hlen).
  destruct (savePPM_body (Film.mPixels f) (Film.mSize f) Hlen Hconv)
    as (body & Hrun & Hbl & Hall).
  exists body. split; [|split].
  - unfold Film.savePPM. rewrite decide_True by assumption.
    rewrite Hrun. cbn. now rewrite Hopen.
  - lia.
  - intros col row Hc Hr. rewrite pixel_load by assumption.
    apply Hall. destruct (offset_small f col row Hwf Hc Hr) as [_ Hlt]. exact Hlt.
Qed.

Example to_uchar_half : to_uchar (F32.mul F32.c255 f32_half) = Some Byte.x7f.
Proof. reflexivity. Qed.

Example savePPM_2x1 :
  Film.savePPM film_2x1 "img" (fun _ => true)
  = Some (Some {| file_name := "img.ppm";
                  file_data :=
                    String.list_byte_of_string
                      ("P6" +:+ newline +:+ "2 1" +:+ newline +:+ "255" +:+ newline)
                    ++ [Byte.xff; Byte.x00; Byte.x00; Byte.x00; Byte.xff; Byte.x00] |}).
Proof. reflexivity. Qed.

Lemma savePPM_writes_witness :
  exists body,
    Film.savePPM film_2x1 "img" (fun _ => true)
    = Some (Some {| file_name := "img" +:+ ".ppm";
                    file_data :=
                      String.list_byte_of_string
                        ("P6" +:+ newline +:+ decimal (Film.mWidth film_2x1) +:+ " "
                         +:+ decimal (Film.mHeight film_2x1) +:+ newline +:+ "255"
                         +:+ newline) ++ body |}) /\
    N.of_nat (length body) = 3 * Film.mWidth film_2x1 * Film.mHeight film_2x1 /\
    forall col row, col < Film.mWidth film_2x1 -> row < Film.mHeight film_2x1 ->
      exists c, Film.pixel film_2x1 col row = Some c /\
        load body (3 * (col + row * Film.mWidth film_2x1)) = spec_channel_byte (RGBA.r c) /\
        load body (3 * (col + row * Film.mWidth film_2x1) + 1) = spec_channel_byte (RGBA.g c) /\
        load body (3 * (col + row * Film.mWidth film_2x1) + 2) = spec_channel_byte (RGBA.b c).
Proof.
  apply (savePPM_writes film_2x1 "img" (fun _ => true)).
  - repeat split; reflexivity.
  - reflexivity.
  - reflexivity.
  - reflexivity.
Defined.

(** C3 fails as stated: the channel value [2.0f] should be written as
    the clamped byte 255 and the value [-1.0f] as the clamped byte 0,
    but [255.0f * 2.0f = 510.0f] and [255.0f * -1.0f = -255.0f] do not
    fit an [unsigned char]: their conversion is undefined (compilers
    commonly keep the low eight bits of the integer, 254 and 1), and
    the export of a film holding such a value has no defined result. *)
Lemma savePPM_does_not_clamp :
  spec_channel_byte f32_two = Some Byte.xff /\
  to_uchar (F32.mul F32.c255 f32_two) = None /\
  spec_channel_byte (SFopp F32.one) = Some Byte.x00 /\
  to_uchar (F32.mul F32.c255 (SFopp F32.one)) = None /\
  Film.savePPM (Film.mk 1 1 1 [RGBA.rgb f32_two F32.zero F32.zero])
    "img" (fun _ => true) = None.
Proof. repeat split; reflexivity. Qed.

(** ** C7: focal length and field of view *)

(** *** Number of binary digits *)

Lemma digits2_pos_size (p : positive) : digits2_pos p = Pos.size p.
Proof. induction p as [p IH|p IH|]; cbn; now rewrite ?IH. Qed.

Lemma digits2_pos_bounds (p : positive) :
  (2 ^ (Z.pos (digits2_pos p) - 1) <= Z.pos p < 2 ^ Z.pos (digits2_pos p))%Z.
Proof.
  assert (H : Z.pos (digits2_pos p) = (Z.log2 (Z.pos p) + 1)%Z).
  { rewrite digits2_pos_size. destruct p; cbn; lia. }
  rewrite H. replace (Z.log2 (Z.pos p) + 1 - 1)%Z with (Z.log2 (Z.pos p)) by lia.
  apply Z.log2_spec. lia.
Qed.

Lemma digits2_pos_unique (p : positive) (d : Z) :
  (2 ^ (d - 1) <= Z.pos p < 2 ^ d)%Z -> Z.pos (digits2_pos p) = d.
Proof.
  intros H.
  assert (Hd : (0 < d)%Z).
  { destruct (Z.lt_ge_cases 0%Z d) as [|Hd]; [assumption|].
    assert (2 ^ d <= 1)%Z.
    { destruct (Z.eq_dec d 0%Z) as [->|]; [cbn; lia|].
      rewrite Z.pow_neg_r by lia. lia. }
    lia. }
  assert (Hl : Z.pos (digits2_pos p) = (Z.log2 (Z.pos p) + 1)%Z).
  { rewrite digits2_pos_size. destruct p; cbn; lia. }
  rewrite Hl. rewrite (Z.log2_unique (Z.pos p) (d - 1)); [lia | lia |].
  replace (Z.succ (d - 1)) with d by lia. exact H.
Qed.

(** *** Shifting right *)

Lemma shr_1_m (mrs : shr_record) :
  (0 <= shr_m mrs)%Z -> shr_m (shr_1 mrs) = (shr_m mrs / 2)%Z.
Proof.
  destruct mrs as [m r s]. cbn [shr_m]. intros H.
  destruct m as [|p|p]; [reflexivity| |lia].
  destruct p as [p|p|]; cbn [shr_1 shr_m].
  - rewrite Pos2Z.inj_xI. apply Z.div_unique with (r := 1%Z); lia.
  - rewrite Pos2Z.inj_xO. apply Z.div_unique with (r := 0%Z); lia.
  - reflexivity.
Qed.

Lemma iter_shr_1_m (k : positive) (mrs : shr_record) :
  (0 <= shr_m mrs)%Z ->
  shr_m (SpecFloat.iter_pos shr_1 k mrs) = (shr_m mrs / 2 ^ Z.pos k)%Z.
Proof.
  intros H. rewrite iter_pos_iter.
  induction k as [|k IH] using Pos.peano_ind.
  - cbn [Pos.iter]. rewrite shr_1_m by assumption. reflexivity.
  - rewrite Pos.iter_succ.
    assert (H0 : (0 <= shr_m (Pos.iter shr_1 mrs k))%Z).
    { rewrite IH. apply Z.div_pos; lia. }
    rewrite shr_1_m by assumption. rewrite IH.
    rewrite Pos2Z.inj_succ, Z.pow_succ_r by lia.
    rewrite Z.div_div by lia. f_equal. lia.
Qed.

Lemma shr_m_record_of_loc m l : shr_m (shr_record_of_loc m l) = m.
Proof. destruct l as [|[]]; reflexivity. Qed.

Lemma round_nearest_even_cases m l :
  round_nearest_even m l = m \/ round_nearest_even m l = (m + 1)%Z.
Proof.
  destruct l as [|[]]; cbn; auto. destruct (Z.even m); auto.
Qed.

Lemma shr_spec (mrs : shr_record) (e n : Z) :
  (0 <= shr_m mrs)%Z -> (0 <= n)%Z ->
  shr mrs e n = (fst (shr mrs e n), (e + n)%Z) /\
  shr_m (fst (shr mrs e n)) = (shr_m mrs / 2 ^ n)%Z.
Proof.
  intros Hm Hn. destruct n as [|p|p]; [| |lia]; cbn [shr fst].
  - split; [f_equal; lia|]. cbn. now rewrite Z.div_1_r.
  - split; [reflexivity|]. now apply iter_shr_1_m.
Qed.

(** *** Rounding to a normal binary64 number *)

(** A mantissa of [d >= 53] digits at an exponent that leaves the
    result in the normal range: the mantissa is shifted right by
    [k = d - 53] places and rounded to one of the two neighbours. *)
Lemma binary_round_aux_normal (s : bool) (m : positive) (e : Z) (l : location) :
  let d := Z.pos (digits2_pos m) in
  (53 <= d)%Z -> (-1021 <= d + e)%Z -> (d + e <= 1023)%Z ->
  exists (m' : positive) (e' m1 : Z),
    binary_round_aux 53 1024 s (Z.pos m) e l = S754_finite s m' e' /\
    Z.pos (digits2_pos m') = 53%Z /\
    (d + e <= e' + 53 <= d + e + 1)%Z /\
    (m1 = Z.pos m / 2 ^ (d - 53) \/ m1 = Z.pos m / 2 ^ (d - 53) + 1)%Z /\
    (Z.pos m' * 2 ^ (e' - (e + (d - 53))) = m1)%Z.
Proof.
  intros d Hd Hlo Hhi.
  pose proof (digits2_pos_bounds m) as Hm. fold d in Hm.
  set (k := (d - 53)%Z).
  set (m0 := (Z.pos m / 2 ^ k)%Z).
  assert (Hm0 : (2 ^ 52 <= m0 < 2 ^ 53)%Z).
  { unfold m0. split.
    - apply Z.div_le_lower_bound; [lia|].
      rewrite <- Z.pow_add_r by lia. replace (k + 52)%Z with (d - 1)%Z by lia. lia.
    - apply Z.div_lt_upper_bound; [lia|].
      rewrite <- Z.pow_add_r by lia. replace (k + 53)%Z with d by lia. lia. }
  assert (Hs1 : exists mrs, shr_fexp 53 1024 (Z.pos m) e l = (mrs, (e + k)%Z)
                            /\ shr_m mrs = m0).
  { unfold shr_fexp, fexp, emin. cbn [Zdigits2]. fold d.
    replace (Z.max (d + e - 53) (3 - 1024 - 53) - e)%Z with k by lia.
    destruct (shr_spec (shr_record_of_loc (Z.pos m) l) e k) as [H1 H2];
      [rewrite shr_m_record_of_loc; lia | lia |].
    eexists. split; [exact H1|]. rewrite H2, shr_m_record_of_loc. reflexivity. }
  destruct Hs1 as (mrs & Hs1 & Hmrs).
  unfold binary_round_aux. rewrite Hs1. rewrite Hmrs.
  set (m1 := round_nearest_even m0 (loc_of_shr_record mrs)).
  assert (Hm1 : m1 = m0 \/ m1 = (m0 + 1)%Z) by apply round_nearest_even_cases.
  assert (Hm1r : (2 ^ 52 <= m1 <= 2 ^ 53)%Z) by lia.
  destruct (Z.eq_dec m1 (2 ^ 53)%Z) as [Hc|Hc].
  - (* the rounding carried into a 54th digit *)
    rewrite Hc.
    change (shr_fexp 53 1024 (2 ^ 53)%Z (e + k)%Z loc_Exact)
      with (shr (shr_record_of_loc (2 ^ 53)%Z loc_Exact) (e + k)%Z
              (fexp 53 1024 (54 + (e + k)) - (e + k))%Z).
    unfold fexp, emin.
    replace (Z.max (54 + (e + k) - 53) (3 - 1024 - 53) - (e + k))%Z with 1%Z by lia.
    cbn [shr shr_record_of_loc SpecFloat.iter_pos shr_1 shr_m].
    change (2 ^ 53)%Z with (Z.pos (4503599627370496~0)). cbn [shr_1 shr_m].
    replace (e + k + 1 <=? 1024 - 53)%Z with true by (symmetry; apply Z.leb_le; lia).
    exists 4503599627370496%positive, (e + k + 1)%Z, m1.
    split; [reflexivity|]. split; [reflexivity|]. split; [lia|].
    split; [exact Hm1|].
    replace (e + k + 1 - (e + k))%Z with 1%Z by lia. rewrite Hc. reflexivity.
  - destruct m1 as [|p1|p1] eqn:E1; [lia| |lia].
    assert (Hd1 : Z.pos (digits2_pos p1) = 53%Z).
    { apply digits2_pos_unique. change (53 - 1)%Z with 52%Z. lia. }
    unfold shr_fexp, fexp, emin. cbn [Zdigits2]. rewrite Hd1.
    replace (Z.max (53 + (e + k) - 53) (3 - 1024 - 53) - (e + k))%Z with 0%Z by lia.
    cbn [shr shr_record_of_loc shr_m].
    replace (e + k <=? 1024 - 53)%Z with true by (symmetry; apply Z.leb_le; lia).
    exists p1, (e + k)%Z, (Z.pos p1).
    split; [reflexivity|]. split; [exact Hd1|]. split; [lia|].
    split; [exact Hm1|].
    replace (e + k - (e + k))%Z with 0%Z by lia. cbn. lia.
Qed.

(** *** The real value of a binary number *)

Lemma pow2_pos e : (0 < pow2 e)%R.
Proof. apply powerRZ_lt. lra. Qed.

Lemma pow2_add a b : pow2 (a + b) = (pow2 a * pow2 b)%R.
Proof. apply powerRZ_add. lra. Qed.

Lemma pow2_IZR n : (0 <= n)%Z -> pow2 n = IZR (2 ^ n).
Proof.
  destruct n as [|p|p]; [reflexivity| |lia]. intros _. unfold pow2.
  change (2 ^ Z.pos p)%Z with (Z.pow_pos 2 p).
  now rewrite Zpower_pos_powerRZ.
Qed.

Lemma pow2_ge_1 n : (0 <= n)%Z -> (1 <= pow2 n)%R.
Proof.
  intros H. rewrite pow2_IZR by assumption. apply IZR_le.
  pose proof (Z.pow_pos_nonneg 2 n). lia.
Qed.

Lemma pow2_le a b : (a <= b)%Z -> (pow2 a <= pow2 b)%R.
Proof.
  intros H. replace b with (a + (b - a))%Z at 1 by lia. rewrite pow2_add.
  pose proof (pow2_pos a) as Ha. pose proof (pow2_ge_1 (b - a)) as Hb.
  set (x := pow2 a) in *. set (y := pow2 (b - a)) in *. clearbody x y.
  specialize (Hb ltac:(lia)). nra.
Qed.

Lemma pow2_lt a b : (a < b)%Z -> (pow2 a < pow2 b)%R.
Proof.
  intros H. replace b with (a + 1 + (b - a - 1))%Z at 1 by lia.
  rewrite !pow2_add. replace (pow2 1) with 2%R by (unfold pow2; simpl; lra).
  pose proof (pow2_pos a) as Ha. pose proof (pow2_ge_1 (b - a - 1)) as Hb.
  set (x := pow2 a) in *. set (y := pow2 (b - a - 1)) in *. clearbody x y.
  specialize (Hb ltac:(lia)). nra.
Qed.

Lemma pow2_opp_mul a : (pow2 (- a) * pow2 a = 1)%R.
Proof. rewrite <- pow2_add. now replace (- a + a)%Z with 0%Z by lia. Qed.

(** The value of a rounded mantissa, against the value rounded. *)
Lemma binary_round_aux_value (s : bool) (m : positive) (e : Z) (l : location) :
  let d := Z.pos (digits2_pos m) in
  (53 <= d)%Z -> (-1021 <= d + e)%Z -> (d + e <= 1023)%Z ->
  exists (m' : positive) (e' : Z),
    binary_round_aux 53 1024 s (Z.pos m) e l = S754_finite s m' e' /\
    Z.pos (digits2_pos m') = 53%Z /\
    (d + e <= e' + 53 <= d + e + 1)%Z /\
    approx (pow2 (-52)) (IZR (Z.pos m) * pow2 e) (IZR (Z.pos m') * pow2 e').
Proof.
  intros d Hd Hlo Hhi.
  destruct (binary_round_aux_normal s m e l Hd Hlo Hhi)
    as (m' & e' & m1 & Hr & Hd' & He' & Hm1 & Hj).
  fold d in He', Hm1, Hj.
  exists m', e'. repeat (split; [assumption|]).
  set (k := (d - 53)%Z) in *.
  pose proof (digits2_pos_bounds m) as Hm. fold d in Hm.
  assert (Hk : (0 <= k)%Z) by lia.
  assert (H2k : (0 < 2 ^ k)%Z) by (apply Z.pow_pos_nonneg; lia).
  pose proof (Z.div_mod (Z.pos m) (2 ^ k)) as Hdm.
  pose proof (Z.mod_pos_bound (Z.pos m) (2 ^ k) H2k) as Hmod.
  assert (HD : (Z.pos m - 2 ^ k <= m1 * 2 ^ k <= Z.pos m + 2 ^ k)%Z) by nia.
  assert (HM : (2 ^ k * 2 ^ 52 <= Z.pos m)%Z).
  { rewrite <- Z.pow_add_r by lia. replace (k + 52)%Z with (d - 1)%Z by lia. lia. }
  (* to the reals *)
  set (j := (e' - (e + k))%Z) in *.
  assert (Hj0 : (0 <= j)%Z) by lia.
  assert (Hv : (IZR (Z.pos m') * pow2 e' = IZR (m1 * 2 ^ k) * pow2 e)%R).
  { replace e' with (j + (k + e))%Z by lia. rewrite !pow2_add.
    rewrite (pow2_IZR j), (pow2_IZR k) by assumption.
    rewrite <- Hj, !mult_IZR. ring. }
  rewrite Hv. unfold approx.
  pose proof (pow2_pos e) as Hpe.
  apply IZR_le in HM. rewrite mult_IZR in HM.
  destruct HD as [HD1 HD2]. apply IZR_le in HD1, HD2.
  rewrite minus_IZR in HD1. rewrite plus_IZR in HD2.
  rewrite <- !(pow2_IZR) in * by lia.
  pose proof (pow2_opp_mul 52) as H52. change (- (52))%Z with (-52)%Z in H52.
  pose proof (pow2_pos k) as Hpk. pose proof (pow2_pos (-52)) as Hp52.
  pose proof (pow2_pos 52) as Hp52'.
  assert (Hu : (pow2 k <= IZR (Z.pos m) * pow2 (-52))%R).
  { apply Rmult_le_reg_r with (r := pow2 52); [assumption|].
    rewrite Rmult_assoc, H52. lra. }
  split.
  - apply Rle_trans with ((IZR (Z.pos m) - pow2 k) * pow2 e)%R; [|nra].
    nra.
  - apply Rle_trans with ((IZR (Z.pos m) + pow2 k) * pow2 e)%R; [nra|].
    nra.
Qed.

Lemma pnormal_value x E :
  pnormal x E -> (pow2 (E - 1) <= value x < pow2 E)%R.
Proof.
  intros (m & e & -> & Hd & -> & _). cbn [value cond_Zopp].
  pose proof (digits2_pos_bounds m) as Hm. rewrite Hd in Hm.
  destruct Hm as [H1 H2]. apply IZR_le in H1. apply IZR_lt in H2.
  rewrite <- !pow2_IZR in * by lia.
  replace (e + 53 - 1)%Z with (53 - 1 + e)%Z by lia.
  replace (e + 53)%Z with (53 + e)%Z by lia. rewrite !pow2_add.
  pose proof (pow2_pos e). split; nra.
Qed.

Lemma mul_pnormal x y Ex Ey :
  pnormal x Ex -> pnormal y Ey -> (-1020 <= Ex + Ey <= 1023)%Z ->
  exists E, pnormal (F64.mul x y) E /\ (Ex + Ey - 1 <= E <= Ex + Ey + 1)%Z /\
            approx (pow2 (-52)) (value x * value y) (value (F64.mul x y)).
Proof.
  intros (mx & ex & -> & Hdx & -> & HEx) (my & ey & -> & Hdy & -> & HEy) HE.
  pose proof (digits2_pos_bounds mx) as Hmx. rewrite Hdx in Hmx.
  pose proof (digits2_pos_bounds my) as Hmy. rewrite Hdy in Hmy.
  pose proof (digits2_pos_bounds (mx * my)) as Hm.
  set (d := Z.pos (digits2_pos (mx * my))) in *.
  assert (HM : (2 ^ 104 <= Z.pos (mx * my) < 2 ^ 106)%Z).
  { rewrite Pos2Z.inj_mul. change (2 ^ 104)%Z with (2 ^ 52 * 2 ^ 52)%Z.
    change (2 ^ 106)%Z with (2 ^ 53 * 2 ^ 53)%Z.
    change (53 - 1)%Z with 52%Z in *. split; nia. }
  assert (Hd : (105 <= d <= 106)%Z).
  { assert (d - 1 < 106)%Z by (apply (Z.pow_lt_mono_r_iff 2); lia).
    assert (104 < d)%Z by (apply (Z.pow_lt_mono_r_iff 2); lia). lia. }
  unfold F64.mul, F64.prec, F64.emax. cbn [SFmul xorb].
  destruct (binary_round_aux_value false (mx * my) (ex + ey) loc_Exact)
    as (m' & e' & Hr & Hd' & He' & Hv); fold d; try lia.
  fold d in He'. rewrite Hr. exists (e' + 53)%Z. split; [|split].
  - exists m', e'. repeat split; try assumption; lia.
  - lia.
  - cbn [value cond_Zopp].
    replace (IZR (Z.pos mx) * pow2 ex * (IZR (Z.pos my) * pow2 ey))%R
      with (IZR (Z.pos (mx * my)) * pow2 (ex + ey))%R; [exact Hv|].
    rewrite Pos2Z.inj_mul, mult_IZR, pow2_add. ring.
Qed.

Lemma div_pnormal x y Ex Ey :
  pnormal x Ex -> pnormal y Ey -> (-1021 <= Ex - Ey <= 1022)%Z ->
  exists E, pnormal (F64.div x y) E /\ (Ex - Ey <= E <= Ex - Ey + 2)%Z /\
            approx (pow2 (-51)) (value x / value y) (value (F64.div x y)).
Proof.
  intros (mx & ex & -> & Hdx & -> & HEx) (my & ey & -> & Hdy & -> & HEy) HE.
  pose proof (digits2_pos_bounds mx) as Hmx. rewrite Hdx in Hmx.
  pose proof (digits2_pos_bounds my) as Hmy. rewrite Hdy in Hmy.
  change (53 - 1)%Z with 52%Z in *.
  unfold F64.div, F64.prec, F64.emax. cbn [SFdiv xorb].
  unfold SFdiv_core_binary. cbn [Zdigits2]. rewrite Hdx, Hdy.
  unfold fexp, emin.
  replace (Z.min (Z.max (53 + ex - (53 + ey) - 53) (3 - 1024 - 53)) (ex - ey))%Z
    with (ex - ey - 53)%Z by lia.
  replace (ex - ey - (ex - ey - 53))%Z with 53%Z by lia.
  rewrite Z.shiftl_mul_pow2 by lia.
  pose proof (Z_div_mod (Z.pos mx * 2 ^ 53) (Z.pos my) ltac:(lia)) as Hqr.
  destruct (Z.div_eucl (Z.pos mx * 2 ^ 53) (Z.pos my)) as [q r].
  destruct Hqr as [Hqr Hr].
  assert (Hq : (2 ^ 52 <= q < 2 ^ 54)%Z).
  { change (2 ^ 54)%Z with (2 * 2 ^ 53)%Z. split; nia. }
  destruct q as [|q|q]; [lia| |lia].
  pose proof (digits2_pos_bounds q) as Hdq.
  set (d := Z.pos (digits2_pos q)) in *.
  assert (Hd : (53 <= d <= 54)%Z).
  { assert (d - 1 < 54)%Z by (apply (Z.pow_lt_mono_r_iff 2); lia).
    assert (52 < d)%Z by (apply (Z.pow_lt_mono_r_iff 2); lia). lia. }
  destruct (binary_round_aux_value false q (ex - ey - 53)
              (new_location (Z.pos my) r))
    as (m' & e' & Hres & Hd' & He' & Hv); fold d; try lia.
  fold d in He'. rewrite Hres. exists (e' + 53)%Z. split; [|split].
  - exists m', e'. repeat split; try assumption; lia.
  - lia.
  - cbn [value cond_Zopp].
    set (v := (IZR (Z.pos mx) * pow2 ex / (IZR (Z.pos my) * pow2 ey))%R).
    set (w := (IZR (Z.pos q) * pow2 (ex - ey - 53))%R) in *.
    pose proof (pow2_pos (ex - ey - 53)) as Hp.
    assert (Hmy0 : (0 < IZR (Z.pos my))%R) by (apply IZR_lt; lia).
    assert (Hvw : (v * IZR (Z.pos my)
                   = (IZR (Z.pos my) * IZR (Z.pos q) + IZR r)
                     * pow2 (ex - ey - 53))%R).
    { rewrite <- mult_IZR, <- plus_IZR, <- Hqr, mult_IZR.
      rewrite <- (pow2_IZR 53) by lia. unfold v.
      replace ex with (53 + (ex - ey - 53) + ey)%Z at 1 by lia.
      rewrite !pow2_add. pose proof (pow2_pos ey). field. lra. }
    assert (Hr' : (0 <= IZR r < IZR (Z.pos my))%R).
    { split; [apply IZR_le | apply IZR_lt]; lia. }
    assert (Hlo : (w <= v)%R).
    { apply Rmult_le_reg_r with (r := IZR (Z.pos my)); [assumption|].
      rewrite Hvw. unfold w. nra. }
    assert (Hhi : (v <= w + pow2 (ex - ey - 53))%R).
    { apply Rmult_le_reg_r with (r := IZR (Z.pos my)); [assumption|].
      rewrite Hvw. unfold w. nra. }
    assert (Hu : (pow2 (ex - ey - 53) <= pow2 (-52) * w)%R).
    { unfold w. destruct Hq as [Hq _]. apply IZR_le in Hq.
      rewrite <- pow2_IZR in Hq by lia.
      pose proof (pow2_opp_mul 52) as H52. change (- (52))%Z with (-52)%Z in H52.
      pose proof (pow2_pos (-52)).
      assert (1 <= pow2 (-52) * IZR (Z.pos q))%R by nra.
      rewrite <- Rmult_assoc. nra. }
    assert (H51 : pow2 (-51) = (2 * pow2 (-52))%R).
    { change (-51)%Z with (1 + -52)%Z. rewrite pow2_add.
      f_equal. unfold pow2. simpl. lra. }
    assert (H52s : (pow2 (-52) < 1)%R).
    { change 1%R with (pow2 0). apply pow2_lt. lia. }
    pose proof (pow2_pos (-52)) as Hp52.
    assert (Hw0 : (0 < w)%R).
    { unfold w. apply Rmult_lt_0_compat; [apply IZR_lt; lia | assumption]. }
    unfold approx in *. rewrite H51. destruct Hv as [Hv1 Hv2].
    set (u := pow2 (-52)) in *. clearbody u v w. split; nra.
Qed.

Lemma valid_pnormal x lo hi :
  F64.valid x = true -> (pow2 lo <= value x < pow2 hi)%R ->
  (-1022 <= lo)%Z -> (hi <= 1024)%Z ->
  exists E, pnormal x E /\ (lo < E <= hi)%Z.
Proof.
  intros Hv [Hlo Hhi] Hl Hh. pose proof (pow2_pos lo) as Hp.
  destruct x as [s|s| |s m e]; cbn [value] in *; try lra.
  pose proof (pow2_pos e) as Hpe.
  destruct s; cbn [cond_Zopp] in *.
  { assert (IZR (- Z.pos m) < 0)%R by (apply IZR_lt; lia). nra. }
  unfold F64.valid, valid_binary, SpecFloat.bounded, canonical_mantissa,
    fexp, emin, F64.prec, F64.emax in Hv.
  apply andb_prop in Hv as [Hc He]. apply Z.eqb_eq in Hc. apply Z.leb_le in He.
  pose proof (digits2_pos_bounds m) as Hm.
  set (d := Z.pos (digits2_pos m)) in *.
  assert (Hd0 : (0 < d)%Z) by (unfold d; lia).
  destruct Hm as [Hm1 Hm2]. apply IZR_le in Hm1. apply IZR_lt in Hm2.
  rewrite <- !pow2_IZR in * by lia.
  assert (Hvlo : (pow2 (d - 1 + e) <= IZR (Z.pos m) * pow2 e)%R)
    by (rewrite pow2_add; nra).
  assert (Hvhi : (IZR (Z.pos m) * pow2 e < pow2 (d + e))%R)
    by (rewrite pow2_add; nra).
  assert (H1 : (lo < d + e)%Z).
  { destruct (Z.lt_ge_cases lo (d + e)) as [|H]; [assumption|].
    apply pow2_le in H. lra. }
  assert (H2 : (d - 1 + e < hi)%Z).
  { destruct (Z.lt_ge_cases (d - 1 + e) hi) as [|H]; [assumption|].
    apply pow2_le in H. lra. }
  assert (Hd : d = 53%Z) by lia.
  exists (e + 53)%Z. split; [|lia].
  exists m, e. repeat split; try assumption; lia.
Qed.

(** *** The arc tangent near a point *)

Lemma atan_MVT (a b : R) :
  (a < b)%R ->
  exists c, (atan b - atan a = (b - a) / (1 + c ^ 2))%R /\ (a < c < b)%R.
Proof.
  intros Hab.
  destruct (MVT_cor2 atan (fun x => / (1 + x ^ 2))%R a b Hab) as (c & Hc & Hr).
  { intros c _. apply derivable_pt_lim_atan. }
  exists c. split; [|exact Hr]. rewrite Hc. unfold Rdiv. ring.
Qed.

Lemma atan_pos x : (0 < x)%R -> (0 < atan x)%R.
Proof. intros H. rewrite <- atan_0. now apply atan_increasing. Qed.

Lemma atan_le_id x : (0 < x)%R -> (atan x <= x)%R.
Proof.
  intros H. destruct (atan_MVT 0 x H) as (c & Hc & Hr).
  rewrite atan_0, !Rminus_0_r in Hc. rewrite Hc.
  apply Rmult_le_reg_r with (r := (1 + c ^ 2)%R); [nra|].
  replace (x / (1 + c ^ 2) * (1 + c ^ 2))%R with x by (field; nra). nra.
Qed.

Lemma atan_ge_frac x : (0 < x)%R -> (x / (1 + x ^ 2) <= atan x)%R.
Proof.
  intros H. destruct (atan_MVT 0 x H) as (c & Hc & Hr).
  rewrite atan_0, !Rminus_0_r in Hc. rewrite Hc.
  unfold Rdiv. apply Rmult_le_compat_l; [lra|].
  apply Rinv_le_contravar; nra.
Qed.

Lemma atan_lt_2 x : (atan x < 2)%R.
Proof. pose proof (atan_bound x). pose proof PI_4. lra. Qed.

Lemma tan_le (x y : R) :
  (- PI / 2 < x)%R -> (x <= y)%R -> (y < PI / 2)%R -> (tan x <= tan y)%R.
Proof.
  intros Hx [Hlt | ->] Hy; [|lra]. left. now apply tan_increasing.
Qed.

(** An angle within the relative distance [theta] of [atan q] has its
    tangent within the relative distance [theta * (6 + 3 * K)] of [q],
    for [q <= K]. *)
Lemma tan_near_atan (q K theta t : R) :
  (0 < q <= K)%R -> (0 < theta)%R -> (theta * (6 + 3 * K) <= / 10)%R ->
  approx theta (atan q) t ->
  approx (theta * (6 + 3 * K)) q (tan t).
Proof.
  intros [Hq HK] Hth Hrho [Ht1 Ht2].
  set (rho := (theta * (6 + 3 * K))%R) in *.
  set (A := atan q) in *.
  assert (HA0 : (0 < A)%R) by now apply atan_pos.
  assert (HAq : (A <= q)%R) by now apply atan_le_id.
  assert (HA2 : (A < 2)%R) by apply atan_lt_2.
  assert (Hrho0 : (0 < rho)%R) by (unfold rho; nra).
  assert (Hth1 : (theta < 1)%R) by (unfold rho in Hrho; nra).
  (* the numerators that bound the distance covered by [atan] *)
  assert (Hup : (A * theta * (1 + (q * (1 + rho)) ^ 2) <= q * rho)%R).
  { assert (Hsq : ((1 + rho) ^ 2 <= 5 / 4)%R) by nra.
    destruct (Rle_dec q 2) as [Hq2|Hq2].
    - assert (H6 : (1 + (q * (1 + rho)) ^ 2 <= 6)%R) by nra.
      apply Rle_trans with (q * theta * 6)%R.
      + apply Rle_trans with (A * theta * 6)%R.
        * apply Rmult_le_compat_l; [nra | exact H6].
        * nra.
      + unfold rho. assert (0 <= q * theta)%R by nra.
        assert (0 <= q * theta * K)%R by nra. nra.
    - assert (H6 : (1 + (q * (1 + rho)) ^ 2 <= 1 + q ^ 2 * (5 / 4))%R) by nra.
      apply Rle_trans with (2 * theta * (1 + q ^ 2 * (5 / 4)))%R.
      + apply Rle_trans with (A * theta * (1 + q ^ 2 * (5 / 4)))%R.
        * apply Rmult_le_compat_l; [nra | exact H6].
        * apply Rmult_le_compat_r; [nra|]. apply Rmult_le_compat_r; lra.
      + unfold rho.
        assert (H7 : (2 * (1 + q ^ 2 * (5 / 4)) <= q * (6 + 3 * K))%R) by nra.
        apply (Rmult_le_compat_l theta) in H7; [|lra]. lra. }
  assert (Hdn : (A * theta * (1 + q ^ 2) <= q * rho)%R).
  { apply Rle_trans with (A * theta * (1 + (q * (1 + rho)) ^ 2))%R; [|exact Hup].
    apply Rmult_le_compat_l; nra. }
  (* above *)
  destruct (atan_MVT q (q * (1 + rho))) as (c & Hc & Hcr); [nra|].
  fold A in Hc.
  assert (Hu : (A * theta <= atan (q * (1 + rho)) - A)%R).
  { rewrite Hc. replace (q * (1 + rho) - q)%R with (q * rho)%R by ring.
    apply Rmult_le_reg_r with (r := (1 + c ^ 2)%R); [nra|].
    replace (q * rho / (1 + c ^ 2) * (1 + c ^ 2))%R with (q * rho)%R
      by (field; nra).
    apply Rle_trans with (A * theta * (1 + (q * (1 + rho)) ^ 2))%R; [|nra].
    apply Rmult_le_compat_l; nra. }
  (* below *)
  destruct (atan_MVT (q * (1 - rho)) q) as (c' & Hc' & Hcr'); [nra|].
  fold A in Hc'.
  assert (Hl : (A * theta <= A - atan (q * (1 - rho)))%R).
  { rewrite Hc'. replace (q - q * (1 - rho))%R with (q * rho)%R by ring.
    apply Rmult_le_reg_r with (r := (1 + c' ^ 2)%R); [nra|].
    replace (q * rho / (1 + c' ^ 2) * (1 + c' ^ 2))%R with (q * rho)%R
      by (field; nra).
    assert (Hc0 : (0 < c')%R) by nra.
    apply Rle_trans with (A * theta * (1 + q ^ 2))%R; [|nra].
    apply Rmult_le_compat_l; nra. }
  pose proof (atan_bound (q * (1 + rho))) as [_ Hb1].
  pose proof (atan_bound (q * (1 - rho))) as [Hb2 _].
  unfold approx. rewrite <- (tan_atan (q * (1 - rho))), <- (tan_atan (q * (1 + rho))).
  split; apply tan_le; lra.
Qed.

(** *** Relative errors *)

Ltac nonneg := first [lra | apply Rmult_le_pos; nonneg].

Lemma approx_weaken (d d' A a : R) :
  approx d A a -> (0 <= A)%R -> (d <= d')%R -> approx d' A a.
Proof. unfold approx. intros [H1 H2] HA Hd. split; nra. Qed.

Lemma approx_trans (d1 d2 A B C : R) :
  approx d1 A B -> approx d2 B C ->
  (0 <= A)%R -> (0 <= d1)%R -> (0 <= d2 <= 1)%R ->
  approx (d1 + d2 + d1 * d2) A C.
Proof.
  unfold approx. intros [Ha Hb] [Hc Hd] HA H1 H2. split.
  - apply Rle_trans with (A * (1 - d1) * (1 - d2))%R; [nra|].
    apply Rle_trans with (B * (1 - d2))%R; [|assumption].
    apply Rmult_le_compat_r; lra.
  - apply Rle_trans with (A * (1 + d1) * (1 + d2))%R; [|nra].
    apply Rle_trans with (B * (1 + d2))%R; [assumption|].
    apply Rmult_le_compat_r; lra.
Qed.

Lemma approx_scale (d c A a : R) :
  approx d A a -> (0 <= c)%R -> approx d (c * A) (c * a).
Proof.
  unfold approx. intros [H1 H2] Hc. split.
  - rewrite Rmult_assoc. now apply Rmult_le_compat_l.
  - rewrite Rmult_assoc. now apply Rmult_le_compat_l.
Qed.

(** Dividing by an approximation of [B] instead of [B]. *)
Lemma approx_div_r (d A B b : R) :
  approx d B b -> (0 <= A)%R -> (0 < B)%R -> (0 <= d <= / 2)%R ->
  approx (2 * d) (A / B) (A / b).
Proof.
  unfold approx. intros [H1 H2] HA HB Hd.
  assert (Hb : (0 < b)%R) by nra.
  assert (HAB : (0 <= A / B)%R) by (apply Rle_mult_inv_pos; lra).
  split.
  - apply Rmult_le_reg_r with (r := b); [assumption|].
    replace (A / b * b)%R with A by (field; lra).
    apply Rle_trans with (A / B * (1 - 2 * d) * (B * (1 + d)))%R.
    + apply Rmult_le_compat_l; [|assumption]. nra.
    + replace (A / B * (1 - 2 * d) * (B * (1 + d)))%R
        with (A * ((1 - 2 * d) * (1 + d)))%R by (field; lra).
      assert ((1 - 2 * d) * (1 + d) <= 1)%R by nra. nra.
  - apply Rmult_le_reg_r with (r := b); [assumption|].
    replace (A / b * b)%R with A by (field; lra).
    apply Rle_trans with (A / B * (1 + 2 * d) * (B * (1 - d)))%R.
    + replace (A / B * (1 + 2 * d) * (B * (1 - d)))%R
        with (A * ((1 + 2 * d) * (1 - d)))%R by (field; lra).
      assert (1 <= (1 + 2 * d) * (1 - d))%R by nra. nra.
    + apply Rmult_le_compat_l; [nra | assumption].
Qed.

Lemma pow2_neg n : (0 <= n)%Z -> pow2 (- n) = (/ IZR (2 ^ n))%R.
Proof. intros H. unfold pow2. rewrite powerRZ_neg'. f_equal. now apply pow2_IZR. Qed.

Lemma pow2_m52 : pow2 (-52) = (/ 4503599627370496)%R.
Proof. exact (pow2_neg 52 ltac:(lia)). Qed.
Lemma pow2_m51 : pow2 (-51) = (/ 2251799813685248)%R.
Proof. exact (pow2_neg 51 ltac:(lia)). Qed.
Lemma pow2_m44 : pow2 (-44) = (/ 17592186044416)%R.
Proof. exact (pow2_neg 44 ltac:(lia)). Qed.
Lemma pow2_m49 : pow2 (-49) = (/ 562949953421312)%R.
Proof. exact (pow2_neg 49 ltac:(lia)). Qed.

Lemma pnormal_two : pnormal f64_two 2 /\ value f64_two = 2%R.
Proof.
  split.
  - exists 4503599627370496%positive, (-51)%Z. repeat split; try reflexivity; lia.
  - cbn [value f64_two cond_Zopp]. rewrite pow2_m51. lra.
Qed.

Lemma pnormal_360 : pnormal f64_360 9 /\ value f64_360 = 360%R.
Proof.
  split.
  - exists 6333186975989760%positive, (-44)%Z. repeat split; try reflexivity; lia.
  - cbn [value f64_360 cond_Zopp]. rewrite pow2_m44. lra.
Qed.

Lemma pnormal_M_PI : pnormal M_PI 2.
Proof.
  exists 7074237752028440%positive, (-51)%Z. repeat split; try reflexivity; lia.
Qed.

Lemma pnormal_pos x E : pnormal x E -> (0 < value x)%R.
Proof.
  intros H. apply pnormal_value in H as [H _].
  pose proof (pow2_pos (E - 1)). lra.
Qed.

(** [x / (2.0 * y)] *)
Lemma half_ratio_spec (x y : double) (Ex Ey : Z) :
  pnormal x Ex -> pnormal y Ey ->
  (Ey <= 1020)%Z -> (-1018 <= Ex - Ey <= 1022)%Z ->
  exists E, pnormal (F64.div x (F64.mul f64_two y)) E /\
            (Ex - Ey - 3 <= E <= Ex - Ey + 1)%Z /\
            approx (pow2 (-49)) (value x / (2 * value y))
                   (value (F64.div x (F64.mul f64_two y))).
Proof.
  intros Hx Hy HEy HE. destruct pnormal_two as [H2 V2].
  pose proof Hy as (_ & _ & _ & _ & _ & HyE).
  destruct (mul_pnormal f64_two y 2 Ey H2 Hy) as (E1 & H1 & HE1 & A1); [lia|].
  destruct (div_pnormal x (F64.mul f64_two y) Ex E1 Hx H1) as (E & Hq & HEq & A2);
    [lia|].
  exists E. split; [exact Hq|]. split; [lia|].
  rewrite V2 in A1.
  pose proof (pnormal_pos x Ex Hx) as Hvx. pose proof (pnormal_pos y Ey Hy) as Hvy.
  rewrite pow2_m52 in A1. rewrite pow2_m51 in A2.
  assert (A3 : approx (2 * / 4503599627370496) (value x / (2 * value y))
                      (value x / value (F64.mul f64_two y))).
  { apply approx_div_r; try lra. exact A1. }
  pose proof (approx_trans _ _ _ _ _ A3 A2 ltac:(apply Rle_mult_inv_pos; lra)
                ltac:(lra) ltac:(lra)) as A4.
  rewrite pow2_m49.
  apply (approx_weaken _ _ _ _ A4); [apply Rle_mult_inv_pos; lra | lra].
Qed.

(** [(360.0 / M_PI * a) * M_PI / 360.0] *)
Lemma angle_spec (a : double) (Ea : Z) :
  pnormal a Ea -> (-1010 <= Ea <= 1000)%Z ->
  let t := F64.div (F64.mul (F64.mul (F64.div f64_360 M_PI) a) M_PI) f64_360 in
  exists E, pnormal t E /\ approx (pow2 (-49)) (value a) (value t).
Proof.
  intros Ha HEa t. destruct pnormal_360 as [H360 V360].
  pose proof pnormal_M_PI as Hpi.
  pose proof (pnormal_pos _ _ Hpi) as Vpi. pose proof (pnormal_pos _ _ Ha) as Va.
  destruct (div_pnormal f64_360 M_PI 9 2 H360 Hpi) as (Ec & Hc & HEc & Ac); [lia|].
  destruct (mul_pnormal _ a Ec Ea Hc Ha) as (Ef & Hf & HEf & Af); [lia|].
  destruct (mul_pnormal _ M_PI Ef 2 Hf Hpi) as (Ep & Hp & HEp & Ap); [lia|].
  destruct (div_pnormal _ f64_360 Ep 9 Hp H360) as (Et & Ht & HEt & At); [lia|].
  exists Et. split; [exact Ht|]. fold t in At.
  rewrite V360 in *.
  set (vc := value (F64.div f64_360 M_PI)) in *.
  set (vf := value (F64.mul (F64.div f64_360 M_PI) a)) in *.
  set (vp := value (F64.mul (F64.mul (F64.div f64_360 M_PI) a) M_PI)) in *.
  set (vpi := value M_PI) in *. set (va := value a) in *. set (vt := value t) in *.
  rewrite ?pow2_m52, ?pow2_m51 in *.
  assert (H0 : (0 < 360 / vpi)%R) by (apply Rdiv_lt_0_compat; lra).
  (* vc * va *)
  pose proof (approx_scale _ va _ _ Ac ltac:(lra)) as B1.
  replace (va * vc)%R with (vc * va)%R in B1 by ring.
  pose proof (approx_trans _ _ _ _ _ B1 Af ltac:(nonneg) ltac:(lra) ltac:(lra)) as B2.
  (* vf * vpi *)
  pose proof (approx_scale _ vpi _ _ B2 ltac:(lra)) as B3.
  replace (vpi * vf)%R with (vf * vpi)%R in B3 by ring.
  pose proof (approx_trans _ _ _ _ _ B3 Ap ltac:(nonneg) ltac:(lra) ltac:(lra)) as B4.
  (* vp / 360 *)
  pose proof (approx_scale _ (/ 360) _ _ B4 ltac:(lra)) as B5.
  replace (/ 360 * vp)%R with (vp / 360)%R in B5 by (unfold Rdiv; ring).
  replace (/ 360 * (vpi * (va * (360 / vpi))))%R with va in B5 by (field; lra).
  pose proof (approx_trans _ _ _ _ _ B5 At ltac:(lra) ltac:(lra) ltac:(lra)) as B6.
  rewrite pow2_m49.
  apply (approx_weaken _ _ _ _ B6); lra.
Qed.

Lemma atan_lower (x : R) (n : Z) :
  (n <= 0)%Z -> (pow2 n <= x)%R -> (pow2 (n - 1) <= atan x)%R.
Proof.
  intros Hn Hx. pose proof (pow2_pos n) as Hp.
  assert (Hp1 : (pow2 n <= 1)%R) by (change 1%R with (pow2 0); now apply pow2_le).
  assert (Hh : pow2 (n - 1) = (pow2 n / 2)%R).
  { replace (n - 1)%Z with (n + -1)%Z by lia. rewrite pow2_add.
    replace (pow2 (-1)) with (/ 2)%R by (unfold pow2; simpl; lra). lra. }
  rewrite Hh.
  apply Rle_trans with (atan (pow2 n)).
  - apply Rle_trans with (pow2 n / (1 + pow2 n ^ 2))%R; [|now apply atan_ge_frac].
    unfold Rdiv. apply Rmult_le_compat_l; [lra|].
    apply Rinv_le_contravar; nra.
  - destruct Hx as [Hx | <-]; [|lra]. left. now apply atan_increasing.
Qed.

(** C7 (as the code has it): the two conversions compute in binary64,
    so that converting a focal length to a field of view and back
    reproduces the focal length up to rounding, not exactly.  For a
    focal length and an aperture that are binary64 numbers between
    [2^-500] and [2^500] with [aperture <= 1024 * length], and a C
    library whose [atan] and [tan] are accurate to [2^-44] at the two
    arguments they are called with, the result is a finite number
    within the relative distance [1e-9] of the focal length. *)
Theorem focalLength_round_trip (c_atan c_tan : double -> double)
    (length aperture : double) :
  let q := F64.div aperture (F64.mul f64_two length) in
  let fov := PerspectiveCamera.focalLengthToFieldOfView c_atan length aperture in
  let t := F64.div (F64.mul fov M_PI) f64_360 in
  let back := PerspectiveCamera.fieldOfViewToFocalLength c_tan fov aperture in
  F64.valid length = true -> F64.valid aperture = true ->
  (pow2 (-500) <= value length <= pow2 500)%R ->
  (pow2 (-500) <= value aperture <= pow2 500)%R ->
  (value aperture <= 1024 * value length)%R ->
  accurate c_atan atan q -> accurate c_tan tan t ->
  is_finite back = true /\
  (Rabs (value back - value length) <= value length / 1000000000)%R.
Proof.
  intros q fov t back VL VA RL RA Hratio [Vat Aat] [Vtan Atan].
  assert (H501 : (pow2 500 < pow2 501)%R) by (apply pow2_lt; lia).
  destruct (valid_pnormal length (-500) 501 VL) as (EL & HL & HEL); [lra|lia|lia|].
  destruct (valid_pnormal aperture (-500) 501 VA) as (EA & HA & HEA); [lra|lia|lia|].
  pose proof (pnormal_pos _ _ HL) as VL0. pose proof (pnormal_pos _ _ HA) as VA0.
  (* the quotient *)
  destruct (half_ratio_spec aperture length EA EL HA HL) as (Eq & Hq & HEq & Aq);
    [lia|lia|].
  fold q in Hq, Aq.
  set (r := (value aperture / (2 * value length))%R) in *.
  assert (Hr0 : (0 < r)%R) by (apply Rdiv_lt_0_compat; lra).
  assert (Hr : (r <= 512)%R).
  { unfold r. apply Rmult_le_reg_r with (r := (2 * value length)%R); [lra|].
    replace (value aperture / (2 * value length) * (2 * value length))%R
      with (value aperture) by (field; lra). lra. }
  rewrite pow2_m49 in Aq. rewrite pow2_m44 in Aat, Atan.
  pose proof (pnormal_pos _ _ Hq) as Vq0.
  assert (HqK : (value q <= 1024)%R) by (destruct Aq as [_ Aq]; nra).
  pose proof (pnormal_value _ _ Hq) as [Hq1 Hq2].
  (* the angle that atan returns *)
  assert (Hatan_lo : (pow2 (-1005) <= atan (value q))%R).
  { apply (atan_lower (value q) (-1004)); [lia|].
    apply Rle_trans with (pow2 (Eq - 1)); [apply pow2_le; lia | assumption]. }
  pose proof (atan_lt_2 (value q)) as Hatan_hi.
  pose proof (atan_pos _ Vq0) as Hatan0.
  destruct (valid_pnormal (c_atan q) (-1006) 2 Vat) as (Ea & Ha & HEa); [|lia|lia|].
  { replace (pow2 2) with 4%R by (unfold pow2; simpl; lra).
    assert (Hh : pow2 (-1006) = (pow2 (-1005) / 2)%R).
    { change (-1006)%Z with (-1005 + -1)%Z. rewrite pow2_add.
      replace (pow2 (-1)) with (/ 2)%R by (unfold pow2; simpl; lra). lra. }
    rewrite Hh. destruct Aat as [A1 A2]. split; nra. }
  destruct (angle_spec (c_atan q) Ea Ha) as (Et & Ht & At); [lia|].
  change (F64.div (F64.mul (F64.mul (F64.div f64_360 M_PI) (c_atan q)) M_PI) f64_360)
    with t in Ht, At.
  rewrite pow2_m49 in At.
  pose proof (approx_trans _ _ _ _ _ Aat At ltac:(lra) ltac:(lra) ltac:(lra)) as A1.
  apply (approx_weaken _ (/ 16000000000000)%R) in A1; [|lra|lra].
  (* its tangent *)
  pose proof (tan_near_atan (value q) 1024 (/ 16000000000000) (value t)
                ltac:(lra) ltac:(lra) ltac:(lra) A1) as A2.
  pose proof (approx_trans _ _ _ _ _ A2 Atan ltac:(lra) ltac:(lra) ltac:(lra)) as A3.
  apply (approx_weaken _ (/ 5000000000)%R) in A3; [|lra|lra].
  destruct (valid_pnormal (c_tan t) (Eq - 2) (Eq + 1) Vtan) as (Ew & Hw & HEw);
    [|lia|lia|].
  { replace (pow2 (Eq - 2)) with (pow2 (Eq - 1) / 2)%R.
    2:{ replace (Eq - 2)%Z with (Eq - 1 + -1)%Z by lia. rewrite pow2_add.
        replace (pow2 (-1)) with (/ 2)%R by (unfold pow2; simpl; lra). lra. }
    replace (pow2 (Eq + 1)) with (pow2 Eq * 2)%R.
    2:{ rewrite pow2_add. replace (pow2 1) with 2%R by (unfold pow2; simpl; lra).
        lra. }
    destruct A3 as [A3 A3']. split; nra. }
  (* back to a focal length *)
  destruct (half_ratio_spec aperture (c_tan t) EA Ew HA Hw) as (Eb & Hb & HEb & Ab);
    [lia|lia|].
  change (F64.div aperture (F64.mul f64_two (c_tan t))) with back in Hb, Ab.
  rewrite pow2_m49 in Ab.
  pose proof (pnormal_pos _ _ Hw) as Vw0.
  split.
  { destruct Hb as (mb & eb & -> & _). reflexivity. }
  pose proof (approx_trans _ _ _ _ _ Aq A3 ltac:(lra) ltac:(lra) ltac:(lra)) as A4.
  apply (approx_scale _ 2) in A4; [|lra].
  pose proof (approx_div_r _ (value aperture) _ _ A4 ltac:(lra) ltac:(lra)
                ltac:(lra)) as A5.
  replace (value aperture / (2 * r))%R with (value length) in A5
    by (unfold r; field; lra).
  pose proof (approx_trans _ _ _ _ _ A5 Ab ltac:(lra) ltac:(lra) ltac:(lra)) as A6.
  destruct A6 as [A6 A6']. apply Rabs_le. split; lra.
Qed.

(** The default camera, 50 mm and 41.2136 mm, is within the range of
    the round trip. *)
Lemma default_camera_in_range :
  F64.valid default_focalLength = true /\
  F64.valid default_aperture = true /\
  (pow2 (-500) <= value default_focalLength <= pow2 500)%R /\
  (pow2 (-500) <= value default_aperture <= pow2 500)%R /\
  (value default_aperture <= 1024 * value default_focalLength)%R.
Proof.
  assert (H47 : pow2 (-47) = (/ 140737488355328)%R)
    by exact (pow2_neg 47 ltac:(lia)).
  assert (Hf : value default_focalLength = 50%R).
  { cbn [value default_focalLength cond_Zopp]. rewrite H47. lra. }
  assert (Ha : (41 <= value default_aperture <= 42)%R).
  { cbn [value default_aperture cond_Zopp]. rewrite H47. lra. }
  assert (Hlo : (pow2 (-500) <= 1)%R)
    by (change 1%R with (pow2 0); apply pow2_le; lia).
  assert (Hhi : (64 <= pow2 500)%R).
  { apply Rle_trans with (pow2 6); [|apply pow2_le; lia].
    rewrite (pow2_IZR 6) by lia. change (2 ^ 6)%Z with 64%Z. lra. }
  repeat split; try reflexivity; lra.
Qed.

(** Small angles: [atan x] and [tan y] are [x] and [y] up to the square
    of the argument. *)
Lemma atan_small (x eps : R) :
  (0 < x)%R -> (x ^ 2 <= eps)%R -> approx eps (atan x) x.
Proof.
  intros Hx He. pose proof (atan_pos x Hx) as H0.
  pose proof (atan_le_id x Hx) as H1. pose proof (atan_ge_frac x Hx) as H2.
  assert (He0 : (0 <= eps)%R) by nra.
  unfold approx. split; [nra|].
  apply Rle_trans with (x / (1 + x ^ 2) * (1 + eps))%R; [|nra].
  apply Rmult_le_reg_r with (r := (1 + x ^ 2)%R); [nra|].
  replace (x / (1 + x ^ 2) * (1 + eps) * (1 + x ^ 2))%R with (x * (1 + eps))%R
    by (field; nra).
  nra.
Qed.

Lemma tan_small (y eps : R) :
  (0 < y < 1)%R -> (0 < eps <= / 2)%R -> (4 * y ^ 2 <= eps)%R ->
  approx eps (tan y) y.
Proof.
  intros [Hy0 Hy1] [He0 He1] Hy. pose proof PI2_1 as Hpi.
  assert (Ht0 : (0 < tan y)%R) by (apply tan_gt_0; lra).
  assert (Hge : (y <= tan y)%R).
  { rewrite <- (atan_tan y) at 1 by lra. now apply atan_le_id. }
  unfold approx. split; [|nra].
  set (z := (y / (1 - eps))%R).
  assert (Hz : (z * (1 - eps) = y)%R) by (unfold z; field; lra).
  assert (Hz0 : (0 < z)%R) by (unfold z; apply Rdiv_lt_0_compat; lra).
  assert (Hz2 : (z ^ 2 <= eps)%R).
  { assert (Hzy : (z <= 2 * y)%R) by nra. nra. }
  assert (Hle : (tan y <= z)%R).
  { rewrite <- (tan_atan z). pose proof (atan_bound z) as [_ Hb].
    apply tan_le; [lra| |assumption].
    apply Rle_trans with (z / (1 + z ^ 2))%R; [|now apply atan_ge_frac].
    apply Rmult_le_reg_r with (r := (1 + z ^ 2)%R); [nra|].
    replace (z / (1 + z ^ 2) * (1 + z ^ 2))%R with z by (field; nra).
    assert (Hone : ((1 - eps) * (1 + z ^ 2) <= 1)%R) by nra.
    rewrite <- Hz. rewrite Rmult_assoc.
    apply Rle_trans with (z * 1)%R; [|lra].
    apply Rmult_le_compat_l; lra. }
  rewrite <- Hz at 2. apply Rmult_le_compat_r; lra.
Qed.

(** A focal length of [2^22] with an aperture of [1.0], on a C library
    whose [atan] and [tan] return their argument where it is that
    small. *)
Lemma focalLength_round_trip_witness :
  let length := S754_finite false 4503599627370496 (-30) in
  let aperture := S754_finite false 4503599627370496 (-52) in
  let fov := PerspectiveCamera.focalLengthToFieldOfView (fun x => x) length aperture in
  let back := PerspectiveCamera.fieldOfViewToFocalLength (fun x => x) fov aperture in
  is_finite back = true /\
  (Rabs (value back - value length) <= value length / 1000000000)%R.
Proof.
  cbv zeta.
  assert (Hv : forall e, (-60 <= e <= 0)%Z ->
             value (S754_finite false 4503599627370496 e) = pow2 (52 + e)).
  { intros e He. cbn [value cond_Zopp]. rewrite pow2_add.
    now rewrite (pow2_IZR 52) by lia. }
  assert (Hq : F64.div (S754_finite false 4503599627370496 (-52))
                 (F64.mul f64_two (S754_finite false 4503599627370496 (-30)))
               = S754_finite false 4503599627370496 (-75)) by reflexivity.
  assert (Ht : F64.div
                 (F64.mul
                    (PerspectiveCamera.focalLengthToFieldOfView (fun x => x)
                       (S754_finite false 4503599627370496 (-30))
                       (S754_finite false 4503599627370496 (-52))) M_PI) f64_360
               = S754_finite false 4503599627370496 (-75)) by reflexivity.
  assert (Hx : value (S754_finite false 4503599627370496 (-75)) = (/ 8388608)%R).
  { cbn [value cond_Zopp].
    replace (pow2 (-75)) with (/ 37778931862957161709568)%R
      by (symmetry; exact (pow2_neg 75 ltac:(lia))).
    lra. }
  apply (focalLength_round_trip (fun x => x) (fun x => x)
           (S754_finite false 4503599627370496 (-30))
           (S754_finite false 4503599627370496 (-52))).
  - reflexivity.
  - reflexivity.
  - rewrite Hv by lia. split; apply pow2_le; lia.
  - rewrite Hv by lia. split; apply pow2_le; lia.
  - rewrite !Hv by lia.
    replace (52 + -30)%Z with 22%Z by lia.
    apply Rle_trans with (pow2 22); [apply pow2_le; lia|].
    pose proof (pow2_pos 22). lra.
  - rewrite Hq. split; [reflexivity|]. rewrite Hx, pow2_m44.
    apply atan_small; lra.
  - rewrite Ht. split; [reflexivity|]. rewrite Hx, pow2_m44.
    apply tan_small; lra.
Defined.

(** C7 fails as stated: the default aperture 41.2136 and two
    neighbouring focal lengths, 60.000000000000014 and the binary64
    number after it.  Both give the same quotient
    [aperture / (2.0 * length)], hence the same field of view and the
    same focal length on the way back, whatever [atan] and [tan]
    return: the round trip cannot reproduce both. *)
Lemma focalLength_round_trip_not_exact :
  let aperture := default_aperture in
  let length1 := S754_finite false 8444249301319682 (-47) in
  let length2 := S754_finite false 8444249301319683 (-47) in
  F64.valid aperture = true /\ F64.valid length1 = true /\
  F64.valid length2 = true /\ length1 <> length2 /\
  forall c_atan c_tan : double -> double,
    let round_trip length :=
      PerspectiveCamera.fieldOfViewToFocalLength c_tan
        (PerspectiveCamera.focalLengthToFieldOfView c_atan length aperture)
        aperture in
    round_trip length1 = round_trip length2 /\
    ~ (round_trip length1 = length1 /\ round_trip length2 = length2).
Proof.
  cbv zeta. repeat (split; [reflexivity|]). split; [discriminate|].
  intros c_atan c_tan.
  assert (Heq : PerspectiveCamera.focalLengthToFieldOfView c_atan
                  (S754_finite false 8444249301319682 (-47)) default_aperture
                = PerspectiveCamera.focalLengthToFieldOfView c_atan
                  (S754_finite false 8444249301319683 (-47)) default_aperture).
  { unfold PerspectiveCamera.focalLengthToFieldOfView. do 2 f_equal. }
  split.
  - now rewrite Heq.
  - rewrite Heq. intros [H1 H2]. rewrite H1 in H2. discriminate.
Qed.

(** *** Sign symmetry of the arithmetic *)

Lemma same_number_refl x : same_number x x.
Proof. destruct x; cbn; auto. Qed.

Lemma same_number_trans x y z :
  same_number x y -> same_number y z -> same_number x z.
Proof.
  destruct x, y; cbn; intros H1; try discriminate H1;
    try (injection H1 as -> || rewrite <- H1); auto.
  all: destruct z; cbn; auto; intros H2; try discriminate H2; congruence.
Qed.

Lemma same_number_abs x y : same_number x y -> SFabs x = SFabs y.
Proof.
  destruct x, y; cbn; intros H; try discriminate H; try reflexivity;
    now injection H as -> -> ->.
Qed.

Lemma SFabs_opp x : SFabs (SFopp x) = SFabs x.
Proof. now destruct x. Qed.

Lemma binary_round_aux_opp prec emax s m e l :
  binary_round_aux prec emax (negb s) m e l
  = SFopp (binary_round_aux prec emax s m e l).
Proof.
  unfold binary_round_aux.
  destruct (shr_fexp prec emax m e l) as [mrs e'].
  destruct (shr_fexp prec emax _ e' loc_Exact) as [mrs' e''].
  destruct (shr_m mrs'); [reflexivity | | reflexivity].
  now destruct (Z.leb e'' (emax - prec)).
Qed.

Lemma binary_round_opp prec emax s m e :
  binary_round prec emax (negb s) m e = SFopp (binary_round prec emax s m e).
Proof.
  unfold binary_round. destruct (shl_align m e _) as [mz ez].
  apply binary_round_aux_opp.
Qed.

Lemma SFmul_opp_r prec emax x y :
  SFmul prec emax x (SFopp y) = SFopp (SFmul prec emax x y).
Proof.
  destruct x as [sx|sx| |sx mx ex], y as [sy|sy| |sy my ey]; cbn;
    try reflexivity; try (now rewrite <- negb_xorb_r).
  rewrite <- negb_xorb_r. apply binary_round_aux_opp.
Qed.

Lemma SFadd_opp prec emax x y :
  same_number (SFadd prec emax (SFopp x) (SFopp y))
              (SFopp (SFadd prec emax x y)).
Proof.
  destruct x as [sx|sx| |sx mx ex], y as [sy|sy| |sy my ey];
    try (destruct sx, sy; cbn; auto; fail);
    try (cbn; auto; fail).
  cbn [SFopp SFadd].
  set (X := Z.pos (shl_align mx ex (Z.min ex ey)).1).
  set (Y := Z.pos (shl_align my ey (Z.min ex ey)).1).
  replace (cond_Zopp (negb sx) X + cond_Zopp (negb sy) Y)%Z
    with (- (cond_Zopp sx X + cond_Zopp sy Y))%Z
    by (destruct sx, sy; cbn; lia).
  destruct (cond_Zopp sx X + cond_Zopp sy Y)%Z as [|p|p];
    [change (- 0)%Z with 0%Z | change (- Z.pos p)%Z with (Z.neg p)
     | change (- Z.neg p)%Z with (Z.pos p)]; cbn [binary_normalize].
  - exact I.
  - pose proof (binary_round_opp prec emax false p (Z.min ex ey)) as E.
    cbn [negb] in E. rewrite <- E. apply same_number_refl.
  - pose proof (binary_round_opp prec emax true p (Z.min ex ey)) as E.
    cbn [negb] in E. rewrite <- E. apply same_number_refl.
Qed.

Lemma SFadd_same_l prec emax x x' y :
  same_number x x' ->
  same_number (SFadd prec emax x y) (SFadd prec emax x' y).
Proof.
  intros H.
  destruct x as [sx|sx| |sx mx ex], x' as [sx'|sx'| |sx' mx' ex']; cbn in H;
    try discriminate H.
  - destruct y as [sy|sy| |sy my ey]; cbn; auto.
    destruct sx, sy, sx'; cbn; auto.
  - injection H as ->. apply same_number_refl.
  - apply same_number_refl.
  - injection H as -> -> ->. apply same_number_refl.
Qed.

(** The magnitude of the dot product does not change when one of the
    two vectors is negated. *)
Lemma abs_dot_neg (n d : Vec3) :
  F64.abs (Vec3_dot n (Vec3_neg d)) = F64.abs (Vec3_dot n d).
Proof.
  unfold Vec3_dot, Vec3_neg, F64.abs, F64.add, F64.mul, F64.opp. cbn [vx vy vz].
  rewrite !SFmul_opp_r.
  set (p1 := SFmul _ _ (vx n) (vx d)). set (p2 := SFmul _ _ (vy n) (vy d)).
  set (p3 := SFmul _ _ (vz n) (vz d)).
  transitivity (SFabs (SFopp (SFadd F64.prec F64.emax
                                (SFadd F64.prec F64.emax p1 p2) p3)));
    [apply same_number_abs | apply SFabs_opp].
  eapply same_number_trans; [apply SFadd_same_l, SFadd_opp | apply SFadd_opp].
Qed.

(** A surface that faces the ray is lit fully, one seen edge-on is
    black; the normal shader maps the normal [(0, 0, 1)] to the colour
    [(0.5, 0.5, 1)]. *)
Example DiffuseShader_facing :
  let up := {| vx := F64.zero; vy := F64.zero; vz := F64.one |} in
  let side := {| vx := F64.one; vy := F64.zero; vz := F64.zero |} in
  let ray := grid_camera 0 0 F64.half F64.half in
  DiffuseShader (RGBA.gray f32_half) up up ray = RGBA.gray f32_half /\
  DiffuseShader (RGBA.gray f32_half) up side ray = RGBA.black /\
  NormalShader (RGBA.gray F32.one) up up ray = RGBA.rgb f32_half f32_half F32.one.
Proof. repeat split; reflexivity. Qed.

(** ** C8: two-sided diffuse shading *)

(** C8: the Diffuse shader returns the configured colour scaled by
    [|normal . rayDirection|], and so the same colour for a ray and for
    the ray with the opposite direction. *)
Theorem DiffuseShader_two_sided (d : RGBA.t) (p n : Vec3) (ray : Ray) :
  DiffuseShader d p n ray
  = RGBA.scale d (F32.of_double (F64.abs (Vec3_dot n (dir ray)))) /\
  DiffuseShader d p n (setDir ray (Vec3_neg (dir ray)))
  = DiffuseShader d p n ray.
Proof.
  split; [reflexivity|].
  unfold DiffuseShader. cbn [dir setDir]. now rewrite abs_dot_neg.
Qed.

(** *** The counter and the jitter table *)

Lemma size_wrap_add_l a b : size_wrap (size_wrap a + b) = size_wrap (a + b).
Proof. unfold size_wrap. now rewrite N.Div0.add_mod_idemp_l. Qed.

Lemma jitter_load (t : LevelSetRayTracer) (rand : list double) (n : N) :
  mRand t = Some rand -> length rand = 16%nat ->
  load rand (N.land (size_wrap n) 15) = Some (jitter t n).
Proof.
  intros Hr Hl. rewrite land_15_mod, size_wrap_mod_16.
  unfold load, jitter. rewrite Hr. cbn [default].
  assert (Hlt : (N.to_nat (n mod 16) < length rand)%nat).
  { pose proof (N.mod_upper_bound n 16). lia. }
  destruct (lookup_lt_is_Some_2 rand _ Hlt) as [x Hx].
  rewrite Hx. f_equal. symmetry. now apply nth_lookup_Some.
Qed.

Lemma jitter_mod_16 (t : LevelSetRayTracer) (n n' : N) :
  n mod 16 = n' mod 16 -> jitter t n = jitter t n'.
Proof. unfold jitter. now intros ->. Qed.

Lemma jitter_rays_mod_16 (t : LevelSetRayTracer) i j k (n n' : N) :
  n mod 16 = n' mod 16 -> jitter_rays t i j k n = jitter_rays t i j k n'.
Proof.
  revert n n'. induction k as [|k IH]; intros n n' H; [reflexivity|].
  cbn [jitter_rays].
  assert (H1 : (n + 1) mod 16 = (n' + 1) mod 16).
  { rewrite <- (N.Div0.add_mod_idemp_l n), <- (N.Div0.add_mod_idemp_l n'). now rewrite H. }
  assert (H2 : (n + 2) mod 16 = (n' + 2) mod 16).
  { rewrite <- (N.Div0.add_mod_idemp_l n), <- (N.Div0.add_mod_idemp_l n'). now rewrite H. }
  now rewrite (jitter_mod_16 t n n' H), (jitter_mod_16 t _ _ H1), (IH _ _ H2).
Qed.

Lemma shaded_mod_16 (t : LevelSetRayTracer) i j bg (n n' : N) :
  n mod 16 = n' mod 16 -> shaded t i j bg n = shaded t i j bg n'.
Proof. intros H. unfold shaded. now rewrite (jitter_rays_mod_16 t i j _ n n' H). Qed.

Lemma length_jitter_rays (t : LevelSetRayTracer) i j k n :
  length (jitter_rays t i j k n) = k.
Proof. revert n. induction k as [|k IH]; intros n; cbn; [reflexivity | now rewrite IH]. Qed.

(** The loop over the sub-pixels. *)
Lemma subpixels_run (t : LevelSetRayTracer) i j bg fuel lo c n :
  fuel = O \/ (exists rand, mRand t = Some rand /\ length rand = 16%nat) ->
  for_loop fuel lo (subpixel_step t i j bg) (c, size_wrap n)
  = Some (fold_left RGBA.add_assign
            (map (sample t bg) (jitter_rays t i j fuel n)) c,
          size_wrap (n + 2 * N.of_nat fuel)).
Proof.
  revert lo c n. induction fuel as [|fuel IH]; intros lo c n Hok.
  - cbn. now rewrite N.add_0_r.
  - destruct Hok as [Hz|(rand & Hr & Hl)]; [discriminate|].
    cbn [for_loop subpixel_step]. rewrite Hr. cbn.
    rewrite (jitter_load t rand n Hr Hl). cbn.
    rewrite !size_wrap_add_l, (jitter_load t rand (n + 1) Hr Hl). cbn.
    rewrite IH by eauto.
    cbn [jitter_rays map fold_left].
    now replace (n + 2 + 2 * N.of_nat fuel) with (n + 2 * N.of_nat (S fuel)) by lia.
Qed.

(** One pixel. *)
Lemma trace_pixel_step (t : LevelSetRayTracer) (fm : Film.t) (n i j : N) :
  Film.wf fm -> jitter_ok t -> i < Film.mWidth fm -> j < Film.mHeight fm ->
  exists bg,
    load (Film.mPixels fm) (i + j * Film.mWidth fm) = Some bg /\
    trace_pixel t j i (fm, size_wrap n)
    = Some (Film.with_pixels fm
              (<[N.to_nat (i + j * Film.mWidth fm) := shaded t i j bg n]>
                 (Film.mPixels fm)),
            size_wrap (n + 2 * mSubPixels t)).
Proof.
  intros Hwf [Hs Hok] Hi Hj. pose proof Hwf as (Hfit & Hsz & Hlen).
  destruct (offset_small fm i j Hwf Hi Hj) as [Hoff Hlt].
  destruct (load_is_Some (Film.mPixels fm) (i + j * Film.mWidth fm)) as [bg Hbg];
    [lia|].
  exists bg. split; [exact Hbg|].
  unfold trace_pixel. rewrite pixel_load by assumption. rewrite Hbg. cbn.
  unfold for_range. rewrite N.sub_0_r.
  rewrite subpixels_run.
  2:{ destruct Hok as [->|Hr]; [left; reflexivity | right; exact Hr]. }
  cbn. unfold Film.set_pixel. rewrite Hoff.
  apply N.ltb_lt in Hi, Hj. rewrite Hi, Hj. cbn.
  rewrite store_Some by lia. cbn. rewrite N2Nat.id. reflexivity.
Qed.

Lemma run_spec (t : LevelSetRayTracer) (film : Film.t) (j0 j1 : N) :
  Film.wf film -> jitter_ok t -> j0 <= j1 -> j1 <= Film.mHeight film ->
  exists film',
    run t (j0, j1) film = Some film' /\
    Film.wf film' /\
    Film.mWidth film' = Film.mWidth film /\
    Film.mHeight film' = Film.mHeight film /\
    forall i j, i < Film.mWidth film -> j < Film.mHeight film ->
      exists bg,
        Film.pixel film i j = Some bg /\
        Film.pixel film' i j
        = Some (if (j0 <=? j) && (j <? j1)
                then shaded t i j bg (counter_at t (Film.mWidth film) j0 i j)
                else bg).
Proof.
  intros Hwf Hok Hle Hj1. pose proof Hwf as (Hfit & Hsz & Hlen).
  set (W := Film.mWidth film) in *. set (H := Film.mHeight film) in *.
  set (px0 := Film.mPixels film) in *.
  pose (Seen := fun (j ic i' j' : N) => j0 <= j' /\ (j' < j \/ (j' = j /\ i' < ic))).
  pose (Inv := fun (j ic : N) (st : Film.t * N) =>
    Film.mWidth st.1 = W /\ Film.mHeight st.1 = H /\
    Film.mSize st.1 = Film.mSize film /\
    length (Film.mPixels st.1) = length px0 /\
    st.2 = size_wrap (2 * mSubPixels t * ((j - j0) * W + ic)) /\
    forall i' j', i' < W -> j' < H ->
      exists bg, load px0 (i' + j' * W) = Some bg /\
        (Seen j ic i' j' ->
           load (Film.mPixels st.1) (i' + j' * W)
           = Some (shaded t i' j' bg (counter_at t W j0 i' j'))) /\
        (~ Seen j ic i' j' -> load (Film.mPixels st.1) (i' + j' * W) = Some bg)).
  assert (Hwf' : forall j ic st, Inv j ic st -> Film.wf st.1).
  { intros j ic st (HW' & HH' & HS' & HL' & _). unfold Film.wf.
    rewrite HW', HH', HS', HL'. auto. }
  unfold run. cbn [fst snd]. unfold Film.width. fold W.
  destruct (for_range_inv (fun j st => Inv j 0 st)
              (fun j st => for_range 0 W (trace_pixel t j) st) j0 j1 (film, 0))
    as (st & Hrun & HI).
  - exact Hle.
  - unfold Inv. cbn [fst snd]. repeat split; try reflexivity.
    + rewrite N.sub_diag. cbn. now rewrite N.mul_0_r.
    + intros i' j' Hi' Hj'.
      destruct (load_is_Some px0 (i' + j' * W)) as [bg Hbg].
      { destruct (offset_small film i' j' Hwf Hi' Hj') as [_ Hlt]. fold W in Hlt. lia. }
      exists bg. split; [exact Hbg|]. split; [|auto].
      intros (? & [?|[? ?]]); lia.
  - intros j st Hj HIj.
    destruct (for_range_inv (fun i st => Inv j i st) (trace_pixel t j) 0 W st)
      as (st' & Hrun' & HI').
    + lia.
    + exact HIj.
    + intros i [fm n] Hi HIi. pose proof (Hwf' _ _ _ HIi) as Hwfm.
      destruct HIi as (HW' & HH' & HS' & HL' & Hn & Hpix). cbn [fst snd] in *.
      subst n.
      destruct (trace_pixel_step t fm (2 * mSubPixels t * ((j - j0) * W + i)) i j
                  Hwfm Hok) as (bg & Hbg & Hstep); [lia | lia |].
      rewrite HW' in Hbg, Hstep. rewrite Hstep.
      eexists. split; [reflexivity|]. unfold Inv. cbn [fst snd Film.with_pixels
        Film.mWidth Film.mHeight Film.mSize Film.mPixels].
      split; [exact HW'|]. split; [exact HH'|]. split; [exact HS'|].
      split; [now rewrite length_insert|]. split.
      { f_equal. lia. }
      intros i' j' Hi' Hj'.
      destruct (Hpix i' j' Hi' Hj') as (bg' & Hbg' & Hseen & Hunseen).
      exists bg'. split; [exact Hbg'|].
      assert (Hin : i + j * W < N.of_nat (length (Film.mPixels fm))).
      { rewrite HL'. destruct (offset_small film i j Hwf) as [_ Hlt]; [lia | lia |].
        fold W in Hlt. lia. }
      destruct (decide (i' = i /\ j' = j)) as [[-> ->]|Hne].
      * assert (Hb : bg' = bg).
        { rewrite Hunseen in Hbg; [congruence|]. intros (? & [?|[? ?]]); lia. }
        subst bg'. rewrite load_insert_eq by exact Hin. split.
        -- intros _. reflexivity.
        -- intros Hns. exfalso. apply Hns. unfold Seen. lia.
      * rewrite load_insert_ne.
        2:{ intros Heq. apply Hne.
            destruct (index_inj W i i' j j'); [lia | lia | lia | auto]. }
        split.
        -- intros Hs. apply Hseen. unfold Seen in *. lia.
        -- intros Hns. apply Hunseen. unfold Seen in *. lia.
    + exists st'. split; [exact Hrun'|].
      destruct HI' as (HW' & HH' & HS' & HL' & Hn & Hpix).
      unfold Inv. repeat (split; [assumption|]). split.
      { rewrite Hn. f_equal.
        replace (N.succ j - j0) with (j - j0 + 1) by lia. lia. }
      intros i' j' Hi' Hj'.
      destruct (Hpix i' j' Hi' Hj') as (bg' & Hbg' & Hseen & Hunseen).
      exists bg'. split; [exact Hbg'|]. split.
      * intros Hs. apply Hseen. unfold Seen in *. lia.
      * intros Hns. apply Hunseen. unfold Seen in *. lia.
  - rewrite Hrun. cbn. eexists. split; [reflexivity|].
    pose proof (Hwf' _ _ _ HI) as Hwfs.
    destruct HI as (HW' & HH' & HS' & HL' & Hn & Hpix).
    split; [exact Hwfs|]. split; [exact HW'|]. split; [exact HH'|].
    intros i j Hi Hj.
    destruct (Hpix i j Hi Hj) as (bg & Hbg & Hseen & Hunseen).
    exists bg. rewrite !pixel_load by (assumption || lia). rewrite HW'. fold W.
    split; [exact Hbg|].
    destruct ((j0 <=? j) && (j <? j1)) eqn:E.
    + apply andb_prop in E as [E1%N.leb_le E2%N.ltb_lt].
      apply Hseen. unfold Seen. lia.
    + apply Hunseen. unfold Seen. intros (? & [?|[? ?]]).
      * apply andb_false_iff in E as [E%N.leb_gt|E%N.ltb_ge]; lia.
      * lia.
Qed.

Lemma owner_disjoint (r : N * N) (rest : list (N * N)) (j : N) :
  Forall (disjoint_ranges r) rest -> r.1 <= j < r.2 -> owner rest j = None.
Proof.
  intros Hd Hj. induction rest as [|r' rest IH]; [reflexivity|].
  apply Forall_cons in Hd as [Hr' Hd]. unfold owner. cbn [List.find].
  destruct ((r'.1 <=? j) && (j <? r'.2)) eqn:E.
  - apply andb_prop in E as [E1%N.leb_le E2%N.ltb_lt].
    unfold disjoint_ranges in Hr'. lia.
  - apply IH, Hd.
Qed.

Lemma owner_Some (schedule : list (N * N)) (j : N) (r : N * N) :
  owner schedule j = Some r -> r.1 <= j < r.2.
Proof.
  unfold owner. intros H. apply List.find_some in H as [_ H].
  apply andb_prop in H as [E1%N.leb_le E2%N.ltb_lt]. lia.
Qed.

Lemma jitter_ok_copy (t : LevelSetRayTracer) :
  jitter_ok t -> jitter_ok (LevelSetRayTracer_copy t).
Proof. exact (fun H => H). Qed.

Lemma shaded_copy (t : LevelSetRayTracer) i j bg n :
  shaded (LevelSetRayTracer_copy t) i j bg n = shaded t i j bg n.
Proof.
  unfold shaded, frac, sample. cbn [LevelSetRayTracer_copy mSubPixels mInter
    mShader mCamera]. do 3 f_equal.
  generalize (N.to_nat (mSubPixels t)). intros k. revert n.
  induction k as [|k IH]; intros n; [reflexivity|].
  cbn [jitter_rays]. now rewrite IH.
Qed.

Lemma parallel_for_spec (t : LevelSetRayTracer) (schedule : list (N * N))
    (film : Film.t) :
  Film.wf film -> jitter_ok t -> schedule_ok (Film.mHeight film) schedule ->
  exists film',
    parallel_for t schedule film = Some film' /\
    Film.wf film' /\
    Film.mWidth film' = Film.mWidth film /\
    Film.mHeight film' = Film.mHeight film /\
    forall i j, i < Film.mWidth film -> j < Film.mHeight film ->
      exists bg,
        Film.pixel film i j = Some bg /\
        Film.pixel film' i j
        = Some (match owner schedule j with
                | Some r => shaded t i j bg (counter_at t (Film.mWidth film) r.1 i j)
                | None => bg
                end).
Proof.
  intros Hwf Hok. revert film Hwf.
  induction schedule as [|r rest IH]; intros film Hwf Hs.
  - exists film. split; [reflexivity|]. split; [exact Hwf|].
    split; [reflexivity|]. split; [reflexivity|].
    intros i j Hi Hj. rewrite pixel_load by assumption. cbn [owner List.find].
    destruct (load_is_Some (Film.mPixels film) (i + j * Film.mWidth film)) as [bg Hbg].
    { destruct (offset_small film i j Hwf Hi Hj) as [_ Hlt].
      destruct Hwf as (_ & _ & Hlen). lia. }
    exists bg. auto.
  - destruct Hs as (Hle & Hhi & Hdis & Hrest).
    destruct (run_spec (LevelSetRayTracer_copy t) film r.1 r.2 Hwf
                (jitter_ok_copy t Hok) Hle Hhi)
      as (film1 & Hrun1 & Hwf1 & HW1 & HH1 & Hpix1).
    destruct (IH film1 Hwf1) as (film2 & Hrun2 & Hwf2 & HW2 & HH2 & Hpix2).
    { now rewrite HH1. }
    exists film2. split.
    { cbn [parallel_for]. destruct r as [b e]. cbn [fst snd] in Hrun1.
      rewrite Hrun1. exact Hrun2. }
    split; [exact Hwf2|]. split; [now rewrite HW2|]. split; [now rewrite HH2|].
    intros i j Hi Hj.
    destruct (Hpix1 i j Hi Hj) as (bg & Hbg & Hp1).
    rewrite shaded_copy in Hp1.
    change (counter_at (LevelSetRayTracer_copy t)) with (counter_at t) in Hp1.
    destruct (Hpix2 i j) as (bg1 & Hbg1 & Hp2); [congruence | congruence |].
    exists bg. split; [exact Hbg|]. rewrite Hp2, HW1.
    rewrite Hp1 in Hbg1. injection Hbg1 as <-.
    unfold owner at 2. cbn [List.find]. fold (owner rest j).
    destruct ((r.1 <=? j) && (j <? r.2)) eqn:E.
    + apply andb_prop in E as [E1%N.leb_le E2%N.ltb_lt].
      rewrite (owner_disjoint r rest j Hdis) by lia. reflexivity.
    + reflexivity.
Qed.

(** Two films of the same size with the same pixels are the same film. *)
Lemma film_ext (f1 f2 : Film.t) :
  Film.wf f1 -> Film.wf f2 ->
  Film.mWidth f1 = Film.mWidth f2 -> Film.mHeight f1 = Film.mHeight f2 ->
  (forall i j, i < Film.mWidth f1 -> j < Film.mHeight f1 ->
     Film.pixel f1 i j = Film.pixel f2 i j) ->
  f1 = f2.
Proof.
  intros Hwf1 Hwf2 HW HH Hpix.
  pose proof Hwf1 as (Hfit1 & Hsz1 & Hlen1). pose proof Hwf2 as (Hfit2 & Hsz2 & Hlen2).
  assert (Hpx : Film.mPixels f1 = Film.mPixels f2).
  { apply list_eq. intros idx.
    destruct (decide (N.of_nat idx < Film.mWidth f1 * Film.mHeight f1)) as [Hlt|Hge].
    - assert (HWpos : 0 < Film.mWidth f1) by nia.
      pose proof (N.mod_upper_bound (N.of_nat idx) (Film.mWidth f1) ltac:(lia)) as Hi.
      assert (Hj : N.of_nat idx / Film.mWidth f1 < Film.mHeight f1).
      { apply N.Div0.div_lt_upper_bound. lia. }
      specialize (Hpix _ _ Hi Hj).
      rewrite !pixel_load in Hpix by (assumption || congruence).
      rewrite <- HW in Hpix.
      replace (N.of_nat idx mod Film.mWidth f1
               + N.of_nat idx / Film.mWidth f1 * Film.mWidth f1)
        with (N.of_nat idx) in Hpix.
      + unfold load in Hpix. now rewrite Nat2N.id in Hpix.
      + rewrite (N.div_mod (N.of_nat idx) (Film.mWidth f1)) at 1 by lia. lia.
    - rewrite !lookup_ge_None_2; [reflexivity | |]; lia. }
  destruct f1, f2; cbn in *. congruence.
Qed.

Example scene_tracer_1_ctor :
  LevelSetRayTracer_ctor two_level_rand01 half_plane
    (MatteShader (RGBA.gray F32.one)) grid_camera 1 0 = Some scene_tracer_1.
Proof. reflexivity. Qed.

Example scene_tracer_2_ctor :
  LevelSetRayTracer_ctor two_level_rand01 half_plane
    (MatteShader (RGBA.gray F32.one)) grid_camera 2 0 = Some scene_tracer_2.
Proof. reflexivity. Qed.

Lemma scene_tracer_2_jitter_ok : jitter_ok scene_tracer_2.
Proof. split; [reflexivity|]. right. eexists. split; reflexivity. Qed.

Lemma setPixelSamples_jitter_ok rand01 t pixelSamples seed t' :
  pixelSamples < 2 ^ 64 ->
  setPixelSamples rand01 t pixelSamples seed = Some t' -> jitter_ok t'.
Proof.
  unfold setPixelSamples. intros Hp H.
  destruct (mIsMaster t && (0 <? pixelSamples)); [|discriminate].
  injection H as <-. unfold jitter_ok. cbn. split; [lia|].
  destruct (0 <? pixelSamples - 1) eqn:E.
  - right. eexists. split; reflexivity.
  - left. apply N.ltb_ge in E. lia.
Qed.

Lemma owner_unique (height : N) (schedule : list (N * N)) (j : N) (r : N * N) :
  schedule_ok height schedule -> In r schedule -> r.1 <= j < r.2 ->
  owner schedule j = Some r.
Proof.
  induction schedule as [|r0 rest IH]; intros Hs Hin Hj; [destruct Hin|].
  destruct Hs as (_ & _ & Hdis & Hrest). unfold owner. cbn [List.find].
  destruct Hin as [->|Hin].
  - now rewrite in_range_true by lia.
  - destruct ((r0.1 <=? j) && (j <? r0.2)) eqn:E.
    + apply andb_prop in E as [E1%N.leb_le E2%N.ltb_lt].
      rewrite Forall_forall in Hdis.
      specialize (Hdis r (proj2 (list_elem_of_In _ _) Hin)).
      unfold disjoint_ranges in Hdis. lia.
    + now apply IH.
Qed.

(** The order in which the sub-ranges take effect does not matter. *)
Lemma parallel_for_order (t : LevelSetRayTracer) (schedule schedule' : list (N * N))
    (film : Film.t) :
  Film.wf film -> jitter_ok t ->
  schedule_ok (Film.mHeight film) schedule ->
  schedule_ok (Film.mHeight film) schedule' ->
  Permutation schedule schedule' ->
  parallel_for t schedule film = parallel_for t schedule' film.
Proof.
  intros Hwf Hok Hs Hs' Hperm.
  destruct (parallel_for_spec t schedule film Hwf Hok Hs)
    as (f1 & Hr1 & Hwf1 & HW1 & HH1 & Hp1).
  destruct (parallel_for_spec t schedule' film Hwf Hok Hs')
    as (f2 & Hr2 & Hwf2 & HW2 & HH2 & Hp2).
  rewrite Hr1, Hr2. f_equal.
  apply film_ext; try assumption; try congruence.
  intros i j Hi Hj. rewrite HW1 in Hi. rewrite HH1 in Hj.
  destruct (Hp1 i j Hi Hj) as (bg & Hbg & ->).
  destruct (Hp2 i j Hi Hj) as (bg' & Hbg' & ->).
  assert (bg' = bg) by congruence. subst bg'.
  assert (Hown : owner schedule' j = owner schedule j).
  { destruct (owner schedule j) as [r|] eqn:E.
    - pose proof (owner_Some _ _ _ E) as Hj'.
      apply List.find_some in E as [Hin _].
      apply (owner_unique (Film.mHeight film)); [assumption | | assumption].
      now apply (Permutation_in _ Hperm).
    - destruct (owner schedule' j) as [r'|] eqn:E'; [|reflexivity].
      pose proof (owner_Some _ _ _ E') as Hj'.
      apply List.find_some in E' as [Hin _].
      apply (Permutation_in _ (Permutation_sym Hperm)) in Hin.
      rewrite (owner_unique (Film.mHeight film) schedule j r' Hs Hin Hj') in E.
      discriminate. }
  now rewrite Hown.
Qed.

(** ** C1: threaded and unthreaded traces *)

Lemma counter_at_aligned (t : LevelSetRayTracer) (W b i j : N) :
  (2 * mSubPixels t * W * b) mod 16 = 0 -> b <= j ->
  counter_at t W b i j mod 16 = counter_at t W 0 i j mod 16.
Proof.
  intros Ha Hb. unfold counter_at. rewrite N.sub_0_r.
  assert (Hj : j = j - b + b) by lia. set (d := j - b) in *. clearbody d. subst j.
  replace (2 * mSubPixels t * ((d + b) * W + i))
    with (2 * mSubPixels t * (d * W + i) + 2 * mSubPixels t * W * b) by ring.
  rewrite N.Div0.add_mod, Ha, N.add_0_r. now rewrite N.Div0.mod_mod.
Qed.

(** Every schedule is aligned when [(pixelSamples - 1) * width] is a
    multiple of 8. *)
Lemma schedule_aligned_mult_8 (t : LevelSetRayTracer) (W : N)
    (schedule : list (N * N)) :
  (mSubPixels t * W) mod 8 = 0 -> schedule_aligned t W schedule.
Proof.
  intros H. apply N.Lcm0.mod_divide in H as [k Hk].
  unfold schedule_aligned. apply Forall_forall. intros r _.
  replace (2 * mSubPixels t * W * r.1) with (k * r.1 * 16)
    by (rewrite <- (N.mul_assoc 2), Hk; ring).
  apply N.Div0.mod_mul.
Qed.

(** C1 (as the code has it): a threaded trace gives the same film as the
    unthreaded one when every sub-range that [parallel_for] hands out
    starts at a row [b] with [2 * (pixelSamples - 1) * width * b] a
    multiple of 16, which is so for every split of the rows when
    [(pixelSamples - 1) * width] is a multiple of 8.  The counter [n]
    that selects the jitter offsets restarts at 0 in every sub-range. *)
Theorem trace_threaded_aligned (t : LevelSetRayTracer) (film : Film.t)
    (schedule : list (size_t * size_t)) :
  Film.wf film -> jitter_ok t ->
  schedule_ok (Film.mHeight film) schedule ->
  schedule_covers (Film.mHeight film) schedule ->
  schedule_aligned t (Film.mWidth film) schedule ->
  exists film',
    trace t false schedule film = Some film' /\
    trace t true schedule film = Some film'.
Proof.
  intros Hwf Hok Hs Hcov Hal. unfold trace, Film.height.
  destruct (run_spec t film 0 (Film.mHeight film) Hwf Hok)
    as (fs & Hrs & Hwfs & HWs & HHs & Hps); [lia | lia |].
  destruct (parallel_for_spec t schedule film Hwf Hok Hs)
    as (fp & Hrp & Hwfp & HWp & HHp & Hpp).
  exists fs. split; [exact Hrs|]. rewrite Hrp. f_equal.
  apply film_ext; try assumption; try congruence.
  intros i j Hi Hj. rewrite HWp in Hi. rewrite HHp in Hj.
  destruct (Hps i j Hi Hj) as (bg & Hbg & ->).
  destruct (Hpp i j Hi Hj) as (bg' & Hbg' & ->).
  assert (bg' = bg) by congruence. subst bg'. f_equal.
  rewrite in_range_true by lia.
  destruct (owner schedule j) as [r|] eqn:Hown.
  - apply shaded_mod_16, counter_at_aligned.
    + unfold schedule_aligned in Hal. rewrite Forall_forall in Hal.
      apply Hal. unfold owner in Hown. apply List.find_some in Hown as [Hin _].
      now apply list_elem_of_In.
    + apply owner_Some in Hown. lia.
  - exfalso. now apply (Hcov j Hj).
Qed.

Lemma trace_threaded_aligned_witness :
  exists film',
    trace scene_tracer_2 false [(1, 2); (0, 1)] (Film.create 8 2) = Some film' /\
    trace scene_tracer_2 true [(1, 2); (0, 1)] (Film.create 8 2) = Some film'.
Proof.
  apply (trace_threaded_aligned scene_tracer_2 (Film.create 8 2) [(1, 2); (0, 1)]).
  - apply create_wf. reflexivity.
  - exact scene_tracer_2_jitter_ok.
  - cbn. repeat split; try lia.
    + apply Forall_cons. split; [right; cbn; lia | constructor].
    + constructor.
  - intros j Hj. change (Film.mHeight (Film.create 8 2)) with 2 in Hj.
    assert (Hc : j = 0 \/ j = 1) by lia. destruct Hc as [-> | ->]; discriminate.
  - repeat constructor.
Defined.

(** C1 fails as stated: in the small scene, two samples per pixel, a
    film of one column and two rows.  Unthreaded, the second row takes
    its jitter offsets from [mRand[2]] and [mRand[3]]; as a sub-range of
    its own it takes them from [mRand[0]] and [mRand[1]], and its pixel
    comes out different. *)
Lemma trace_threaded_differs :
  trace scene_tracer_2 false [(0, 1); (1, 2)] (Film.create 1 2)
  = Some (Film.mk 1 2 2 [RGBA.gray f32_half; RGBA.black]) /\
  trace scene_tracer_2 true [(0, 1); (1, 2)] (Film.create 1 2)
  = Some (Film.mk 1 2 2 [RGBA.gray f32_half; RGBA.gray f32_half]) /\
  trace scene_tracer_2 true [(0, 1); (1, 2)] (Film.create 1 2)
  <> trace scene_tracer_2 false [(0, 1); (1, 2)] (Film.create 1 2).
Proof.
  assert (H1 : trace scene_tracer_2 false [(0, 1); (1, 2)] (Film.create 1 2)
               = Some (Film.mk 1 2 2 [RGBA.gray f32_half; RGBA.black]))
    by (vm_compute; reflexivity).
  assert (H2 : trace scene_tracer_2 true [(0, 1); (1, 2)] (Film.create 1 2)
               = Some (Film.mk 1 2 2 [RGBA.gray f32_half; RGBA.gray f32_half]))
    by (vm_compute; reflexivity).
  split; [exact H1|]. split; [exact H2|]. rewrite H1, H2. discriminate.
Qed.

(** [0 + u < u] never holds. *)
Lemma SFltb_add_zero_irrefl (u : double) :
  F64.ltb (F64.add (F64.of_N 0) u) u = false.
Proof.
  unfold F64.ltb, F64.add, SFltb. change (F64.of_N 0) with (S754_zero false).
  destruct u as [[|]|[|]| |[|] m e]; cbn; try reflexivity;
    rewrite Z.compare_refl, Pos.compare_cont_refl; reflexivity.
Qed.

(** The two traces differ for every jitter generator whose first number
    lies below its third: a wall that reaches up to the third number is hit
    by the sub-pixel ray of the row that is traced as a sub-range of its
    own, and missed by the one of the unthreaded trace. *)
Lemma trace_threaded_differs_any_generator (rand01 : N -> nat -> double) (seed : N) :
  F64.ltb (F64.add (F64.of_N 0) (rand01 seed 0%nat)) (rand01 seed 2%nat) = true ->
  let wall : Intersector :=
    fun ray => if F64.ltb (vx (eye ray)) (rand01 seed 2%nat)
               then Some (eye ray, dir ray) else None in
  forall t,
    LevelSetRayTracer_ctor rand01 wall (MatteShader (RGBA.gray F32.one))
      grid_camera 2 seed = Some t ->
    trace t true [(0, 1); (1, 2)] (Film.create 1 2)
    <> trace t false [(0, 1); (1, 2)] (Film.create 1 2).
Proof.
  intros Hlt wall t Ht.
  assert (Et : t = {| mIsMaster := true; mRand := Some (map (rand01 seed) (seq 0 16));
               mInter := wall; mShader := MatteShader (RGBA.gray F32.one);
               mCamera := grid_camera; mSubPixels := 1 |}).
  { injection Ht as <-. reflexivity. }
  clear Ht. subst t.
  set (t := {| mIsMaster := true; mRand := Some (map (rand01 seed) (seq 0 16));
               mInter := wall; mShader := MatteShader (RGBA.gray F32.one);
               mCamera := grid_camera; mSubPixels := 1 |}).
  assert (Hok : jitter_ok t).
  { split; [reflexivity|]. right. eexists. split; reflexivity. }
  assert (Hwf : Film.wf (Film.create 1 2)) by (apply create_wf; reflexivity).
  unfold trace, Film.height.
  destruct (run_spec t (Film.create 1 2) 0 2 Hwf Hok) as (fs & Hrs & _ & _ & _ & Hps);
    [lia | cbn; lia |].
  destruct (parallel_for_spec t [(0, 1); (1, 2)] (Film.create 1 2) Hwf Hok)
    as (fp & Hrp & _ & _ & _ & Hpp).
  { cbn. repeat split; try lia.
    - apply Forall_cons. split; [left; cbn; lia | constructor].
    - constructor. }
  change (Film.mHeight (Film.create 1 2)) with 2.
  rewrite Hrs, Hrp. intros Heq. injection Heq as ->.
  destruct (Hps 0 1) as (bg & Hbg & Hs); [reflexivity | reflexivity |].
  destruct (Hpp 0 1) as (bg' & Hbg' & Hp); [reflexivity | reflexivity |].
  assert (bg' = bg) by congruence. subst bg'.
  injection Hbg as <-. rewrite Hs in Hp.
  apply (f_equal (fun o => match o with Some c => RGBA.r c | None => F32.zero end))
    in Hp.
  cbv beta iota in Hp. revert Hp.
  change (owner [(0, 1); (1, 2)] 1) with (Some (1, 2)). cbv iota.
  change (counter_at t (Film.mWidth (Film.create 1 2)) 0 0 1) with 2.
  change (counter_at t (Film.mWidth (Film.create 1 2)) (1, 2).1 0 1) with 0.
  change ((0 <=? 1) && (1 <? 2)) with true. cbv iota.
  unfold shaded. change (N.to_nat (mSubPixels t)) with 1%nat.
  cbn [jitter_rays map fold_left].
  change (jitter t 2) with (rand01 seed 2%nat).
  change (jitter t 0) with (rand01 seed 0%nat).
  set (p := sample t RGBA.black (mCamera t 0 1 F64.half F64.half)).
  assert (Hpr : RGBA.r p = F32.one \/ RGBA.r p = F32.zero).
  { unfold p, sample. destruct (mInter t _) as [[? ?]|]; auto. }
  unfold sample. cbn [mInter mShader mCamera t].
  unfold wall at 1 2. cbn [grid_camera eye vx].
  rewrite Hlt, SFltb_add_zero_irrefl.
  cbn [RGBA.r RGBA.scale RGBA.add_assign RGBA.rgb].
  intros Hp.
  destruct Hpr as [Hr | Hr]; rewrite Hr in Hp; vm_compute in Hp; discriminate Hp.
Qed.

(** ** C2: the value written to a pixel *)

Lemma fold_add_assign_channels (l : list RGBA.t) (c : RGBA.t) :
  RGBA.r (fold_left RGBA.add_assign l c)
  = fold_left (fun acc x => F32.add acc (RGBA.r x)) l (RGBA.r c) /\
  RGBA.g (fold_left RGBA.add_assign l c)
  = fold_left (fun acc x => F32.add acc (RGBA.g x)) l (RGBA.g c) /\
  RGBA.b (fold_left RGBA.add_assign l c)
  = fold_left (fun acc x => F32.add acc (RGBA.b x)) l (RGBA.b c).
Proof.
  revert c. induction l as [|x l IH]; intros c; [auto|].
  cbn [fold_left]. destruct (IH (RGBA.add_assign c x)) as (Hr & Hg & Hb).
  rewrite Hr, Hg, Hb. auto.
Qed.

Lemma shaded_channels (t : LevelSetRayTracer) i j bg n :
  let samples := map (sample t bg) (pixel_rays t i j n) in
  RGBA.r (shaded t i j bg n) = F32.mul (channel_sum RGBA.r samples) (frac t) /\
  RGBA.g (shaded t i j bg n) = F32.mul (channel_sum RGBA.g samples) (frac t) /\
  RGBA.b (shaded t i j bg n) = F32.mul (channel_sum RGBA.b samples) (frac t) /\
  RGBA.a (shaded t i j bg n) = F32.one.
Proof.
  unfold shaded, pixel_rays. cbn [map channel_sum RGBA.scale RGBA.rgb
    RGBA.r RGBA.g RGBA.b RGBA.a].
  destruct (fold_add_assign_channels
              (map (sample t bg) (jitter_rays t i j (N.to_nat (mSubPixels t)) n))
              (sample t bg (mCamera t i j F64.half F64.half))) as (-> & -> & ->).
  auto.
Qed.

(** C2 (as the code has it): after a run over the rows [j0 <= j < j1],
    the red, green and blue channels of every pixel of those rows hold
    the equal-weight average of that channel over the
    [pixelSamples = 1 + mSubPixels] samples of the pixel, the weight
    being [frac = 1.0f / (1.0f + mSubPixels)]; a sample is the shader's
    output at the hit point and normal when its ray hits, and the value
    the pixel had before the run otherwise.  The alpha of the pixel is
    not averaged: it is [1.0f]. *)
Theorem run_writes_average (t : LevelSetRayTracer) (film : Film.t) (j0 j1 : size_t) :
  Film.wf film -> jitter_ok t -> j0 <= j1 -> j1 <= Film.mHeight film ->
  exists film',
    run t (j0, j1) film = Some film' /\
    forall i j, i < Film.mWidth film -> j0 <= j -> j < j1 ->
      exists bg written,
        Film.pixel film i j = Some bg /\
        Film.pixel film' i j = Some written /\
        let rays := pixel_rays t i j (counter_at t (Film.mWidth film) j0 i j) in
        let samples :=
          map (fun ray => match mInter t ray with
                          | Some (xyz, nml) => mShader t xyz nml ray
                          | None => bg
                          end) rays in
        N.of_nat (length samples) = 1 + mSubPixels t /\
        RGBA.r written = F32.mul (channel_sum RGBA.r samples) (frac t) /\
        RGBA.g written = F32.mul (channel_sum RGBA.g samples) (frac t) /\
        RGBA.b written = F32.mul (channel_sum RGBA.b samples) (frac t) /\
        RGBA.a written = F32.one.
Proof.
  intros Hwf Hok Hle Hhi.
  destruct (run_spec t film j0 j1 Hwf Hok Hle Hhi) as (film' & Hrun & _ & _ & _ & Hpix).
  exists film'. split; [exact Hrun|].
  intros i j Hi Hj0 Hj1.
  destruct (Hpix i j Hi) as (bg & Hbg & Hw); [lia|].
  rewrite in_range_true in Hw by lia.
  exists bg, (shaded t i j bg (counter_at t (Film.mWidth film) j0 i j)).
  split; [exact Hbg|]. split; [exact Hw|]. cbv zeta.
  split.
  - rewrite length_map. unfold pixel_rays. cbn [length].
    rewrite length_jitter_rays. lia.
  - apply shaded_channels.
Qed.

Lemma run_writes_average_witness :
  exists film',
    run scene_tracer_2 (0, 2) (Film.create 1 2) = Some film' /\
    forall i j, i < 1 -> 0 <= j -> j < 2 ->
      exists bg written,
        Film.pixel (Film.create 1 2) i j = Some bg /\
        Film.pixel film' i j = Some written /\
        let rays := pixel_rays scene_tracer_2 i j (counter_at scene_tracer_2 1 0 i j) in
        let samples :=
          map (fun ray => match mInter scene_tracer_2 ray with
                          | Some (xyz, nml) => mShader scene_tracer_2 xyz nml ray
                          | None => bg
                          end) rays in
        N.of_nat (length samples) = 1 + mSubPixels scene_tracer_2 /\
        RGBA.r written = F32.mul (channel_sum RGBA.r samples) (frac scene_tracer_2) /\
        RGBA.g written = F32.mul (channel_sum RGBA.g samples) (frac scene_tracer_2) /\
        RGBA.b written = F32.mul (channel_sum RGBA.b samples) (frac scene_tracer_2) /\
        RGBA.a written = F32.one.
Proof.
  apply (run_writes_average scene_tracer_2 (Film.create 1 2) 0 2).
  - apply create_wf. reflexivity.
  - exact scene_tracer_2_jitter_ok.
  - lia.
  - cbn. lia.
Defined.

(** C2 fails as stated: one sample per pixel, a pixel that holds a
    half-transparent black and whose ray misses.  Its only sample is
    that colour, and so is the average of its samples; the run writes
    the opaque black. *)
Lemma run_alpha_not_averaged :
  let bg := RGBA.mk F32.zero F32.zero F32.zero f32_half in
  let samples := map (sample scene_tracer_1 bg) (pixel_rays scene_tracer_1 0 0 0) in
  run scene_tracer_1 (0, 1) (Film.mk 1 1 1 [bg]) = Some (Film.mk 1 1 1 [RGBA.black]) /\
  samples = [bg] /\
  average (frac scene_tracer_1) samples = bg /\
  RGBA.black <> average (frac scene_tracer_1) samples.
Proof.
  cbv zeta. split; [vm_compute; reflexivity|]. split; [vm_compute; reflexivity|].
  assert (H : average (frac scene_tracer_1)
                (map (sample scene_tracer_1 (RGBA.mk F32.zero F32.zero F32.zero f32_half))
                   (pixel_rays scene_tracer_1 0 0 0))
              = RGBA.mk F32.zero F32.zero F32.zero f32_half)
    by (vm_compute; reflexivity).
  split; [exact H|]. rewrite H. discriminate.
Qed.

(** ** C5: one sample per pixel *)

Lemma frac_single (t : LevelSetRayTracer) : mSubPixels t = 0 -> frac t = F32.one.
Proof. unfold frac. now intros ->. Qed.

Lemma pixel_elem_of (film : Film.t) i j c :
  Film.pixel film i j = Some c -> c ∈ Film.mPixels film.
Proof.
  unfold Film.pixel. destruct (_ && _); [|discriminate].
  unfold load. apply list_elem_of_lookup_2.
Qed.

(** C5 (as the code has it): with [pixelSamples = 1] the tracer has no
    jitter table ([mRand] is null) and a run never reads one; every
    pixel it writes gets the red, green and blue of the colour of the
    primary ray, the ray through the pixel centre [(0.5, 0.5)]: the
    shader's output where that ray hits and the pixel's previous value
    where it misses.  The alpha written is [1.0f], whatever the alpha of
    that colour. *)
Theorem single_sample_run (rand01 : N -> nat -> double) (inter : Intersector)
    (shader : BaseShader) (camera : BaseCamera) (seed : N) (film : Film.t)
    (j0 j1 : size_t) :
  Film.wf film -> j0 <= j1 -> j1 <= Film.mHeight film ->
  (forall xyz nml ray, RGBA.valid (shader xyz nml ray) = true) ->
  Forall (fun c => RGBA.valid c = true) (Film.mPixels film) ->
  exists t film',
    LevelSetRayTracer_ctor rand01 inter shader camera 1 seed = Some t /\
    mRand t = None /\
    run t (j0, j1) film = Some film' /\
    forall i j, i < Film.mWidth film -> j0 <= j -> j < j1 ->
      exists bg written,
        Film.pixel film i j = Some bg /\
        Film.pixel film' i j = Some written /\
        let ray := camera i j F64.half F64.half in
        let primary := match inter ray with
                       | Some (xyz, nml) => shader xyz nml ray
                       | None => bg
                       end in
        RGBA.r written = RGBA.r primary /\
        RGBA.g written = RGBA.g primary /\
        RGBA.b written = RGBA.b primary /\
        RGBA.a written = F32.one.
Proof.
  intros Hwf Hle Hhi Hsh Hpx.
  eexists. cbn [LevelSetRayTracer_ctor setPixelSamples mIsMaster andb].
  change (0 <? 1) with true. change (0 <? 1 - 1) with false. cbv iota.
  set (t := {| mIsMaster := true; mRand := None; mInter := inter;
               mShader := shader; mCamera := camera; mSubPixels := 1 - 1 |}).
  assert (Hok : jitter_ok t) by (split; [reflexivity | left; reflexivity]).
  destruct (run_spec t film j0 j1 Hwf Hok Hle Hhi) as (film' & Hrun & _ & _ & _ & Hpix).
  exists film'. split; [reflexivity|]. split; [reflexivity|]. split; [exact Hrun|].
  intros i j Hi Hj0 Hj1.
  destruct (Hpix i j Hi) as (bg & Hbg & Hw); [lia|].
  rewrite in_range_true in Hw by lia.
  exists bg, (shaded t i j bg (counter_at t (Film.mWidth film) j0 i j)).
  split; [exact Hbg|]. split; [exact Hw|]. cbv zeta.
  unfold shaded. rewrite frac_single by reflexivity.
  change (N.to_nat (mSubPixels t)) with O. cbn [jitter_rays map fold_left].
  unfold sample. cbn [mInter mShader mCamera t].
  set (primary := match inter (camera i j F64.half F64.half) with
                  | Some (xyz, nml) => shader xyz nml (camera i j F64.half F64.half)
                  | None => bg
                  end).
  assert (Hv : RGBA.valid primary = true).
  { unfold primary. destruct (inter _) as [[xyz nml]|]; [apply Hsh|].
    rewrite Forall_forall in Hpx. apply Hpx. eapply pixel_elem_of, Hbg. }
  unfold RGBA.valid in Hv.
  repeat (apply andb_prop in Hv as [Hv ?]).
  cbn [RGBA.scale RGBA.rgb RGBA.r RGBA.g RGBA.b RGBA.a].
  rewrite !F32_mul_one_r by assumption. auto.
Qed.

Lemma single_sample_run_witness :
  exists t film',
    LevelSetRayTracer_ctor two_level_rand01 half_plane
      (MatteShader (RGBA.gray F32.one)) grid_camera 1 0 = Some t /\
    mRand t = None /\
    run t (0, 2) (Film.create 1 2) = Some film' /\
    forall i j, i < 1 -> 0 <= j -> j < 2 ->
      exists bg written,
        Film.pixel (Film.create 1 2) i j = Some bg /\
        Film.pixel film' i j = Some written /\
        let ray := grid_camera i j F64.half F64.half in
        let primary := match half_plane ray with
                       | Some (xyz, nml) => MatteShader (RGBA.gray F32.one) xyz nml ray
                       | None => bg
                       end in
        RGBA.r written = RGBA.r primary /\
        RGBA.g written = RGBA.g primary /\
        RGBA.b written = RGBA.b primary /\
        RGBA.a written = F32.one.
Proof.
  apply (single_sample_run two_level_rand01 half_plane
           (MatteShader (RGBA.gray F32.one)) grid_camera 0 (Film.create 1 2) 0 2).
  - apply create_wf. reflexivity.
  - lia.
  - cbn. lia.
  - intros xyz nml ray. reflexivity.
  - repeat constructor.
Defined.

(** C5 fails as stated: one sample per pixel, a surface that every ray
    hits and a matte shader whose colour is a half-transparent white.
    The primary ray's result is that colour; the pixel gets the opaque
    white. *)
Lemma single_sample_alpha_lost :
  let veil := RGBA.mk F32.one F32.one F32.one f32_half in
  let everywhere : Intersector := fun ray => Some (eye ray, dir ray) in
  exists t,
    LevelSetRayTracer_ctor two_level_rand01 everywhere (MatteShader veil)
      grid_camera 1 0 = Some t /\
    sample t RGBA.black (grid_camera 0 0 F64.half F64.half) = veil /\
    trace t false [] (Film.create 1 1) = Some (Film.mk 1 1 1 [RGBA.gray F32.one]) /\
    RGBA.gray F32.one <> veil.
Proof.
  cbv zeta. eexists. split; [reflexivity|]. split; [reflexivity|].
  split; [vm_compute; reflexivity | discriminate].
Qed.

(** ** C10: the alpha of what the tracer writes *)

(** C10: scaling a colour, multiplying two colours and adding two
    colours each give a colour of alpha [1.0f], whatever the alpha of
    the operands; and after a trace, threaded or not, every pixel of the
    film has alpha [1.0f]. *)
Theorem alpha_is_one (t : LevelSetRayTracer) (film : Film.t) (threaded : bool)
    (schedule : list (size_t * size_t)) :
  Film.wf film -> jitter_ok t ->
  (threaded = true ->
   schedule_ok (Film.mHeight film) schedule /\
   schedule_covers (Film.mHeight film) schedule) ->
  (forall c s, RGBA.a (RGBA.scale c s) = F32.one) /\
  (forall c rhs, RGBA.a (RGBA.mul c rhs) = F32.one) /\
  (forall c rhs, RGBA.a (RGBA.add c rhs) = F32.one) /\
  exists film',
    trace t threaded schedule film = Some film' /\
    forall i j, i < Film.mWidth film -> j < Film.mHeight film ->
      exists written,
        Film.pixel film' i j = Some written /\ RGBA.a written = F32.one.
Proof.
  intros Hwf Hok Hsched.
  split; [reflexivity|]. split; [reflexivity|]. split; [reflexivity|].
  unfold trace. destruct threaded.
  - destruct Hsched as [Hs Hcov]; [reflexivity|].
    destruct (parallel_for_spec t schedule film Hwf Hok Hs)
      as (film' & Hrun & _ & _ & _ & Hpix).
    exists film'. split; [exact Hrun|]. intros i j Hi Hj.
    destruct (Hpix i j Hi Hj) as (bg & _ & Hw).
    destruct (owner schedule j) as [r|] eqn:Hown; [|now destruct (Hcov j Hj)].
    eexists. split; [exact Hw|]. reflexivity.
  - destruct (run_spec t film 0 (Film.mHeight film) Hwf Hok)
      as (film' & Hrun & _ & _ & _ & Hpix); [lia | lia |].
    exists film'. split; [exact Hrun|]. intros i j Hi Hj.
    destruct (Hpix i j Hi Hj) as (bg & _ & Hw).
    rewrite in_range_true in Hw by lia.
    eexists. split; [exact Hw|]. reflexivity.
Qed.

Lemma alpha_is_one_witness :
  let film := Film.mk 1 2 2 [RGBA.mk F32.zero F32.zero F32.zero f32_half;
                             RGBA.mk F32.one F32.zero F32.zero f32_quarter] in
  exists film',
    trace scene_tracer_2 true [(1, 2); (0, 1)] film = Some film' /\
    forall i j, i < 1 -> j < 2 ->
      exists written,
        Film.pixel film' i j = Some written /\ RGBA.a written = F32.one.
Proof.
  cbv zeta.
  apply (alpha_is_one scene_tracer_2
           (Film.mk 1 2 2 [RGBA.mk F32.zero F32.zero F32.zero f32_half;
                           RGBA.mk F32.one F32.zero F32.zero f32_quarter])
           true [(1, 2); (0, 1)]).
  - repeat split; reflexivity.
  - exact scene_tracer_2_jitter_ok.
  - intros _. split.
    + cbn. repeat split; try lia.
      * apply Forall_cons. split; [right; cbn; lia | constructor].
      * constructor.
    + intros j Hj. cbn in Hj.
      assert (Hc : j = 0 \/ j = 1) by lia. destruct Hc as [-> | ->]; discriminate.
Defined.

(** * Further properties of the code *)

(** ** The film *)

(** X1: [fill(rgb)] keeps the size of the film and leaves every pixel
    holding [rgb]. *)
Theorem fill_every_pixel (f : Film.t) (c : RGBA.t) :
  Film.wf f ->
  exists f',
    Film.fill f c = Some f' /\
    Film.wf f' /\
    Film.mWidth f' = Film.mWidth f /\ Film.mHeight f' = Film.mHeight f /\
    forall w h, w < Film.mWidth f -> h < Film.mHeight f ->
      Film.pixel f' w h = Some c.
Proof.
  intros Hwf. pose proof Hwf as (Hfit & Hsz & Hlen).
  rewrite fill_spec by exact Hlen. eexists. split; [reflexivity|].
  assert (Hwf' : Film.wf (Film.with_pixels f
                            (replicate (length (Film.mPixels f)) c))).
  { unfold Film.wf. cbn. rewrite length_replicate. auto. }
  split; [exact Hwf'|]. split; [reflexivity|]. split; [reflexivity|].
  intros w h Hw Hh. rewrite pixel_load by assumption. cbn.
  unfold load. apply lookup_replicate_2.
  destruct (offset_small f w h Hwf Hw Hh) as [_ Hlt]. lia.
Qed.

Lemma fill_every_pixel_witness :
  exists f',
    Film.fill film_2x1 (RGBA.gray f32_half) = Some f' /\
    Film.wf f' /\
    Film.mWidth f' = Film.mWidth film_2x1 /\
    Film.mHeight f' = Film.mHeight film_2x1 /\
    forall w h, w < Film.mWidth film_2x1 -> h < Film.mHeight film_2x1 ->
      Film.pixel f' w h = Some (RGBA.gray f32_half).
Proof.
  apply (fill_every_pixel film_2x1 (RGBA.gray f32_half)).
  repeat split; reflexivity.
Defined.

(** X2: a pixel written through [pixel(w, h)] is the pixel read back at
    [(w, h)], and no other pixel of the film changes. *)
Theorem set_pixel_then_pixel (f : Film.t) (w h : size_t) (c : RGBA.t) :
  Film.wf f -> w < Film.mWidth f -> h < Film.mHeight f ->
  exists f',
    Film.set_pixel f w h c = Some f' /\
    Film.wf f' /\
    Film.pixel f' w h = Some c /\
    forall w' h', w' < Film.mWidth f -> h' < Film.mHeight f ->
      (w', h') <> (w, h) -> Film.pixel f' w' h' = Film.pixel f w' h'.
Proof.
  intros Hwf Hw Hh. pose proof Hwf as (Hfit & Hsz & Hlen).
  destruct (offset_small f w h Hwf Hw Hh) as [Hoff Hlt].
  unfold Film.set_pixel. rewrite Hoff.
  pose proof Hw as Hwb. pose proof Hh as Hhb.
  apply N.ltb_lt in Hwb, Hhb. rewrite Hwb, Hhb. cbn.
  rewrite store_Some by lia. cbn. eexists. split; [reflexivity|].
  assert (Hwf' : Film.wf (Film.with_pixels f
                            (<[N.to_nat (w + h * Film.mWidth f) := c]> (Film.mPixels f)))).
  { unfold Film.wf. cbn. rewrite length_insert. auto. }
  split; [exact Hwf'|]. split.
  - rewrite pixel_load by assumption. cbn. apply load_insert_eq. lia.
  - intros w' h' Hw' Hh' Hne. rewrite !pixel_load by assumption. cbn.
    apply load_insert_ne. intros Heq. apply Hne.
    destruct (index_inj (Film.mWidth f) w w' h h' Hw Hw' Heq) as [-> ->].
    reflexivity.
Qed.

Lemma set_pixel_then_pixel_witness :
  exists f',
    Film.set_pixel film_2x1 1 0 RGBA.black = Some f' /\
    Film.wf f' /\
    Film.pixel f' 1 0 = Some RGBA.black /\
    forall w' h', w' < Film.mWidth film_2x1 -> h' < Film.mHeight film_2x1 ->
      (w', h') <> (1, 0) -> Film.pixel f' w' h' = Film.pixel film_2x1 w' h'.
Proof.
  apply (set_pixel_then_pixel film_2x1 1 0 RGBA.black).
  - repeat split; reflexivity.
  - reflexivity.
  - reflexivity.
Defined.

(** ** The checkerboard *)





(** X4: with a tile size of 0 every [col & size] is 0 and the
    checkerboard is the uniform fill with its second colour. *)
Theorem checkerboard_size_zero (f : Film.t) (c1 c2 : RGBA.t) :
  Film.wf f ->
  Film.checkerboard f c1 c2 0 = Film.fill f c2 /\
  exists f', Film.fill f c2 = Some f'.
Proof.
  intros Hwf. pose proof Hwf as (Hfit & Hsz & Hlen).
  destruct (checkerboard_spec f c1 c2 0 Hwf) as (f1 & Hrun & Hwf1 & HW1 & HH1 & Hpix).
  rewrite Hrun, (fill_spec f c2 Hlen). split; [|eauto]. f_equal.
  assert (Hwf2 : Film.wf (Film.with_pixels f
                            (replicate (length (Film.mPixels f)) c2))).
  { unfold Film.wf. cbn. rewrite length_replicate. auto. }
  apply film_ext; try assumption.
  intros i j Hi Hj. rewrite HW1 in Hi. rewrite HH1 in Hj.
  rewrite (Hpix i j Hi Hj). unfold checker. rewrite !N.land_0_r. cbn.
  rewrite pixel_load by assumption. cbn. unfold load.
  symmetry. apply lookup_replicate_2.
  destruct (offset_small f i j Hwf Hi Hj) as [_ Hlt]. lia.
Qed.

Lemma checkerboard_size_zero_witness :
  Film.checkerboard film_2x1 (RGBA.gray f32_0_3) (RGBA.gray f32_0_6) 0
  = Film.fill film_2x1 (RGBA.gray f32_0_6) /\
  exists f', Film.fill film_2x1 (RGBA.gray f32_0_6) = Some f'.
Proof.
  apply (checkerboard_size_zero film_2x1 (RGBA.gray f32_0_3) (RGBA.gray f32_0_6)).
  repeat split; reflexivity.
Defined.

(** ** PPM export *)

Lemma for_loop_ext {St} (body body' : N -> St -> option St) fuel lo (s : St) :
  (forall i s, body i s = body' i s) ->
  for_loop fuel lo body s = for_loop fuel lo body' s.
Proof.
  intros Hext. revert lo s. induction fuel as [|fuel IH]; intros lo s; [reflexivity|].
  cbn [for_loop]. rewrite Hext. destruct (body' lo s) as [s'|]; cbn; [apply IH | reflexivity].
Qed.

(** X5: the file that [savePPM] writes does not depend on the alpha
    channel: whatever the alpha of each pixel is replaced by, the same
    name and the same bytes result (and the same failure, if any). *)
Theorem savePPM_ignores_alpha (f : Film.t) (alpha : RGBA.t -> float)
    (fileName : string) (can_open : string -> bool) :
  Film.savePPM
    (Film.with_pixels f
       (map (fun c => RGBA.mk (RGBA.r c) (RGBA.g c) (RGBA.b c) (alpha c))
          (Film.mPixels f)))
    fileName can_open
  = Film.savePPM f fileName can_open.
Proof.
  unfold Film.savePPM. cbn [Film.with_pixels Film.mSize Film.mPixels].
  destruct (decide (3 * Film.mSize f < 2 ^ 64)); [|reflexivity].
  unfold for_range.
  rewrite (for_loop_ext _
             (fun k tmp => c ← load (Film.mPixels f) k; bs ← ppm_bytes c; Some (tmp ++ bs))).
  - reflexivity.
  - intros k tmp. unfold load. rewrite list_lookup_fmap.
    destruct (Film.mPixels f !! N.to_nat k) as [c|]; reflexivity.
Qed.

(** ** Compositing *)

(** X6: [over] on a fully transparent accumulator ([a = +0]) whose
    colour channels are finite yields the colour composited onto it
    with its channels multiplied by its alpha, and that alpha (the sign
    of a zero apart). *)
Theorem over_transparent_bottom (bottom top : RGBA.t) :
  RGBA.a bottom = F32.zero ->
  is_finite (RGBA.r bottom) = true ->
  is_finite (RGBA.g bottom) = true ->
  is_finite (RGBA.b bottom) = true ->
  F32.valid (RGBA.a top) = true ->
  same_number (RGBA.r (RGBA.over bottom top)) (F32.mul (RGBA.a top) (RGBA.r top)) /\
  same_number (RGBA.g (RGBA.over bottom top)) (F32.mul (RGBA.a top) (RGBA.g top)) /\
  same_number (RGBA.b (RGBA.over bottom top)) (F32.mul (RGBA.a top) (RGBA.b top)) /\
  same_number (RGBA.a (RGBA.over bottom top)) (RGBA.a top).
Proof.
  destruct bottom as [br bg bb ba], top as [tr tg tb ta].
  unfold RGBA.over. cbn [RGBA.r RGBA.g RGBA.b RGBA.a].
  intros -> Hr Hg Hb Ha.
  assert (Hs : F32.mul ta (F32.sub F32.one F32.zero) = ta).
  { change (F32.sub F32.one F32.zero) with F32.one. now apply F32_mul_one_r. }
  rewrite Hs.
  assert (Hz : forall x y, is_finite x = true ->
                 same_number (F32.add (F32.mul F32.zero x) y) y).
  { intros x y Hx.
    assert (Hzx : exists s, F32.mul F32.zero x = S754_zero s)
      by (destruct x; try discriminate; cbn; eauto).
    destruct Hzx as [s ->].
    destruct y as [[|]| | |]; destruct s; cbn; auto. }
  repeat split; try (apply Hz; assumption).
  destruct ta as [[|]| | |]; cbn; auto.
Qed.

Lemma over_transparent_bottom_witness :
  let bottom := RGBA.mk f32_quarter f32_half F32.one F32.zero in
  let top := RGBA.mk F32.one f32_0_3 f32_0_6 f32_half in
  same_number (RGBA.r (RGBA.over bottom top)) (F32.mul (RGBA.a top) (RGBA.r top)) /\
  same_number (RGBA.g (RGBA.over bottom top)) (F32.mul (RGBA.a top) (RGBA.g top)) /\
  same_number (RGBA.b (RGBA.over bottom top)) (F32.mul (RGBA.a top) (RGBA.b top)) /\
  same_number (RGBA.a (RGBA.over bottom top)) (RGBA.a top).
Proof.
  apply (over_transparent_bottom
           (RGBA.mk f32_quarter f32_half F32.one F32.zero)
           (RGBA.mk F32.one f32_0_3 f32_0_6 f32_half)); reflexivity.
Defined.

(** ** Shaders *)

Lemma SFmul_opp_l prec emax x y :
  SFmul prec emax (SFopp x) y = SFopp (SFmul prec emax x y).
Proof.
  destruct x as [sx|sx| |sx mx ex], y as [sy|sy| |sy my ey]; cbn;
    try reflexivity; try (now rewrite <- negb_xorb_l).
  rewrite <- negb_xorb_l. apply binary_round_aux_opp.
Qed.

(** X7: the Diffuse shader gives the same colour for a normal and for
    the opposite normal: the orientation of the surface does not
    matter. *)
Theorem DiffuseShader_normal_flip (d : RGBA.t) (p n : Vec3) (ray : Ray) :
  DiffuseShader d p (Vec3_neg n) ray = DiffuseShader d p n ray.
Proof.
  unfold DiffuseShader. do 2 f_equal.
  unfold Vec3_dot, Vec3_neg, F64.abs, F64.add, F64.mul, F64.opp. cbn [vx vy vz].
  rewrite !SFmul_opp_l.
  set (p1 := SFmul _ _ (vx n) _). set (p2 := SFmul _ _ (vy n) _).
  set (p3 := SFmul _ _ (vz n) _).
  transitivity (SFabs (SFopp (SFadd F64.prec F64.emax
                                (SFadd F64.prec F64.emax p1 p2) p3)));
    [apply same_number_abs | apply SFabs_opp].
  eapply same_number_trans; [apply SFadd_same_l, SFadd_opp | apply SFadd_opp].
Qed.

(** ** The tracer *)

Lemma in_range_false (lo hi j : N) :
  j < lo \/ hi <= j -> (lo <=? j) && (j <? hi) = false.
Proof.
  intros [H|H]; apply andb_false_iff; [left; now apply N.leb_gt | right; now apply N.ltb_ge].
Qed.

(** X8: a run over the rows [j0 <= j < j1] keeps the size of the film
    and changes no pixel of any other row. *)
Theorem run_leaves_other_rows (t : LevelSetRayTracer) (film : Film.t) (j0 j1 : size_t) :
  Film.wf film -> jitter_ok t -> j0 <= j1 -> j1 <= Film.mHeight film ->
  exists film',
    run t (j0, j1) film = Some film' /\
    Film.wf film' /\
    Film.mWidth film' = Film.mWidth film /\
    Film.mHeight film' = Film.mHeight film /\
    forall i j, i < Film.mWidth film -> j < Film.mHeight film ->
      j < j0 \/ j1 <= j -> Film.pixel film' i j = Film.pixel film i j.
Proof.
  intros Hwf Hok Hle Hhi.
  destruct (run_spec t film j0 j1 Hwf Hok Hle Hhi)
    as (film' & Hrun & Hwf' & HW & HH & Hpix).
  exists film'. repeat (split; [assumption|]).
  intros i j Hi Hj Hout. destruct (Hpix i j Hi Hj) as (bg & -> & ->).
  now rewrite in_range_false.
Qed.

Lemma run_leaves_other_rows_witness :
  exists film',
    run scene_tracer_2 (1, 2) (Film.create 1 3) = Some film' /\
    Film.wf film' /\
    Film.mWidth film' = Film.mWidth (Film.create 1 3) /\
    Film.mHeight film' = Film.mHeight (Film.create 1 3) /\
    forall i j, i < Film.mWidth (Film.create 1 3) ->
      j < Film.mHeight (Film.create 1 3) ->
      j < 1 \/ 2 <= j -> Film.pixel film' i j = Film.pixel (Film.create 1 3) i j.
Proof.
  apply (run_leaves_other_rows scene_tracer_2 (Film.create 1 3) 1 2).
  - apply create_wf. reflexivity.
  - exact scene_tracer_2_jitter_ok.
  - lia.
  - cbn. lia.
Defined.

(** X9: what a run writes to a pixel depends on the film only through
    the value that this pixel held: on two films of the same size that
    agree at [(i, j)], the runs agree at [(i, j)]. *)
Theorem run_pixel_local (t : LevelSetRayTracer) (film1 film2 : Film.t)
    (j0 j1 i j : size_t) :
  Film.wf film1 -> Film.wf film2 -> jitter_ok t ->
  Film.mWidth film2 = Film.mWidth film1 ->
  Film.mHeight film2 = Film.mHeight film1 ->
  j0 <= j1 -> j1 <= Film.mHeight film1 ->
  i < Film.mWidth film1 -> j < Film.mHeight film1 ->
  Film.pixel film1 i j = Film.pixel film2 i j ->
  exists film1' film2',
    run t (j0, j1) film1 = Some film1' /\
    run t (j0, j1) film2 = Some film2' /\
    Film.pixel film1' i j = Film.pixel film2' i j.
Proof.
  intros Hwf1 Hwf2 Hok HW HH Hle Hhi Hi Hj Heq.
  destruct (run_spec t film1 j0 j1 Hwf1 Hok Hle Hhi)
    as (f1 & Hrun1 & _ & _ & _ & Hpix1).
  destruct (run_spec t film2 j0 j1 Hwf2 Hok Hle)
    as (f2 & Hrun2 & _ & _ & _ & Hpix2); [congruence|].
  exists f1, f2. split; [exact Hrun1|]. split; [exact Hrun2|].
  destruct (Hpix1 i j Hi Hj) as (bg1 & Hbg1 & ->).
  destruct (Hpix2 i j) as (bg2 & Hbg2 & ->); [congruence | congruence |].
  assert (bg2 = bg1) by congruence. subst bg2. now rewrite HW.
Qed.

Lemma run_pixel_local_witness :
  let film1 := Film.mk 1 2 2 [RGBA.black; RGBA.gray f32_half] in
  let film2 := Film.mk 1 2 2 [RGBA.gray F32.one; RGBA.gray f32_half] in
  exists film1' film2',
    run scene_tracer_2 (0, 2) film1 = Some film1' /\
    run scene_tracer_2 (0, 2) film2 = Some film2' /\
    Film.pixel film1' 0 1 = Film.pixel film2' 0 1.
Proof.
  cbv zeta.
  apply (run_pixel_local scene_tracer_2
           (Film.mk 1 2 2 [RGBA.black; RGBA.gray f32_half])
           (Film.mk 1 2 2 [RGBA.gray F32.one; RGBA.gray f32_half]) 0 2 0 1).
  - repeat split; reflexivity.
  - repeat split; reflexivity.
  - exact scene_tracer_2_jitter_ok.
  - reflexivity.
  - reflexivity.
  - lia.
  - cbn. lia.
  - reflexivity.
  - reflexivity.
  - reflexivity.
Defined.

Lemma shaded_all_hit (t : LevelSetRayTracer) i j n (bg bg' : RGBA.t) :
  Forall (fun ray => mInter t ray <> None) (pixel_rays t i j n) ->
  shaded t i j bg n = shaded t i j bg' n.
Proof.
  unfold pixel_rays. intros Hhit. apply Forall_cons in Hhit as [H0 Hrest].
  assert (Hs : forall ray, mInter t ray <> None -> sample t bg ray = sample t bg' ray).
  { intros ray Hr. unfold sample. destruct (mInter t ray) as [[? ?]|]; [reflexivity|].
    now destruct Hr. }
  unfold shaded. rewrite (Hs _ H0). do 2 f_equal.
  apply List.map_ext_in. intros ray Hin. apply Hs.
  rewrite Forall_forall in Hrest. apply Hrest. now apply list_elem_of_In.
Qed.

(** X10: the previous content of a pixel matters only for rays that
    miss: when the primary ray and all jittered rays of a pixel hit the
    level set, the run writes the same value to it on every film of
    that size. *)
Theorem run_all_hits_ignore_background (t : LevelSetRayTracer)
    (film1 film2 : Film.t) (j0 j1 i j : size_t) :
  Film.wf film1 -> Film.wf film2 -> jitter_ok t ->
  Film.mWidth film2 = Film.mWidth film1 ->
  Film.mHeight film2 = Film.mHeight film1 ->
  j1 <= Film.mHeight film1 ->
  i < Film.mWidth film1 -> j0 <= j -> j < j1 ->
  Forall (fun ray => mInter t ray <> None)
    (pixel_rays t i j (counter_at t (Film.mWidth film1) j0 i j)) ->
  exists film1' film2',
    run t (j0, j1) film1 = Some film1' /\
    run t (j0, j1) film2 = Some film2' /\
    Film.pixel film1' i j = Film.pixel film2' i j.
Proof.
  intros Hwf1 Hwf2 Hok HW HH Hhi Hi Hj0 Hj1 Hhit.
  destruct (run_spec t film1 j0 j1 Hwf1 Hok) as (f1 & Hrun1 & _ & _ & _ & Hpix1);
    [lia | assumption |].
  destruct (run_spec t film2 j0 j1 Hwf2 Hok) as (f2 & Hrun2 & _ & _ & _ & Hpix2);
    [lia | congruence |].
  exists f1, f2. split; [exact Hrun1|]. split; [exact Hrun2|].
  destruct (Hpix1 i j Hi) as (bg1 & _ & ->); [lia|].
  destruct (Hpix2 i j) as (bg2 & _ & ->); [congruence | rewrite HH; lia |].
  rewrite in_range_true by lia. rewrite HW. f_equal.
  now apply shaded_all_hit.
Qed.

Lemma run_all_hits_ignore_background_witness :
  let t := {| mIsMaster := true; mRand := None;
              mInter := fun ray => Some (eye ray, dir ray);
              mShader := DiffuseShader (RGBA.gray f32_half);
              mCamera := grid_camera; mSubPixels := 0 |} in
  exists film1' film2',
    run t (0, 1) (Film.mk 1 1 1 [RGBA.black]) = Some film1' /\
    run t (0, 1) (Film.mk 1 1 1 [RGBA.gray F32.one]) = Some film2' /\
    Film.pixel film1' 0 0 = Film.pixel film2' 0 0.
Proof.
  cbv zeta.
  apply (run_all_hits_ignore_background
           {| mIsMaster := true; mRand := None;
              mInter := fun ray => Some (eye ray, dir ray);
              mShader := DiffuseShader (RGBA.gray f32_half);
              mCamera := grid_camera; mSubPixels := 0 |}
           (Film.mk 1 1 1 [RGBA.black]) (Film.mk 1 1 1 [RGBA.gray F32.one])
           0 1 0 0).
  - repeat split; reflexivity.
  - repeat split; reflexivity.
  - split; [reflexivity | left; reflexivity].
  - reflexivity.
  - reflexivity.
  - cbn. lia.
  - reflexivity.
  - lia.
  - lia.
  - repeat constructor; discriminate.
Defined.

(** ** The free function [rayTrace] and [trace] *)

(** X11: [rayTrace] with [pixelSamples = 0] renders nothing (the
    assertion [pixelSamples > 0] of [setPixelSamples] fails in the
    constructor), and with [pixelSamples > 0] it completes on every film
    whose buffer matches its size, for every seed and generator,
    threaded or not, and leaves a film of the same size. *)
Theorem rayTrace_completes (rand01 : N -> nat -> double) (inter : Intersector)
    (shader : BaseShader) (camera : BaseCamera) (pixelSamples : size_t)
    (seed : N) (threaded : bool) (schedule : list (size_t * size_t))
    (film : Film.t) :
  Film.wf film -> pixelSamples < 2 ^ 64 ->
  (threaded = true -> schedule_ok (Film.mHeight film) schedule) ->
  (pixelSamples = 0 ->
     rayTrace rand01 inter shader camera pixelSamples seed threaded schedule film
     = None) /\
  (0 < pixelSamples ->
     exists film',
       rayTrace rand01 inter shader camera pixelSamples seed threaded schedule film
       = Some film' /\
       Film.wf film' /\
       Film.mWidth film' = Film.mWidth film /\
       Film.mHeight film' = Film.mHeight film).
Proof.
  intros Hwf Hp Hs. split.
  - intros ->. reflexivity.
  - intros Hpos. unfold rayTrace.
    destruct (LevelSetRayTracer_ctor rand01 inter shader camera pixelSamples seed)
      as [t|] eqn:Et.
    + pose proof (setPixelSamples_jitter_ok _ _ _ _ _ Hp Et) as Hok.
      cbn. unfold trace. destruct threaded.
      * destruct (parallel_for_spec t schedule film Hwf Hok (Hs eq_refl))
          as (f & Hr & Hwf' & HW & HH & _).
        exists f. now rewrite Hr.
      * destruct (run_spec t film 0 (Film.mHeight film) Hwf Hok)
          as (f & Hr & Hwf' & HW & HH & _); [lia | lia |].
        exists f. unfold Film.height. now rewrite Hr.
    + unfold LevelSetRayTracer_ctor, setPixelSamples in Et. cbn in Et.
      apply N.ltb_lt in Hpos. rewrite Hpos in Et. discriminate.
Qed.

Lemma rayTrace_completes_witness :
  (4 = 0 ->
     rayTrace two_level_rand01 half_plane (MatteShader (RGBA.gray F32.one))
       grid_camera 4 0 true [(0, 1); (1, 2)] (Film.create 3 2) = None) /\
  (0 < 4 ->
     exists film',
       rayTrace two_level_rand01 half_plane (MatteShader (RGBA.gray F32.one))
         grid_camera 4 0 true [(0, 1); (1, 2)] (Film.create 3 2) = Some film' /\
       Film.wf film' /\
       Film.mWidth film' = Film.mWidth (Film.create 3 2) /\
       Film.mHeight film' = Film.mHeight (Film.create 3 2)).
Proof.
  apply (rayTrace_completes two_level_rand01 half_plane
           (MatteShader (RGBA.gray F32.one)) grid_camera 4 0 true
           [(0, 1); (1, 2)] (Film.create 3 2)).
  - apply create_wf. reflexivity.
  - reflexivity.
  - intros _. cbn. repeat split; try lia.
    + apply Forall_cons. split; [left; cbn; lia | constructor].
    + constructor.
Defined.

(** X12: the film of a threaded trace does not depend on the order in
    which the sub-ranges are executed. *)
Theorem trace_threaded_any_order (t : LevelSetRayTracer) (film : Film.t)
    (schedule schedule' : list (size_t * size_t)) :
  Film.wf film -> jitter_ok t ->
  schedule_ok (Film.mHeight film) schedule ->
  Permutation schedule schedule' ->
  exists film',
    trace t true schedule film = Some film' /\
    trace t true schedule' film = Some film'.
Proof.
  intros Hwf Hok Hs Hperm.
  assert (Hs' : schedule_ok (Film.mHeight film) schedule').
  { clear Hwf Hok. induction Hperm as [|r l l' Hp IH|r r' l|l l' l'' Hp1 IH1 Hp2 IH2].
    - exact I.
    - destruct Hs as (H1 & H2 & H3 & H4). cbn. repeat split; try assumption.
      + now rewrite <- Hp.
      + now apply IH.
    - destruct Hs as (H1 & H2 & H3 & H1' & H2' & H3' & H4).
      apply Forall_cons in H3 as [Hd H3]. cbn. repeat split; try assumption.
      apply Forall_cons. split; [|assumption].
      unfold disjoint_ranges in *. lia.
    - auto. }
  destruct (parallel_for_spec t schedule film Hwf Hok Hs) as (f & Hr & _).
  exists f. unfold trace. split; [exact Hr|].
  now rewrite <- (parallel_for_order t schedule schedule' film Hwf Hok Hs Hs' Hperm).
Qed.

Lemma trace_threaded_any_order_witness :
  exists film',
    trace scene_tracer_2 true [(0, 1); (1, 3)] (Film.create 2 3) = Some film' /\
    trace scene_tracer_2 true [(1, 3); (0, 1)] (Film.create 2 3) = Some film'.
Proof.
  apply (trace_threaded_any_order scene_tracer_2 (Film.create 2 3)
           [(0, 1); (1, 3)] [(1, 3); (0, 1)]).
  - apply create_wf. reflexivity.
  - exact scene_tracer_2_jitter_ok.
  - cbn. repeat split; try lia.
    + apply Forall_cons. split; [left; cbn; lia | constructor].
    + constructor.
  - apply perm_swap.
Defined.

(** X13: with one sample per pixel, or whenever
    [(pixelSamples - 1) * width] is a multiple of 8, a threaded trace
    gives the film of the unthreaded one however the rows are split. *)
Theorem trace_threaded_width_multiple (t : LevelSetRayTracer) (film : Film.t)
    (schedule : list (size_t * size_t)) :
  Film.wf film -> jitter_ok t ->
  schedule_ok (Film.mHeight film) schedule ->
  schedule_covers (Film.mHeight film) schedule ->
  (mSubPixels t * Film.mWidth film) mod 8 = 0 ->
  exists film',
    trace t false schedule film = Some film' /\
    trace t true schedule film = Some film'.
Proof.
  intros Hwf Hok Hs Hcov H8. unfold trace, Film.height.
  pose proof (schedule_aligned_mult_8 t (Film.mWidth film) schedule H8) as Hal.
  destruct (run_spec t film 0 (Film.mHeight film) Hwf Hok)
    as (fs & Hrs & Hwfs & HWs & HHs & Hps); [lia | lia |].
  destruct (parallel_for_spec t schedule film Hwf Hok Hs)
    as (fp & Hrp & Hwfp & HWp & HHp & Hpp).
  exists fs. split; [exact Hrs|]. rewrite Hrp. f_equal.
  apply film_ext; try assumption; try congruence.
  intros i j Hi Hj. rewrite HWp in Hi. rewrite HHp in Hj.
  destruct (Hps i j Hi Hj) as (bg & Hbg & ->).
  destruct (Hpp i j Hi Hj) as (bg' & Hbg' & ->).
  assert (bg' = bg) by congruence. subst bg'. f_equal.
  rewrite in_range_true by lia.
  destruct (owner schedule j) as [r|] eqn:Hown.
  - apply shaded_mod_16, counter_at_aligned.
    + unfold schedule_aligned in Hal. rewrite Forall_forall in Hal.
      apply Hal. unfold owner in Hown. apply List.find_some in Hown as [Hin _].
      now apply list_elem_of_In.
    + apply owner_Some in Hown. lia.
  - exfalso. now apply (Hcov j Hj).
Qed.

Lemma trace_threaded_width_multiple_witness :
  exists film',
    trace scene_tracer_1 false [(0, 1); (1, 2)] (Film.create 3 2) = Some film' /\
    trace scene_tracer_1 true [(0, 1); (1, 2)] (Film.create 3 2) = Some film'.
Proof.
  apply (trace_threaded_width_multiple scene_tracer_1 (Film.create 3 2)
           [(0, 1); (1, 2)]).
  - apply create_wf. reflexivity.
  - split; [reflexivity | left; reflexivity].
  - cbn. repeat split; try lia.
    + apply Forall_cons. split; [left; cbn; lia | constructor].
    + constructor.
  - intros j Hj. change (Film.mHeight (Film.create 3 2)) with 2 in Hj.
    assert (Hc : j = 0 \/ j = 1) by lia. destruct Hc as [-> | ->]; discriminate.
  - reflexivity.
Defined.

(** ** Jittered sub-pixel samples *)

Lemma jitter_rays_lookup (t : LevelSetRayTracer) i j (k : nat) (n : N) (m : nat) :
  (m < k)%nat ->
  jitter_rays t i j k n !! m
  = Some (mCamera t i j (jitter t (n + 2 * N.of_nat m))
                        (jitter t (n + 2 * N.of_nat m + 1))).
Proof.
  revert n m. induction k as [|k IH]; intros n m Hm; [lia|].
  destruct m as [|m]; cbn [jitter_rays lookup list_lookup].
  - change (N.of_nat 0) with 0. now rewrite N.mul_0_r, N.add_0_r.
  - rewrite IH by lia. do 2 f_equal; f_equal; lia.
Qed.

(** X14: the jitter table has 16 entries and every sub-pixel sample
    takes two, so the offsets repeat after 8 samples: sub-pixel sample
    [m + 8] of a pixel shoots the same ray as sub-pixel sample [m].
    (Entry 0 of [pixel_rays] is the primary ray.) *)
Theorem jitter_repeats_after_8 (t : LevelSetRayTracer) (i j : size_t) (n : N)
    (m : nat) :
  (m + 8 < N.to_nat (mSubPixels t))%nat ->
  pixel_rays t i j n !! S (m + 8) = pixel_rays t i j n !! S m.
Proof.
  intros Hm. unfold pixel_rays. cbn [lookup list_lookup].
  rewrite !jitter_rays_lookup by lia.
  assert (E : forall d, (n + 2 * N.of_nat (m + 8) + d) mod 16
                        = (n + 2 * N.of_nat m + d) mod 16).
  { intros d.
    replace (n + 2 * N.of_nat (m + 8) + d) with (n + 2 * N.of_nat m + d + 1 * 16) by lia.
    apply N.Div0.mod_add. }
  pose proof (E 0) as E0. rewrite !N.add_0_r in E0.
  now rewrite (jitter_mod_16 t _ _ E0), (jitter_mod_16 t _ _ (E 1)).
Qed.

Lemma jitter_repeats_after_8_witness :
  let t := {| mIsMaster := true;
              mRand := Some (map (fun k => F64.of_N (N.of_nat k)) (seq 0 16));
              mInter := half_plane;
              mShader := MatteShader (RGBA.gray F32.one);
              mCamera := grid_camera; mSubPixels := 10 |} in
  pixel_rays t 0 0 0 !! 10%nat = pixel_rays t 0 0 0 !! 2%nat.
Proof.
  cbv zeta.
  apply (jitter_repeats_after_8
           {| mIsMaster := true;
              mRand := Some (map (fun k => F64.of_N (N.of_nat k)) (seq 0 16));
              mInter := half_plane;
              mShader := MatteShader (RGBA.gray F32.one);
              mCamera := grid_camera; mSubPixels := 10 |} 0 0 0 1).
  vm_compute. lia.
Defined.

(** ** Tracing twice *)

Lemma shaded_single_twice (t : LevelSetRayTracer) i j bg n n' :
  mSubPixels t = 0 -> RGBA.valid bg = true ->
  shaded t i j (shaded t i j bg n) n' = shaded t i j bg n.
Proof.
  intros H0 Hv. unfold RGBA.valid in Hv.
  apply andb_prop in Hv as [Hv _]. apply andb_prop in Hv as [Hv Hb].
  apply andb_prop in Hv as [Hr Hg].
  unfold shaded, frac. rewrite H0.
  change (N.to_nat 0) with O. cbn [jitter_rays map fold_left].
  change (F32.div F32.one (F32.add F32.one (F32.of_N 0))) with F32.one.
  unfold sample. destruct (mInter t (mCamera t i j F64.half F64.half)) as [[xyz nml]|].
  - reflexivity.
  - unfold RGBA.scale, RGBA.rgb. cbn [RGBA.r RGBA.g RGBA.b].
    now rewrite !(F32_mul_one_r (RGBA.r bg)), !(F32_mul_one_r (RGBA.g bg)),
      !(F32_mul_one_r (RGBA.b bg)) by assumption.
Qed.

(** X15: with one sample per pixel a second run over the same rows
    changes nothing: pixels whose ray hits receive the same shaded
    colour again, and the others keep the value that the first run
    left. *)
Theorem single_sample_run_twice (t : LevelSetRayTracer) (film : Film.t)
    (j0 j1 : size_t) :
  Film.wf film -> mSubPixels t = 0 ->
  j0 <= j1 -> j1 <= Film.mHeight film ->
  Forall (fun c => RGBA.valid c = true) (Film.mPixels film) ->
  exists film1,
    run t (j0, j1) film = Some film1 /\
    run t (j0, j1) film1 = Some film1.
Proof.
  intros Hwf H0 Hle Hhi Hval.
  assert (Hok : jitter_ok t).
  { split; [rewrite H0; reflexivity | now left]. }
  destruct (run_spec t film j0 j1 Hwf Hok Hle Hhi)
    as (f1 & Hr1 & Hwf1 & HW1 & HH1 & Hp1).
  destruct (run_spec t f1 j0 j1 Hwf1 Hok Hle)
    as (f2 & Hr2 & Hwf2 & HW2 & HH2 & Hp2); [congruence|].
  exists f1. split; [exact Hr1|]. rewrite Hr2. f_equal.
  apply film_ext; try assumption.
  intros i j Hi Hj. rewrite HW2, HW1 in Hi. rewrite HH2, HH1 in Hj.
  destruct (Hp1 i j Hi Hj) as (bg & Hbg & E1).
  destruct (Hp2 i j) as (bg1 & Hbg1 & ->); [congruence | congruence |].
  rewrite E1 in Hbg1. injection Hbg1 as <-. rewrite E1. f_equal.
  destruct ((j0 <=? j) && (j <? j1)); [|reflexivity].
  rewrite HW1. apply shaded_single_twice; [assumption|].
  rewrite Forall_forall in Hval. apply Hval.
  now apply (pixel_elem_of film i j).
Qed.

Lemma single_sample_run_twice_witness :
  exists film1,
    run scene_tracer_1 (0, 2) (Film.mk 2 2 4 (replicate 4 (RGBA.gray f32_half)))
    = Some film1 /\
    run scene_tracer_1 (0, 2) film1 = Some film1.
Proof.
  apply (single_sample_run_twice scene_tracer_1
           (Film.mk 2 2 4 (replicate 4 (RGBA.gray f32_half))) 0 2).
  - repeat split; reflexivity.
  - reflexivity.
  - lia.
  - cbn. lia.
  - repeat constructor.
Defined.

(** ** More on the PPM export *)

(** X16: when the file cannot be opened, [savePPM] writes nothing and
    returns normally (the source prints a message); the pixels have been
    converted before the file is opened. *)
Theorem savePPM_cannot_open (f : Film.t) (fileName : string)
    (can_open : string -> bool) :
  Film.wf f ->
  3 * Film.mSize f < 2 ^ 64 ->
  forallb ppm_convertible (Film.mPixels f) = true ->
  can_open (fileName +:+ ".ppm") = false ->
  Film.savePPM f fileName can_open = Some None.
Proof.
  intros (_ & _ & Hlen) Hfit Hconv Hopen.
  destruct (savePPM_body (Film.mPixels f) (Film.mSize f) Hlen Hconv)
    as (body & Hrun & _).
  unfold Film.savePPM. rewrite decide_True by assumption.
  rewrite Hrun. cbn. now rewrite Hopen.
Qed.

Lemma savePPM_cannot_open_witness :
  Film.savePPM film_2x1 "img" (fun _ => false) = Some None.
Proof.
  apply (savePPM_cannot_open film_2x1 "img" (fun _ => false)).
  - repeat split; reflexivity.
  - reflexivity.
  - reflexivity.
  - reflexivity.
Defined.

Lemma to_uchar_channel_of_byte (k : Byte.byte) :
  to_uchar (F32.mul F32.c255 (channel_of_byte k)) = Some k.
Proof. destruct k; vm_compute; reflexivity. Qed.

(** X17: 8-bit colours survive the export: a pixel whose channels are
    the [float] quotients [kr / 255.0f], [kg / 255.0f], [kb / 255.0f] of
    byte values is stored by [savePPM] as exactly the bytes [kr], [kg],
    [kb], although the conversion truncates and does not round. *)
Theorem ppm_bytes_of_bytes (kr kg kb : Byte.byte) (alpha : float) :
  ppm_bytes (RGBA.mk (channel_of_byte kr) (channel_of_byte kg)
                     (channel_of_byte kb) alpha)
  = Some [kr; kg; kb].
Proof.
  unfold ppm_bytes. cbn [RGBA.r RGBA.g RGBA.b].
  now rewrite !to_uchar_channel_of_byte.
Qed.
